(** * A verified model of the Sudoku solver in [SUDOKUSOLVER.py]

    The solver keeps, for each of the 81 cells, the set of values that are
    still possible there.  [load_board] reads the givens, [apply_constraints]
    removes the value of every solved cell from the cells of its groups until
    nothing changes, and [look_forward] searches: it assigns a value to the
    cell with the fewest candidates on a copy of the board, lets
    [propagate_constraints] carry the consequences, and recurses.

    The Python dictionary [varsValues] is an association list that keeps the
    insertion order of the keys; a Python [set] of integers is a [gset Z].
    Functions that mutate the dictionary in place take the board and return
    the board they leave behind.  A Python exception is a [Raise] outcome.
    What the program prints, and the pauses of its step-by-step display, are
    left out: they read the board and change nothing. *)

From Stdlib Require Import ZArith String Ascii List Lia DecimalString.
From stdpp Require Import base decidable option list gmap sets strings numbers sorting.

Local Open Scope string_scope.
Local Open Scope list_scope.
Local Open Scope Z_scope.

(** ** The grid: cells and groups *)

Abbreviation cell := string (only parsing).

Definition rows : list ascii := list_ascii_of_string "123456789".
Definition cols : list ascii := list_ascii_of_string "ABCDEFGHI".

(** [f"{col}{row}"] *)
Definition cell_name (col row : ascii) : cell := String col (String row EmptyString).

(** [variables = [f"{col}{row}" for row in "123456789" for col in "ABCDEFGHI"]] *)
Definition variables : list cell :=
  flat_map (fun row => map (fun col => cell_name col row) cols) rows.

(** [cols[i]] and [rows[i]]; the source only uses the indices 0 to 8. *)
Definition at_index (l : list ascii) (i : nat) : ascii := nth i l "?"%char.

(** [range(0, 9, 3)] and [range(3)] *)
Definition range_0_9_3 : list nat := [0; 3; 6]%nat.
Definition range_3 : list nat := [0; 1; 2]%nat.

Definition row_groups : list (list cell) :=
  map (fun row => map (fun col => cell_name col row) cols) rows.

Definition column_groups : list (list cell) :=
  map (fun col => map (fun row => cell_name col row) rows) cols.

Definition block_groups : list (list cell) :=
  flat_map (fun r =>
    map (fun c =>
      flat_map (fun dr =>
        map (fun dc => cell_name (at_index cols (c + dc)) (at_index rows (r + dr)))
            range_3)
        range_3)
      range_0_9_3)
    range_0_9_3.

Definition constraints : list (list cell) :=
  row_groups ++ column_groups ++ block_groups.

Arguments constraints : simpl never.
Arguments variables : simpl never.

(** ** The board *)

Abbreviation candidates := (gset Z) (only parsing).

(** The dictionary [varsValues]: keys in insertion order. *)
Abbreviation store := (list (string * gset Z)) (only parsing).

Definition keys (s : store) : list cell := map fst s.

(** [k in varsValues], and the value found at [k]. *)
Fixpoint get (s : store) (k : cell) : option candidates :=
  match s with
  | [] => None
  | (k', X) :: s' => if decide (k' = k) then Some X else get s' k
  end.

(** [varsValues[k] = X]: an existing key keeps its place, a new key goes to
    the end. *)
Fixpoint put (s : store) (k : cell) (X : candidates) : store :=
  match s with
  | [] => [(k, X)]
  | (k', X') :: s' =>
      if decide (k' = k) then (k', X) :: s' else (k', X') :: put s' k X
  end.

(** [set(range(1, 10))] *)
Definition full_set : candidates := list_to_set [1; 2; 3; 4; 5; 6; 7; 8; 9].

(** The boards the program works on have the 81 cells as keys, in the order
    in which [load_board] creates them. *)
Definition well_formed (s : store) : Prop := keys s = variables.

(** The number of candidates left on the whole board. *)
Definition weight (s : store) : nat := sum_list (map (fun e => size (snd e)) s).

(** ** Outcomes *)

Inductive exn : Type :=
  | KeyError (k : cell)
  | ValueError
  | TypeError
  | StopIteration.

(** What a call does: it returns, it raises, or the model ran out of fuel. *)
Inductive outcome (A : Type) : Type :=
  | Ok (a : A)
  | Raise (e : exn)
  | OutOfFuel.
Arguments Ok {A} a.
Arguments Raise {A} e.
Arguments OutOfFuel {A}.

Global Instance outcome_bind : MBind outcome := fun A B f m =>
  match m with
  | Ok a => f a
  | Raise e => Raise e
  | OutOfFuel => OutOfFuel
  end.

(** [varsValues[k]] *)
Definition lookup_cell (s : store) (k : cell) : outcome candidates :=
  match get s k with
  | Some X => Ok X
  | None => Raise (KeyError k)
  end.

(** [next(iter(X))] *)
Definition next_iter (X : candidates) : outcome Z :=
  match elements X with
  | v :: _ => Ok v
  | [] => Raise StopIteration
  end.

(** Iterating over a set of small integers: modelled as ascending order.
    No theorem below depends on the order. *)
Definition iter_set (X : candidates) : list Z := merge_sort Z.le (elements X).

(** ** Reading the board *)

(** The characters that [str.strip] and [int] skip in ASCII text. *)
Definition is_space (c : ascii) : bool :=
  let n := nat_of_ascii c in
  ((9 <=? n) && (n <=? 13) || (28 <=? n) && (n <=? 32))%nat.

Fixpoint lstrip (l : list ascii) : list ascii :=
  match l with
  | c :: l' => if is_space c then lstrip l' else l
  | [] => []
  end.

(** [line.strip()] *)
Definition py_strip (l : list ascii) : list ascii := rev (lstrip (rev (lstrip l))).

Definition digit_value (c : ascii) : option Z :=
  let n := nat_of_ascii c in
  if ((48 <=? n) && (n <=? 57))%nat then Some (Z.of_nat (n - 48)) else None.

(** Decimal digits, single underscores allowed between two digits. *)
Fixpoint digits (l : list ascii) (acc : Z) (after_digit : bool) : option Z :=
  match l with
  | [] => if after_digit then Some acc else None
  | c :: l' =>
      if Ascii.eqb c "_" then
        if after_digit then digits l' acc false else None
      else
        match digit_value c with
        | Some d => digits l' (10 * acc + d) true
        | None => None
        end
  end.

(** [int(text)] for ASCII text: surrounding white space, an optional sign,
    decimal digits.  Anything else raises [ValueError]. *)
Definition py_int (text : list ascii) : outcome Z :=
  let signed :=
    match py_strip text with
    | "+"%char :: l => digits l 0 false
    | "-"%char :: l => Z.opp <$> digits l 0 false
    | l => digits l 0 false
    end in
  match signed with
  | Some z => Ok z
  | None => Raise ValueError
  end.

(** The board file: the lines that are still to be read. *)
Definition file := list string.

(** [board_fd.readline()]: the next line, or the empty string at the end of
    the file. *)
Definition readline (fd : file) : string * file :=
  match fd with
  | line :: fd' => (line, fd')
  | [] => ("", [])
  end.

(** [it.product("123456789", "ABCDEFGHI")] *)
Definition product (xs ys : list ascii) : list (ascii * ascii) :=
  flat_map (fun x => map (fun y => (x, y)) ys) xs.

Definition initial_store : store :=
  map (fun rc => (cell_name (snd rc) (fst rc), full_set)) (product rows cols).

(** The loop [for key in varsValues] of [load_board]. *)
Fixpoint load_cells (ks : list cell) (fd : file) (s : store) : outcome store :=
  match ks with
  | [] => Ok s
  | key :: ks' =>
      let (line, fd') := readline fd in
      keyValue ← py_int (py_strip (list_ascii_of_string line));
      let s' := if keyValue <? 10 then put s key {[keyValue]} else s in
      load_cells ks' fd' s'
  end.

Definition load_board (fd : file) : outcome store :=
  load_cells (keys initial_store) fd initial_store.

(** ** The fixpoint propagator *)

(** [varsValues[key].discard(value)] *)
Definition discard (s : store) (key : cell) (X : candidates) (value : Z) : store :=
  put s key (X ∖ {[value]}).

(** The innermost loop of [apply_constraints]: [for key in constraint]. *)
Fixpoint remove_from_peers (cellId : cell) (unique_value : Z) (peers : list cell)
    (s : store) (dirty : bool) : outcome (store * bool) :=
  match peers with
  | [] => Ok (s, dirty)
  | key :: rest =>
      if decide (key = cellId) then
        remove_from_peers cellId unique_value rest s dirty
      else
        X ← lookup_cell s key;
        if decide (unique_value ∈ X) then
          remove_from_peers cellId unique_value rest (discard s key X unique_value) true
        else remove_from_peers cellId unique_value rest s dirty
  end.

(** [for cellId in constraint] *)
Fixpoint scan_cells (constraint : list cell) (cells : list cell)
    (s : store) (dirty : bool) : outcome (store * bool) :=
  match cells with
  | [] => Ok (s, dirty)
  | cellId :: rest =>
      X ← lookup_cell s cellId;
      if decide (size X = 1%nat) then
        unique_value ← next_iter X;
        '(s', dirty') ← remove_from_peers cellId unique_value constraint s dirty;
        scan_cells constraint rest s' dirty'
      else scan_cells constraint rest s dirty
  end.

(** [for constraint in constraints] *)
Fixpoint scan_constraints (cs : list (list cell)) (s : store) (dirty : bool)
    : outcome (store * bool) :=
  match cs with
  | [] => Ok (s, dirty)
  | constraint :: rest =>
      '(s', dirty') ← scan_cells constraint constraint s dirty;
      scan_constraints rest s' dirty'
  end.

(** One turn of the [while dirty] loop. *)
Definition pass (s : store) : outcome (store * bool) :=
  scan_constraints constraints s false.

Fixpoint apply_loop (fuel : nat) (s : store) : outcome store :=
  match fuel with
  | O => OutOfFuel
  | S fuel' =>
      '(s', dirty) ← pass s;
      if dirty : bool then apply_loop fuel' s' else Ok s'
  end.

(** Every turn but the last removes a candidate, so [weight s] turns and one
    more are enough (lemma [apply_loop_total]). *)
Definition apply_constraints (s : store) : outcome store :=
  apply_loop (S (weight s)) s.

(** ** The cascade propagator *)

Section Cascade.
(** The recursive call. *)
Variable self : store -> cell -> Z -> outcome (bool * store).
Variable var : cell.
Variable value : Z.

(** [for peer in constraint] *)
Fixpoint propagate_peers (peers : list cell) (s : store) : outcome (bool * store) :=
  match peers with
  | [] => Ok (true, s)
  | peer :: rest =>
      if decide (peer = var) then propagate_peers rest s
      else
        X ← lookup_cell s peer;
        if decide (value ∈ X) then
          let s1 := discard s peer X value in
          let X' := X ∖ {[value]} in
          if decide (size X' = 0%nat) then Ok (false, s1)
          else if decide (size X' = 1%nat) then
            next_value ← next_iter X';
            '(ok, s2) ← self s1 peer next_value;
            if ok : bool then propagate_peers rest s2 else Ok (false, s2)
          else propagate_peers rest s1
        else propagate_peers rest s
  end.

(** [for constraint in constraints: if var in constraint] *)
Fixpoint propagate_groups (cs : list (list cell)) (s : store) : outcome (bool * store) :=
  match cs with
  | [] => Ok (true, s)
  | constraint :: rest =>
      if decide (var ∈ constraint) then
        '(ok, s') ← propagate_peers constraint s;
        if ok : bool then propagate_groups rest s' else Ok (false, s')
      else propagate_groups rest s
  end.
End Cascade.

Fixpoint propagate_fuel (fuel : nat) (s : store) (var : cell) (value : Z)
    : outcome (bool * store) :=
  match fuel with
  | O => OutOfFuel
  | S fuel' => propagate_groups (propagate_fuel fuel') var value constraints s
  end.

(** Every recursive call follows a removal, so [weight s] nested calls and
    one more are enough (lemma [propagate_fuel_total]). *)
Definition propagate_constraints (s : store) (var : cell) (value : Z)
    : outcome (bool * store) :=
  propagate_fuel (S (weight s)) s var value.

(** ** The cascade propagator, removal by removal

    The same function, returning also its removals: one entry for every
    [varsValues[peer].discard(value)] that the call and its nested calls
    make, in the order in which they make them. *)

Abbreviation log := (list (string * Z)) (only parsing).

(** The removals [l] were made before those of [r]. *)
Definition after_removals (l : log) (r : outcome (bool * store * log))
    : outcome (bool * store * log) :=
  '(b, s, l') ← r; Ok (b, s, l ++ l').

Section CascadeLog.
(** The recursive call. *)
Variable self : store -> cell -> Z -> outcome (bool * store * log).
Variable var : cell.
Variable value : Z.

(** [for peer in constraint] *)
Fixpoint propagate_peers_log (peers : list cell) (s : store)
    : outcome (bool * store * log) :=
  match peers with
  | [] => Ok (true, s, [])
  | peer :: rest =>
      if decide (peer = var) then propagate_peers_log rest s
      else
        X ← lookup_cell s peer;
        if decide (value ∈ X) then
          let s1 := discard s peer X value in
          let X' := X ∖ {[value]} in
          after_removals [(peer, value)]
            (if decide (size X' = 0%nat) then Ok (false, s1, [])
             else if decide (size X' = 1%nat) then
               next_value ← next_iter X';
               '(ok, s2, l) ← self s1 peer next_value;
               after_removals l
                 (if ok : bool then propagate_peers_log rest s2 else Ok (false, s2, []))
             else propagate_peers_log rest s1)
        else propagate_peers_log rest s
  end.

(** [for constraint in constraints: if var in constraint] *)
Fixpoint propagate_groups_log (cs : list (list cell)) (s : store)
    : outcome (bool * store * log) :=
  match cs with
  | [] => Ok (true, s, [])
  | constraint :: rest =>
      if decide (var ∈ constraint) then
        '(ok, s', l) ← propagate_peers_log constraint s;
        after_removals l
          (if ok : bool then propagate_groups_log rest s' else Ok (false, s', []))
      else propagate_groups_log rest s
  end.
End CascadeLog.

Fixpoint propagate_fuel_log (fuel : nat) (s : store) (var : cell) (value : Z)
    : outcome (bool * store * log) :=
  match fuel with
  | O => OutOfFuel
  | S fuel' => propagate_groups_log (propagate_fuel_log fuel') var value constraints s
  end.

Definition propagate_constraints_log (s : store) (var : cell) (value : Z)
    : outcome (bool * store * log) :=
  propagate_fuel_log (S (weight s)) s var value.

(** ** The search *)

(** [[var for var in varsValues if len(varsValues[var]) > 1]], each cell with
    its candidates. *)
Definition unassigned_vars (s : store) : list (cell * candidates) :=
  filter (fun e => (1 < size (snd e))%nat) s.

(** [min(l, key=...)] on a list that starts with [best]: the first element
    with the least key. *)
Fixpoint min_by {A : Type} (key : A -> nat) (best : A) (l : list A) : A :=
  match l with
  | [] => best
  | x :: l' => if (key x <? key best)%nat then min_by key x l' else min_by key best l'
  end.

(** The cell [look_forward] branches on; [None] when every cell has at most
    one candidate. *)
Definition choose (s : store) : option cell :=
  match unassigned_vars s with
  | [] => None
  | e :: es => Some (fst (min_by (fun e => size (snd e)) e es))
  end.

(** [{k: v.copy() for k, v in varsValues.items()}]: in this model, where a
    board is a value, the copy is the board itself; module [Heap] below
    models the objects. *)
Definition copy_store (s : store) : store := map (fun e => (fst e, snd e)) s.

(** [if result:] a dictionary is true when it has a key. *)
Definition truthy (result : option store) : bool :=
  match result with
  | Some (_ :: _) => true
  | _ => false
  end.

Section Search.
Variable self : store -> outcome (option store).
Variable s : store.
Variable chosen : cell.

(** [for value in varsValues[chosen].copy()] *)
Fixpoint try_values (values : list Z) : outcome (option store) :=
  match values with
  | [] => Ok None
  | value :: rest =>
      let new_varsValues := put (copy_store s) chosen {[value]} in
      '(ok, new_varsValues') ← propagate_constraints new_varsValues chosen value;
      if ok : bool then
        result ← self new_varsValues';
        if truthy result then Ok result else try_values rest
      else try_values rest
  end.
End Search.

Fixpoint look_forward_fuel (fuel : nat) (s : store) : outcome (option store) :=
  match fuel with
  | O => OutOfFuel
  | S fuel' =>
      match choose s with
      | None => Ok (Some s)
      | Some chosen =>
          X ← lookup_cell s chosen;
          try_values (look_forward_fuel fuel') s chosen (iter_set X)
      end
  end.

(** Every recursive call gets a board with fewer unassigned cells (lemma
    [look_forward_fuel_total]). *)
Definition look_forward (s : store) : outcome (option store) :=
  look_forward_fuel (S (length (unassigned_vars s))) s.

(** The main program: [apply_constraints], then [look_forward]. *)
Definition solve (s : store) : outcome (option store) :=
  s' ← apply_constraints s;
  look_forward s'.

(** ** Showing the board *)

(** [str(v)] for an integer: its decimal digits, with a minus sign for a
    negative one. *)
Definition py_str (v : Z) : string := NilZero.string_of_int (Z.to_int v).

Definition horizontal_border : string := "╔═══════╦═══════╦═══════╗".
Definition middle_border : string := "╠═══════╬═══════╬═══════╣".
Definition bottom_border : string := "╚═══════╩═══════╩═══════╝".
Definition row_separator : string := "║".

(** [text[lo:hi]] and [text[lo:]] for text in ASCII. *)
Definition py_slice (lo hi : nat) (text : string) : string :=
  String.substring lo (hi - lo) text.
Definition py_slice_from (lo : nat) (text : string) : string :=
  String.substring lo (String.length text - lo) text.

(** What [stylized_board] shows for a cell: its value, [!] when it has no
    candidate, [.] when it has several. *)
Definition cell_text (X : candidates) : string :=
  match iter_set X with
  | [v] => py_str v
  | [] => "!"
  | _ => "."
  end.

(** [for col in cols] *)
Fixpoint row_texts (s : store) (row : ascii) (columns : list ascii)
    : outcome (list string) :=
  match columns with
  | [] => Ok []
  | col :: rest =>
      X ← lookup_cell s (cell_name col row);
      texts ← row_texts s row rest;
      Ok (cell_text X :: texts)
  end.

(** The line printed for a row. *)
Definition row_line (s : store) (row : ascii) : outcome string :=
  texts ← row_texts s row cols;
  let row_values := String.concat " " texts in
  Ok (row_separator ++ " " ++ py_slice 0 5 row_values ++ " " ++
      row_separator ++ " " ++ py_slice 6 11 row_values ++ " " ++
      row_separator ++ " " ++ py_slice_from 12 row_values ++ " " ++
      row_separator)%string.

(** [for i, row in enumerate(rows)], from the index [i] on. *)
Fixpoint print_rows (s : store) (i : nat) (rest : list ascii) : outcome (list string) :=
  match rest with
  | [] => Ok []
  | row :: rest' =>
      line ← row_line s row;
      more ← print_rows s (S i) rest';
      Ok (line :: (if ((i =? 2) || (i =? 5))%nat then [middle_border] else []) ++ more)
  end.

(** The lines that [stylized_board] prints.  What a call has printed before
    it raises is not kept. *)
Definition stylized_board (s : store) : outcome (list string) :=
  body ← print_rows s 0 rows;
  Ok (horizontal_border :: body ++ [bottom_border]).

(** The program from the board file on: [load_board], then
    [apply_constraints], then [look_forward]. *)
Definition run (fd : file) : outcome (option store) :=
  varsValues ← load_board fd;
  solve varsValues.

(** ** Objects: who owns which set

    [look_forward] copies the dictionary and every set in it before it
    changes anything.  To say what that buys, this module keeps the
    dictionaries and the sets as objects on a heap, where two keys or two
    dictionaries could share a set. *)

Module Heap.

(** A reference to an object is its index in the heap; objects are never
    freed, and a new object goes to the end. *)
Abbreviation loc := nat (only parsing).

Inductive object : Type :=
  | SetObj (X : gset Z)
  | DictObj (entries : list (string * nat)).

Abbreviation heap := (list object) (only parsing).

Definition alloc (h : heap) (o : object) : loc * heap := (length h, h ++ [o]).

(** Using a reference as a set, or as a dictionary.  In Python a reference
    always leads to an object; one of the wrong kind raises. *)
Definition read_set (h : heap) (l : loc) : outcome candidates :=
  match h !! l with
  | Some (SetObj X) => Ok X
  | _ => Raise TypeError
  end.

Definition read_dict (h : heap) (d : loc) : outcome (list (cell * loc)) :=
  match h !! d with
  | Some (DictObj entries) => Ok entries
  | _ => Raise TypeError
  end.

Fixpoint dict_get (entries : list (cell * loc)) (k : cell) : option loc :=
  match entries with
  | [] => None
  | (k', l) :: rest => if decide (k' = k) then Some l else dict_get rest k
  end.

Fixpoint dict_put (entries : list (cell * loc)) (k : cell) (l : loc) : list (cell * loc) :=
  match entries with
  | [] => [(k, l)]
  | (k', l') :: rest =>
      if decide (k' = k) then (k', l) :: rest else (k', l') :: dict_put rest k l
  end.

(** [varsValues[k]]: the set object and what it holds. *)
Definition lookup_set (h : heap) (d : loc) (k : cell) : outcome (loc * candidates) :=
  entries ← read_dict h d;
  match dict_get entries k with
  | Some l => X ← read_set h l; Ok (l, X)
  | None => Raise (KeyError k)
  end.

(** The board a dictionary stands for. *)
Fixpoint view_entries (h : heap) (entries : list (cell * loc)) : outcome store :=
  match entries with
  | [] => Ok []
  | (k, l) :: rest =>
      X ← read_set h l;
      s ← view_entries h rest;
      Ok ((k, X) :: s)
  end.

Definition view (h : heap) (d : loc) : outcome store :=
  entries ← read_dict h d;
  view_entries h entries.

Section Cascade.
Variable self : heap -> loc -> cell -> Z -> outcome (bool * heap).
Variable varsValues : loc.
Variable var : cell.
Variable value : Z.

Fixpoint propagate_peers (peers : list cell) (h : heap) : outcome (bool * heap) :=
  match peers with
  | [] => Ok (true, h)
  | peer :: rest =>
      if decide (peer = var) then propagate_peers rest h
      else
        '(l, X) ← lookup_set h varsValues peer;
        if decide (value ∈ X) then
          let X' := X ∖ {[value]} in
          let h1 := <[l := SetObj X']> h in
          if decide (size X' = 0%nat) then Ok (false, h1)
          else if decide (size X' = 1%nat) then
            next_value ← next_iter X';
            '(ok, h2) ← self h1 varsValues peer next_value;
            if ok : bool then propagate_peers rest h2 else Ok (false, h2)
          else propagate_peers rest h1
        else propagate_peers rest h
  end.

Fixpoint propagate_groups (cs : list (list cell)) (h : heap) : outcome (bool * heap) :=
  match cs with
  | [] => Ok (true, h)
  | constraint :: rest =>
      if decide (var ∈ constraint) then
        '(ok, h') ← propagate_peers constraint h;
        if ok : bool then propagate_groups rest h' else Ok (false, h')
      else propagate_groups rest h
  end.
End Cascade.

Fixpoint propagate_fuel (fuel : nat) (h : heap) (varsValues : loc) (var : cell) (value : Z)
    : outcome (bool * heap) :=
  match fuel with
  | O => OutOfFuel
  | S fuel' => propagate_groups (propagate_fuel fuel') varsValues var value constraints h
  end.

Definition propagate_constraints (h : heap) (varsValues : loc) (var : cell) (value : Z)
    : outcome (bool * heap) :=
  s ← view h varsValues;
  propagate_fuel (S (weight s)) h varsValues var value.

(** [{k: v.copy() for k, v in varsValues.items()}]: a new set for every key. *)
Fixpoint copy_entries (h : heap) (entries : list (cell * loc))
    : outcome (list (cell * loc) * heap) :=
  match entries with
  | [] => Ok ([], h)
  | (k, l) :: rest =>
      X ← read_set h l;
      let (l', h1) := alloc h (SetObj X) in
      '(rest', h2) ← copy_entries h1 rest;
      Ok ((k, l') :: rest', h2)
  end.

(** Lines 123 to 125 of [look_forward]: the new dictionary with its own
    sets, and [chosen] bound to a new set that holds [value]. *)
Definition new_branch (h : heap) (varsValues : loc) (chosen : cell) (value : Z)
    : outcome (loc * heap) :=
  entries ← read_dict h varsValues;
  '(entries', h1) ← copy_entries h entries;
  let (new_varsValues, h2) := alloc h1 (DictObj entries') in
  let (l, h3) := alloc h2 (SetObj {[value]}) in
  Ok (new_varsValues, <[new_varsValues := DictObj (dict_put entries' chosen l)]> h3).

(** [if result:] *)
Definition truthy (h : heap) (result : option loc) : outcome bool :=
  match result with
  | None => Ok false
  | Some d =>
      entries ← read_dict h d;
      Ok (match entries with [] => false | _ :: _ => true end)
  end.

Section Search.
Variable self : heap -> loc -> outcome (option loc * heap).
Variable varsValues : loc.
Variable chosen : cell.

Fixpoint try_values (values : list Z) (h : heap) : outcome (option loc * heap) :=
  match values with
  | [] => Ok (None, h)
  | value :: rest =>
      '(new_varsValues, h1) ← new_branch h varsValues chosen value;
      '(ok, h2) ← propagate_constraints h1 new_varsValues chosen value;
      if ok : bool then
        '(result, h3) ← self h2 new_varsValues;
        t ← truthy h3 result;
        if t : bool then Ok (result, h3) else try_values rest h3
      else try_values rest h2
  end.
End Search.

(** [look_forward] returns the reference it found and leaves a heap. *)
Fixpoint look_forward_fuel (fuel : nat) (h : heap) (varsValues : loc)
    : outcome (option loc * heap) :=
  match fuel with
  | O => OutOfFuel
  | S fuel' =>
      s ← view h varsValues;
      match choose s with
      | None => Ok (Some varsValues, h)
      | Some chosen =>
          '(_, X) ← lookup_set h varsValues chosen;
          let (_, h1) := alloc h (SetObj X) in
          try_values (look_forward_fuel fuel') varsValues chosen (iter_set X) h1
      end
  end.

Definition look_forward (h : heap) (varsValues : loc) : outcome (option loc * heap) :=
  s ← view h varsValues;
  look_forward_fuel (S (length (unassigned_vars s))) h varsValues.

(** A board put on the heap: one set object for each cell, then the
    dictionary. *)
Fixpoint alloc_entries (h : heap) (s : store) : list (cell * loc) * heap :=
  match s with
  | [] => ([], h)
  | (k, X) :: rest =>
      let (l, h1) := alloc h (SetObj X) in
      let (entries, h2) := alloc_entries h1 rest in
      ((k, l) :: entries, h2)
  end.

Definition alloc_store (h : heap) (s : store) : loc * heap :=
  let (entries, h1) := alloc_entries h s in
  alloc h1 (DictObj entries).

End Heap.

(** * The vocabulary of the statements *)

(** One removal: [varsValues[key].discard(value)] where [value] was present. *)
Inductive removal : store → store → Prop :=
  | removal_intro s key X value :
      get s key = Some X → value ∈ X → removal s (discard s key X value).

(** A cascade of removals.  It ends [true] when no removal emptied a cell,
    and it ends [false] with the first removal that empties a cell. *)
Inductive cascade : store → bool → store → Prop :=
  | cascade_done s : cascade s true s
  | cascade_step s key X value b s' :
      get s key = Some X → value ∈ X → X ∖ {[value]} ≠ ∅ →
      cascade (discard s key X value) b s' → cascade s b s'
  | cascade_fail s key X value :
      get s key = Some X → value ∈ X → X ∖ {[value]} = ∅ →
      cascade s false (discard s key X value).

(** Every cell named in a group is a key of the board. *)
Definition covers (s : store) : Prop :=
  ∀ constraint c, constraint ∈ constraints → c ∈ constraint → c ∈ keys s.

(** What a stretch of [apply_constraints] does: the board is reached by
    removals, and [dirty] is set exactly when there was one. *)
Definition scanned (s : store) (dirty : bool) (s' : store) (dirty' : bool) : Prop :=
  rtc removal s s' ∧
  if dirty' then dirty = true ∨ (weight s' < weight s)%nat
  else s' = s ∧ dirty = false.

(** 1 for [true], 0 for [false]. *)
Definition indicator (b : bool) : nat := if b then 1%nat else 0%nat.

(** What a call returned, for the examples. *)
Definition board_of {A} (default : A) (r : outcome A) : A :=
  match r with Ok a => a | _ => default end.

(** The board a search returned, for the examples. *)
Definition result_of (r : outcome (option store)) : store :=
  match r with Ok (Some b) => b | _ => [] end.

(** The call returned. *)
Definition is_ok {A} (r : outcome A) : bool :=
  match r with Ok _ => true | _ => false end.

(** The call returned [True]. *)
Definition returned_true {A} (r : outcome (bool * A)) : bool :=
  match r with Ok (true, _) => true | _ => false end.

(** A board as lists, for reading. *)
Definition render (s : store) : list (cell * list Z) :=
  map (fun e => (e.1, iter_set e.2)) s.

(** Every cell of [s'] has a subset of the candidates it has in [s]. *)
Definition shrinks (s s' : store) : Prop :=
  keys s' = keys s ∧
  ∀ k X X', get s k = Some X → get s' k = Some X' → X' ⊆ X.

(** The cells row by row: A1 to I1, then A2 to I2, and so on to I9. *)
Definition row_major_cells : list cell := [
  "A1"; "B1"; "C1"; "D1"; "E1"; "F1"; "G1"; "H1"; "I1";
  "A2"; "B2"; "C2"; "D2"; "E2"; "F2"; "G2"; "H2"; "I2";
  "A3"; "B3"; "C3"; "D3"; "E3"; "F3"; "G3"; "H3"; "I3";
  "A4"; "B4"; "C4"; "D4"; "E4"; "F4"; "G4"; "H4"; "I4";
  "A5"; "B5"; "C5"; "D5"; "E5"; "F5"; "G5"; "H5"; "I5";
  "A6"; "B6"; "C6"; "D6"; "E6"; "F6"; "G6"; "H6"; "I6";
  "A7"; "B7"; "C7"; "D7"; "E7"; "F7"; "G7"; "H7"; "I7";
  "A8"; "B8"; "C8"; "D8"; "E8"; "F8"; "G8"; "H8"; "I8";
  "A9"; "B9"; "C9"; "D9"; "E9"; "F9"; "G9"; "H9"; "I9"].

(** [h'] has every object of [h], unchanged. *)
Definition preserved (h h' : list Heap.object) : Prop :=
  (length h ≤ length h')%nat ∧ ∀ l, (l < length h)%nat → h' !! l = h !! l.

(** [h'] differs from [h] at most in the sets that the dictionary at [d]
    refers to. *)
Definition only_sets_of (d : nat) (h h' : list Heap.object) : Prop :=
  length h' = length h ∧ h' !! d = h !! d ∧
  ∀ l, (∀ entries k, Heap.read_dict h d = Ok entries → Heap.dict_get entries k ≠ Some l) →
    h' !! l = h !! l.

(** The dictionary at [d] and the sets it refers to were all created when
    the heap had [n] objects already. *)
Definition fresh_dict (n : nat) (h : list Heap.object) (d : nat) : Prop :=
  (n ≤ d)%nat ∧
  ∃ entries, Heap.read_dict h d = Ok entries ∧
    ∀ k l, Heap.dict_get entries k = Some l → (n ≤ l)%nat.

(** What a call of [look_forward] leaves: the objects that were there are
    unchanged, and the result is its argument or a new object. *)
Definition isolated (h : list Heap.object) (d : nat) (r : option nat)
    (h' : list Heap.object) : Prop :=
  preserved h h' ∧ ∀ d', r = Some d' → d' = d ∨ (length h ≤ d')%nat.

(** The first [n] lines that [readline] gives. *)
Fixpoint read_lines (n : nat) (fd : file) : list string :=
  match n with
  | O => []
  | S n' => let (line, fd') := readline fd in line :: read_lines n' fd'
  end.

(** [int(line.strip())] *)
Definition parse_line (line : string) : outcome Z :=
  py_int (py_strip (list_ascii_of_string line)).

(** The numbers on the lines, or the first error. *)
Fixpoint parse_all (lines : list string) : outcome (list Z) :=
  match lines with
  | [] => Ok []
  | line :: rest =>
      v ← parse_line line;
      vs ← parse_all rest;
      Ok (v :: vs)
  end.

(** What a cell gets for the number read for it. *)
Definition cell_of_value (v : Z) : candidates :=
  if v <? 10 then {[v]} else full_set.

(** The board for the numbers read, cell by cell in the order of the keys. *)
Definition board_of_values (vs : list Z) : store :=
  zip_with (fun k v => (k, cell_of_value v)) variables vs.

(** What the claim calls a malformed value: not in 0 to 9, and not a blank,
    which the source writes as a number from 10 up. *)
Definition malformed_value (v : Z) : Prop := ¬ (0 ≤ v ≤ 9) ∧ ¬ (10 ≤ v).

(** The call raised. *)
Definition reports_error {A} (r : outcome A) : Prop := ∃ e, r = Raise e.

(** No cell that shares a group with [a] has [v] among its candidates. *)
Definition peers_lack (s : store) (a : cell) (v : Z) : Prop :=
  ∀ constraint b Y, constraint ∈ constraints → a ∈ constraint → b ∈ constraint →
    b ≠ a → get s b = Some Y → v ∉ Y.

(** The value of every assigned cell is excluded from the cells of its
    groups; so no two cells of a group are assigned the same value. *)
Definition consistent (s : store) : Prop :=
  ∀ a v, get s a = Some {[v]} → peers_lack s a v.

(** What a cascade that ended [True] has settled. *)
Definition settles (s : store) (var : cell) (value : Z) (s' : store) : Prop :=
  peers_lack s' var value ∧
  ∀ a v, get s' a = Some {[v]} →
    (get s a = Some {[v]} → peers_lack s a v) → peers_lack s' a v.

(** A result without its removals. *)
Definition without_log (r : outcome (bool * store * log)) : outcome (bool * store) :=
  '(b, s, _) ← r; Ok (b, s).

(** The board after the removal [e], and after the removals [l] in their
    order. *)
Definition remove_value (s : store) (e : string * Z) : store :=
  match get s e.1 with
  | Some X => discard s e.1 X e.2
  | None => s
  end.

Definition replay (s : store) (l : log) : store := fold_left remove_value l s.

(** [a] and [k] are different cells of one group. *)
Definition peer_cells (a k : cell) : Prop :=
  a ≠ k ∧ ∃ constraint, constraint ∈ constraints ∧ a ∈ constraint ∧ k ∈ constraint.

(** One of the removals [l], made from the board [s] on, was a removal from
    the cell [a] that left it with the value [v] alone. *)
Definition reduced_to (s : store) (l : log) (a : cell) (v : Z) : Prop :=
  ∃ pre w post, l = pre ++ (a, w) :: post ∧
    get (replay s (pre ++ [(a, w)])) a = Some {[v]}.

(** The removal of [v] from [k], made after the removals [pre], belongs to
    the cascade that assigning [value] to [var] sets off: [k] is a peer of
    [var] and [v] is [value], or [k] is a peer of a cell that an earlier
    removal left with [v] alone. *)
Definition triggered (s : store) (var : cell) (value : Z) (pre : log)
    (k : cell) (v : Z) : Prop :=
  ∃ a, peer_cells a k ∧ ((a = var ∧ v = value) ∨ reduced_to s pre a v).

(** The removals of a run, one after the other, with what causes them: a
    removal takes a value [v] that is present from a peer of a cell [a]
    where [causes a v] holds, or of a cell that an earlier removal of the
    run left with [v] alone; nothing follows a removal that empties a cell;
    and when the run ends [true], the value of every cell that a removal
    left with one value is excluded from its peers at the end. *)
Inductive cascade_log : (cell → Z → Prop) → store → log → bool → store → Prop :=
  | cascade_log_done causes s : cascade_log causes s [] true s
  | cascade_log_fail causes s k X v a :
      get s k = Some X → v ∈ X → X ∖ {[v]} = ∅ →
      peer_cells a k → causes a v →
      cascade_log causes s [(k, v)] false (discard s k X v)
  | cascade_log_step (causes : cell → Z → Prop) s k X v a l b s' :
      get s k = Some X → v ∈ X → X ∖ {[v]} ≠ ∅ →
      peer_cells a k → causes a v →
      cascade_log (fun a' v' => causes a' v' ∨ (a' = k ∧ X ∖ {[v]} = {[v']}))
        (discard s k X v) l b s' →
      (b = true → ∀ w, X ∖ {[v]} = {[w]} → peers_lack s' k w) →
      cascade_log causes s ((k, v) :: l) b s'.

(** No cell with candidates has lost them all. *)
Definition keeps_nonempty (s s' : store) : Prop :=
  ∀ k X, get s k = Some X → X ≠ ∅ → ∃ X', get s' k = Some X' ∧ X' ≠ ∅.

(** What [look_forward] has done to the board when it returns one. *)
Definition searched (s r : store) : Prop :=
  shrinks s r ∧ keeps_nonempty s r ∧ (∀ e, e ∈ r → (size e.2 ≤ 1)%nat) ∧
  (consistent s → consistent r).

(** The value of an assigned cell. *)
Definition value_of (s : store) (c : cell) : Z :=
  match get s c with
  | Some X => hd 0 (elements X)
  | None => 0
  end.

(** The dictionary at [d] stands for the board [s], and no two of its keys
    share a set. *)
Definition represents (h : list Heap.object) (d : nat) (s : store) : Prop :=
  ∃ entries, Heap.read_dict h d = Ok entries ∧ NoDup entries.*2 ∧
    Heap.view_entries h entries = Ok s.

(** The outcomes of the two models of [propagate_constraints] agree. *)
Definition agree_cascade (d : nat) (r : outcome (bool * store))
    (rh : outcome (bool * list Heap.object)) : Prop :=
  match r, rh with
  | Ok (b, s'), Ok (b', h') => b = b' ∧ represents h' d s'
  | Raise e, Raise e' => e = e'
  | OutOfFuel, OutOfFuel => True
  | _, _ => False
  end.

(** The outcomes of the two models of [look_forward] agree. *)
Definition agree_search (r : outcome (option store))
    (rh : outcome (option nat * list Heap.object)) : Prop :=
  match r, rh with
  | Ok (Some s'), Ok (Some d', h') => represents h' d' s'
  | Ok None, Ok (None, _) => True
  | Raise e, Raise e' => e = e'
  | OutOfFuel, OutOfFuel => True
  | _, _ => False
  end.

(** A value for every cell. *)
Abbreviation assignment := (string → Z) (only parsing).

(** No two cells of a group get the same value. *)
Definition valid (σ : assignment) : Prop :=
  ∀ constraint a b, constraint ∈ constraints → a ∈ constraint → b ∈ constraint →
    a ≠ b → σ a ≠ σ b.

(** The value of every cell is among its candidates. *)
Definition compatible (σ : assignment) (s : store) : Prop :=
  ∀ k X, get s k = Some X → σ k ∈ X.

(** The cells that share a group with [c]. *)
Definition peers_of (c : cell) : list cell :=
  remove_dups
    (filter (fun p => p ≠ c)
       (concat (filter (fun constraint => c ∈ constraint) constraints))).

(** The peers of [var] are keys of the board. *)
Definition peers_present (s : store) (var : cell) : Prop :=
  ∀ constraint peer, constraint ∈ constraints → var ∈ constraint →
    peer ∈ constraint → peer ≠ var → peer ∈ keys s.

(** What a scan does on a board: it returns, or it raises [KeyError] for a
    cell that is no key of the board. *)
Definition returns_or_lacks {A} (s : store) (good : Prop) (r : outcome A) : Prop :=
  match r with
  | Ok _ => good
  | Raise (KeyError k) => k ∉ keys s
  | _ => False
  end.

(** The places in [constraints] of the groups of the cell in column [i] and
    row [j]: its row, its column, its block. *)
Definition in_group (i j g : nat) : Prop :=
  g = j ∨ g = (9 + i)%nat ∨ g = (18 + 3 * (j / 3) + i / 3)%nat.

(** Some group holds both cells. *)
Definition share_group (a b : cell) : Prop :=
  ∃ constraint, constraint ∈ constraints ∧ a ∈ constraint ∧ b ∈ constraint.

(** Three cells of a row as they are shown, with a blank between them. *)
Definition shown_group (s : store) (row : ascii) (columns : list ascii) : string :=
  String.concat " "
    (map (fun col => cell_text (default ∅ (get s (cell_name col row)))) columns).

(** A row as it should look: the three blocks between the separators. *)
Definition shown_row (s : store) (row : ascii) : string :=
  (row_separator ++ " " ++ shown_group s row (list_ascii_of_string "ABC") ++ " " ++
   row_separator ++ " " ++ shown_group s row (list_ascii_of_string "DEF") ++ " " ++
   row_separator ++ " " ++ shown_group s row (list_ascii_of_string "GHI") ++ " " ++
   row_separator)%string.

(** The whole picture: nine rows, a border after every third. *)
Definition shown_board (s : store) : list string :=
  [horizontal_border;
   shown_row s "1"; shown_row s "2"; shown_row s "3"; middle_border;
   shown_row s "4"; shown_row s "5"; shown_row s "6"; middle_border;
   shown_row s "7"; shown_row s "8"; shown_row s "9"; bottom_border].

(** Every cell that holds one value holds a digit from 0 to 9. *)
Definition single_digits (s : store) : Prop :=
  ∀ k v, get s k = Some {[v]} → 0 ≤ v ≤ 9.

(** ** Example boards *)

(** The solution of the example, row by row. *)
Definition example_solved : store := board_of_values [
  4; 1; 7; 3; 6; 9; 8; 2; 5;
  6; 3; 2; 1; 5; 8; 9; 4; 7;
  9; 5; 8; 7; 2; 4; 3; 1; 6;
  8; 2; 5; 4; 3; 7; 1; 6; 9;
  7; 9; 1; 5; 8; 6; 4; 3; 2;
  3; 4; 6; 9; 1; 2; 7; 5; 8;
  2; 8; 9; 6; 4; 3; 5; 7; 1;
  5; 7; 3; 2; 9; 1; 6; 8; 4;
  1; 6; 4; 8; 7; 5; 2; 9; 3].

(** A puzzle and the boards it gives, for the examples below. *)
Definition example_file : file := [
  "4"; "10"; "10"; "10"; "10"; "10"; "8"; "10"; "5";
  "10"; "3"; "10"; "10"; "10"; "10"; "10"; "10"; "10";
  "10"; "10"; "10"; "7"; "10"; "10"; "10"; "10"; "10";
  "10"; "2"; "10"; "10"; "10"; "10"; "10"; "6"; "10";
  "10"; "10"; "10"; "10"; "8"; "10"; "4"; "10"; "10";
  "10"; "10"; "10"; "10"; "1"; "10"; "10"; "10"; "10";
  "10"; "10"; "10"; "6"; "10"; "3"; "10"; "7"; "10";
  "5"; "10"; "10"; "2"; "10"; "10"; "10"; "10"; "10";
  "1"; "10"; "4"; "10"; "10"; "10"; "10"; "10"; "10"].

Definition example_board : store := board_of [] (load_board example_file).

(** The example after [apply_constraints]. *)
Definition example_trimmed : store := board_of [] (apply_constraints example_board).

(** The board that [solve] returns for the example. *)
Definition example_result : store := result_of (solve example_board).

(** The first branch of the search on it: [chosen] is [B7], which has the
    candidates 8 and 9, tried with 8. *)
Definition example_branch : store := put (copy_store example_trimmed) "B7" {[8]}.
Definition example_branch_after : store :=
  snd (board_of (false, []) (propagate_constraints example_branch "B7" 8)).

(** The solved example with the cell [B7] left open. *)
Definition open_cell_file : file := [
  "4"; "1"; "7"; "3"; "6"; "9"; "8"; "2"; "5";
  "6"; "3"; "2"; "1"; "5"; "8"; "9"; "4"; "7";
  "9"; "5"; "8"; "7"; "2"; "4"; "3"; "1"; "6";
  "8"; "2"; "5"; "4"; "3"; "7"; "1"; "6"; "9";
  "7"; "9"; "1"; "5"; "8"; "6"; "4"; "3"; "2";
  "3"; "4"; "6"; "9"; "1"; "2"; "7"; "5"; "8";
  "2"; "10"; "9"; "6"; "4"; "3"; "5"; "7"; "1";
  "5"; "7"; "3"; "2"; "9"; "1"; "6"; "8"; "4";
  "1"; "6"; "4"; "8"; "7"; "5"; "2"; "9"; "3"].

Definition open_cell_board : store := board_of [] (load_board open_cell_file).
Definition open_cell_heap : list Heap.object := (Heap.alloc_store [] open_cell_board).2.
Definition open_cell_dict : nat := (Heap.alloc_store [] open_cell_board).1.
Definition open_cell_result : option nat * list Heap.object :=
  board_of (None, []) (Heap.look_forward open_cell_heap open_cell_dict).

(** A board file whose first line is [-1]. *)
Definition negative_file : file := [
  "-1"; "10"; "10"; "10"; "10"; "10"; "10"; "10"; "10";
  "10"; "10"; "10"; "10"; "10"; "10"; "10"; "10"; "10";
  "10"; "10"; "10"; "10"; "10"; "10"; "10"; "10"; "10";
  "10"; "10"; "10"; "10"; "10"; "10"; "10"; "10"; "10";
  "10"; "10"; "10"; "10"; "10"; "10"; "10"; "10"; "10";
  "10"; "10"; "10"; "10"; "10"; "10"; "10"; "10"; "10";
  "10"; "10"; "10"; "10"; "10"; "10"; "10"; "10"; "10";
  "10"; "10"; "10"; "10"; "10"; "10"; "10"; "10"; "10";
  "10"; "10"; "10"; "10"; "10"; "10"; "10"; "10"; "10"].

(** A solved grid in which [B1] was overwritten with the 5 of [A1]. *)
Definition over_constrained_file : file := [
  "5"; "5"; "4"; "6"; "7"; "8"; "9"; "1"; "2";
  "6"; "7"; "2"; "1"; "9"; "5"; "3"; "4"; "8";
  "1"; "9"; "8"; "3"; "4"; "2"; "5"; "6"; "7";
  "8"; "5"; "9"; "7"; "6"; "1"; "4"; "2"; "3";
  "4"; "2"; "6"; "8"; "5"; "3"; "7"; "9"; "1";
  "7"; "1"; "3"; "9"; "2"; "4"; "8"; "5"; "6";
  "9"; "6"; "1"; "5"; "3"; "7"; "2"; "8"; "4";
  "2"; "8"; "7"; "4"; "1"; "9"; "6"; "3"; "5";
  "3"; "4"; "5"; "2"; "8"; "6"; "1"; "7"; "9"].

Definition over_constrained_board : store :=
  board_of [] (load_board over_constrained_file).

(** The board that comes back: [B1] has no candidate, every other cell has
    the value of the file. *)
Definition over_constrained_result : list (cell * list Z) := [
  ("A1", [5]); ("B1", []); ("C1", [4]); ("D1", [6]); ("E1", [7]);
  ("F1", [8]); ("G1", [9]); ("H1", [1]); ("I1", [2]);
  ("A2", [6]); ("B2", [7]); ("C2", [2]); ("D2", [1]); ("E2", [9]);
  ("F2", [5]); ("G2", [3]); ("H2", [4]); ("I2", [8]);
  ("A3", [1]); ("B3", [9]); ("C3", [8]); ("D3", [3]); ("E3", [4]);
  ("F3", [2]); ("G3", [5]); ("H3", [6]); ("I3", [7]);
  ("A4", [8]); ("B4", [5]); ("C4", [9]); ("D4", [7]); ("E4", [6]);
  ("F4", [1]); ("G4", [4]); ("H4", [2]); ("I4", [3]);
  ("A5", [4]); ("B5", [2]); ("C5", [6]); ("D5", [8]); ("E5", [5]);
  ("F5", [3]); ("G5", [7]); ("H5", [9]); ("I5", [1]);
  ("A6", [7]); ("B6", [1]); ("C6", [3]); ("D6", [9]); ("E6", [2]);
  ("F6", [4]); ("G6", [8]); ("H6", [5]); ("I6", [6]);
  ("A7", [9]); ("B7", [6]); ("C7", [1]); ("D7", [5]); ("E7", [3]);
  ("F7", [7]); ("G7", [2]); ("H7", [8]); ("I7", [4]);
  ("A8", [2]); ("B8", [8]); ("C8", [7]); ("D8", [4]); ("E8", [1]);
  ("F8", [9]); ("G8", [6]); ("H8", [3]); ("I8", [5]);
  ("A9", [3]); ("B9", [4]); ("C9", [5]); ("D9", [2]); ("E9", [8]);
  ("F9", [6]); ("G9", [1]); ("H9", [7]); ("I9", [9])].

Definition first_row : list cell :=
  ["A1"; "B1"; "C1"; "D1"; "E1"; "F1"; "G1"; "H1"; "I1"].

(** * Properties *)

(** ** The board as a dictionary *)

Lemma get_put_eq (s : store) k X : get (put s k X) k = Some X.
Proof.
  induction s as [|[k' X'] s IH]; simpl.
  - by rewrite decide_True.
  - destruct (decide (k' = k)) as [->|Hne]; simpl.
    + by rewrite decide_True.
    + by rewrite decide_False.
Qed.

Lemma get_put_ne (s : store) k k' X : k ≠ k' → get (put s k X) k' = get s k'.
Proof.
  intros Hne. induction s as [|[k0 X0] s IH]; simpl.
  - by rewrite decide_False.
  - destruct (decide (k0 = k)) as [->|Hne0]; simpl.
    + by rewrite !decide_False.
    + destruct (decide (k0 = k')); auto.
Qed.

Lemma get_Some_keys (s : store) k X : get s k = Some X → k ∈ keys s.
Proof.
  induction s as [|[k' X'] s IH]; simpl; [done|].
  destruct (decide (k' = k)) as [->|Hne]; intros H.
  - apply list_elem_of_here.
  - apply list_elem_of_further. auto.
Qed.

Lemma keys_get_Some (s : store) k : k ∈ keys s → is_Some (get s k).
Proof.
  induction s as [|[k' X'] s IH]; simpl.
  - intros H. by apply elem_of_nil in H.
  - intros H. destruct (decide (k' = k)) as [->|Hne]; [eauto|].
    apply elem_of_cons in H as [H|H]; [congruence|auto].
Qed.

Lemma keys_put (s : store) k X X0 : get s k = Some X0 → keys (put s k X) = keys s.
Proof.
  induction s as [|[k' X'] s IH]; simpl; [done|].
  destruct (decide (k' = k)) as [->|Hne]; simpl; [done|].
  intros H. f_equal. auto.
Qed.

Lemma weight_put (s : store) k X X0 :
  get s k = Some X0 →
  (weight (put s k X) + size X0 = weight s + size X)%nat.
Proof.
  unfold weight. induction s as [|[k' X'] s IH]; simpl; [done|].
  destruct (decide (k' = k)) as [->|Hne]; simpl.
  - intros [= ->]. lia.
  - intros H. specialize (IH H). lia.
Qed.

Lemma size_discard (X : candidates) v : v ∈ X → size X = S (size (X ∖ {[v]})).
Proof.
  intros Hv. rewrite size_difference by set_solver.
  rewrite size_singleton.
  assert (size X ≠ 0%nat) by (intros H0; apply size_empty_inv in H0; set_solver).
  lia.
Qed.

Lemma copy_store_id (s : store) : copy_store s = s.
Proof.
  unfold copy_store. induction s as [|[k X] s IH]; simpl; [done|]. by rewrite IH.
Qed.

Lemma bind_Ok {A B} (m : outcome A) (f : A → outcome B) b :
  m ≫= f = Ok b → ∃ a, m = Ok a ∧ f a = Ok b.
Proof. destruct m; simpl; [eauto|done..]. Qed.

Lemma bind_Ok_l {A B} (a : A) (f : A → outcome B) : Ok a ≫= f = f a.
Proof. reflexivity. Qed.

Lemma lookup_cell_Ok s k X : lookup_cell s k = Ok X ↔ get s k = Some X.
Proof. unfold lookup_cell. destruct (get s k); split; congruence. Qed.

Lemma size_0_empty (X : candidates) : size X = 0%nat ↔ X = ∅.
Proof. rewrite size_empty_iff. apply leibniz_equiv_iff. Qed.

(** Take the next statement of a run that returned. *)
Ltac step_bind H :=
  let a := fresh "a" in
  let Ha := fresh "Ha" in
  apply bind_Ok in H as (a & Ha & H).

Lemma cascade_trans s s1 b s2 :
  cascade s true s1 → cascade s1 b s2 → cascade s b s2.
Proof.
  intros H. remember true as t eqn:Ht. revert Ht.
  induction H as [s0|s0 key X v b0 s0' Hget Hin Hne Hc IH|]; intros Ht Hrest;
    [done| |done].
  eapply cascade_step; eauto.
Qed.

Section CascadeRuns.
Variable self : store → cell → Z → outcome (bool * store).
Hypothesis self_cascade : ∀ s var value b s',
  self s var value = Ok (b, s') → cascade s b s'.
Variable var : cell.
Variable value : Z.

Lemma propagate_peers_cascade peers : ∀ s b s',
  propagate_peers self var value peers s = Ok (b, s') → cascade s b s'.
Proof.
  induction peers as [|peer rest IH]; intros s b s' H; simpl in H.
  { injection H as <- <-. constructor. }
  destruct (decide (peer = var)) as [_|Hne]; [eauto|].
  step_bind H. apply lookup_cell_Ok in Ha. rename a into X.
  destruct (decide (value ∈ X)) as [Hin|_]; [|eauto].
  destruct (decide (size (X ∖ {[value]}) = 0%nat)) as [H0|H0].
  { injection H as <- <-. apply size_0_empty in H0. by eapply cascade_fail. }
  rewrite size_0_empty in H0.
  destruct (decide (size (X ∖ {[value]}) = 1%nat)) as [H1|H1].
  - step_bind H. step_bind H. destruct a0 as [ok s2].
    apply self_cascade in Ha1.
    eapply cascade_step; eauto.
    destruct ok.
    + eapply cascade_trans; eauto.
    + by injection H as <- <-.
  - eapply cascade_step; eauto.
Qed.

Lemma propagate_groups_cascade cs : ∀ s b s',
  propagate_groups self var value cs s = Ok (b, s') → cascade s b s'.
Proof.
  induction cs as [|constraint rest IH]; intros s b s' H; simpl in H.
  { injection H as <- <-. constructor. }
  destruct (decide (var ∈ constraint)) as [_|_]; [|eauto].
  step_bind H. destruct a as [ok s1].
  apply propagate_peers_cascade in Ha.
  destruct ok.
  - eapply cascade_trans; eauto.
  - by injection H as <- <-.
Qed.
End CascadeRuns.

Lemma propagate_fuel_S fuel s var value :
  propagate_fuel (S fuel) s var value
  = propagate_groups (propagate_fuel fuel) var value constraints s.
Proof. reflexivity. Qed.

Lemma propagate_fuel_cascade fuel : ∀ s var value b s',
  propagate_fuel fuel s var value = Ok (b, s') → cascade s b s'.
Proof.
  induction fuel as [|fuel IH]; intros s var value b s' H; [done|].
  rewrite propagate_fuel_S in H.
  eapply propagate_groups_cascade; eauto.
Qed.

(** ** What a cascade does to the board *)

Lemma get_discard_eq s key X value :
  get (discard s key X value) key = Some (X ∖ {[value]}).
Proof. apply get_put_eq. Qed.

Lemma get_discard_ne s key X value k :
  key ≠ k → get (discard s key X value) k = get s k.
Proof. apply get_put_ne. Qed.

Lemma keys_discard s key X value :
  get s key = Some X → keys (discard s key X value) = keys s.
Proof. apply keys_put. Qed.

Lemma weight_discard s key X value :
  get s key = Some X → value ∈ X → weight s = S (weight (discard s key X value)).
Proof.
  intros Hget Hin. unfold discard.
  pose proof (weight_put s key (X ∖ {[value]}) X Hget) as Hw.
  rewrite (size_discard X value Hin) in Hw. lia.
Qed.

Lemma get_discard_subseteq s key X value k Y' :
  get s key = Some X → get (discard s key X value) k = Some Y' →
  ∃ Y, get s k = Some Y ∧ Y' ⊆ Y.
Proof.
  intros Hget H. destruct (decide (key = k)) as [<-|Hne].
  - rewrite get_discard_eq in H. exists X. split; [done|].
    assert (Y' = X ∖ {[value]}) as -> by congruence.
    by apply subseteq_difference_l.
  - rewrite get_discard_ne in H by done. eauto.
Qed.

Lemma cascade_keys s b s' : cascade s b s' → keys s' = keys s.
Proof.
  induction 1 as [s|s key X v b s' Hget Hin Hne Hc IH|s key X v Hget Hin He].
  - done.
  - rewrite IH. by eapply keys_discard.
  - by eapply keys_discard.
Qed.

Lemma cascade_subseteq s b s' :
  cascade s b s' → ∀ k X', get s' k = Some X' → ∃ X, get s k = Some X ∧ X' ⊆ X.
Proof.
  induction 1 as [s|s key X v b s' Hget Hin Hne Hc IH|s key X v Hget Hin He];
    intros k X' Hk.
  - eauto.
  - destruct (IH _ _ Hk) as (Y & HY & Hsub).
    destruct (get_discard_subseteq _ _ _ _ _ _ Hget HY) as (Y0 & HY0 & Hsub0).
    exists Y0. split; [done|set_solver].
  - by eapply get_discard_subseteq.
Qed.

Lemma cascade_weight s b s' : cascade s b s' → (weight s' ≤ weight s)%nat.
Proof.
  induction 1 as [s|s key X v b s' Hget Hin Hne Hc IH|s key X v Hget Hin He].
  - done.
  - rewrite (weight_discard s key X v) by done. lia.
  - rewrite (weight_discard s key X v) by done. lia.
Qed.

(** A cascade that ends [true] has emptied no cell. *)
Lemma cascade_true_nonempty s s' :
  cascade s true s' →
  ∀ k X, get s k = Some X → X ≠ ∅ → ∃ X', get s' k = Some X' ∧ X' ≠ ∅.
Proof.
  intros H. remember true as t eqn:Ht. revert Ht.
  induction H as [s|s key X v b s' Hget Hin Hne Hc IH|s key X v Hget Hin He];
    intros Ht k Y Hk HY; [eauto| |done].
  apply (IH Ht k (if decide (key = k) then X ∖ {[v]} else Y)).
  - destruct (decide (key = k)) as [<-|Hk'].
    + apply get_discard_eq.
    + by rewrite get_discard_ne.
  - destruct (decide (key = k)) as [<-|Hk']; done.
Qed.

(** A cascade that ends [false] has emptied a cell with its last removal,
    and that is the only cell it emptied. *)
Lemma cascade_false_emptied s s' :
  cascade s false s' →
  ∃ k X, get s k = Some X ∧ X ≠ ∅ ∧ get s' k = Some ∅ ∧
    ∀ k' X', get s k' = Some X' → X' ≠ ∅ → get s' k' = Some ∅ → k' = k.
Proof.
  intros H. remember false as t eqn:Ht. revert Ht.
  induction H as [s|s key X v b s' Hget Hin Hne Hc IH|s key X v Hget Hin He];
    intros Ht; [done| |].
  - destruct (IH Ht) as (k & Y & Hk & HY & Hk' & Huniq).
    destruct (get_discard_subseteq _ _ _ _ _ _ Hget Hk) as (Y0 & HY0 & Hsub).
    exists k, Y0. split_and!; [done|set_solver|done|].
    intros k' X' Hget' HX' Hempty. apply (Huniq k' (if decide (key = k') then X ∖ {[v]} else X')); [| |done].
    + destruct (decide (key = k')) as [<-|?]; [apply get_discard_eq|by rewrite get_discard_ne].
    + destruct (decide (key = k')) as [<-|?]; done.
  - exists key, X. split_and!; [done|set_solver| |].
    + rewrite get_discard_eq. by rewrite He.
    + intros k' X' Hget' HX' Hempty. destruct (decide (key = k')) as [|Hne]; [done|].
      rewrite get_discard_ne in Hempty by done. congruence.
Qed.

(** ** The cascade propagator returns *)

Lemma constraints_in_variables :
  Forall (fun constraint => Forall (fun c => c ∈ variables) constraint) constraints.
Proof. apply (bool_decide_unpack _); vm_compute; exact I. Qed.

Lemma well_formed_covers s : well_formed s → covers s.
Proof.
  intros Hwf constraint c Hg Hc. rewrite Hwf.
  pose proof constraints_in_variables as H.
  rewrite Forall_forall in H. specialize (H _ Hg).
  rewrite Forall_forall in H. auto.
Qed.

Lemma cascade_covers s b s' : cascade s b s' → covers s → covers s'.
Proof.
  intros Hc Hcov constraint c Hg Hin. rewrite (cascade_keys _ _ _ Hc). eauto.
Qed.

Lemma cascade_well_formed s b s' : cascade s b s' → well_formed s → well_formed s'.
Proof. unfold well_formed. intros Hc Hwf. by rewrite (cascade_keys _ _ _ Hc). Qed.

Lemma next_iter_singleton (X : candidates) :
  size X = 1%nat → ∃ v, next_iter X = Ok v ∧ X = {[v]}.
Proof.
  intros H. apply size_1_elem_of in H as [v Hv]. apply leibniz_equiv in Hv. subst X.
  exists v. unfold next_iter. by rewrite elements_singleton.
Qed.

Section CascadeReturns.
Variable self : store → cell → Z → outcome (bool * store).
Variable fuel : nat.
Hypothesis self_cascade : ∀ s var value b s',
  self s var value = Ok (b, s') → cascade s b s'.
Hypothesis self_total : ∀ s var value,
  (∀ c, c ∈ keys s → True) → covers s → (weight s < fuel)%nat →
  ∃ r, self s var value = Ok r.
Variable var : cell.
Variable value : Z.

Lemma propagate_peers_total peers : ∀ s,
  (∀ c, c ∈ peers → c ∈ keys s) → covers s → (weight s ≤ fuel)%nat →
  ∃ r, propagate_peers self var value peers s = Ok r.
Proof.
  induction peers as [|peer rest IH]; intros s Hpeers Hcov Hw; simpl; [eauto|].
  assert (∀ c, c ∈ rest → c ∈ keys s) as Hrest
    by (intros c Hc; apply Hpeers; by apply list_elem_of_further).
  destruct (decide (peer = var)) as [_|Hne]; [eauto|].
  destruct (keys_get_Some s peer) as [X HX]; [apply Hpeers; apply list_elem_of_here|].
  unfold lookup_cell at 1. rewrite HX. simpl.
  destruct (decide (value ∈ X)) as [Hin|_]; [|eauto].
  pose proof (weight_discard s peer X value HX Hin) as Hw1.
  pose proof (keys_discard s peer X value HX) as Hk1.
  assert (covers (discard s peer X value)) as Hcov1
    by (intros g c Hg Hc; rewrite Hk1; eauto).
  destruct (decide (size (X ∖ {[value]}) = 0%nat)) as [H0|H0]; [eauto|].
  destruct (decide (size (X ∖ {[value]}) = 1%nat)) as [H1|H1].
  - destruct (next_iter_singleton _ H1) as (v & -> & _). simpl.
    destruct (self_total (discard s peer X value) peer v) as [[ok s2] Hs2];
      [done|done|lia|].
    rewrite Hs2. simpl. destruct ok; [|eauto].
    pose proof (self_cascade _ _ _ _ _ Hs2) as Hc.
    apply IH.
    + intros c Hc'. rewrite (cascade_keys _ _ _ Hc), Hk1. auto.
    + by eapply cascade_covers.
    + pose proof (cascade_weight _ _ _ Hc). lia.
  - apply IH; [|done|lia]. intros c Hc. rewrite Hk1. auto.
Qed.

Lemma propagate_groups_total cs : ∀ s,
  (∀ constraint, constraint ∈ cs → constraint ∈ constraints) →
  covers s → (weight s ≤ fuel)%nat →
  ∃ r, propagate_groups self var value cs s = Ok r.
Proof.
  induction cs as [|constraint rest IH]; intros s Hcs Hcov Hw; simpl; [eauto|].
  assert (∀ g, g ∈ rest → g ∈ constraints) as Hrest
    by (intros g Hg; apply Hcs; by apply list_elem_of_further).
  destruct (decide (var ∈ constraint)) as [_|_]; [|eauto].
  destruct (propagate_peers_total constraint s) as [[ok s1] Hs1]; [|done|done|].
  { intros c Hc. eapply Hcov; [|done]. apply Hcs, list_elem_of_here. }
  rewrite Hs1. simpl. destruct ok; [|eauto].
  pose proof (propagate_peers_cascade self self_cascade var value _ _ _ _ Hs1) as Hc.
  apply IH; [done|by eapply cascade_covers|].
  pose proof (cascade_weight _ _ _ Hc). lia.
Qed.
End CascadeReturns.

Lemma propagate_fuel_total fuel : ∀ s var value,
  covers s → (weight s < fuel)%nat → ∃ r, propagate_fuel fuel s var value = Ok r.
Proof.
  induction fuel as [|fuel IH]; intros s var value Hcov Hw; [lia|].
  rewrite propagate_fuel_S.
  apply (propagate_groups_total (propagate_fuel fuel) fuel); auto.
  - apply propagate_fuel_cascade.
  - lia.
Qed.

Lemma propagate_constraints_total s var value :
  well_formed s → ∃ b s', propagate_constraints s var value = Ok (b, s').
Proof.
  intros Hwf. unfold propagate_constraints.
  destruct (propagate_fuel_total (S (weight s)) s var value) as [[b s'] H];
    [by apply well_formed_covers|lia|].
  exists b, s'. exact H.
Qed.

(** ** The fixpoint propagator *)

Lemma removal_weight s s' : removal s s' → weight s = S (weight s').
Proof. intros [s0 key X v Hget Hin]. by apply weight_discard. Qed.

Lemma removals_weight s s' : rtc removal s s' → (weight s' ≤ weight s)%nat.
Proof.
  induction 1 as [|s s1 s2 H1 _ IH]; [done|]. apply removal_weight in H1. lia.
Qed.

Lemma removals_keys s s' : rtc removal s s' → keys s' = keys s.
Proof.
  induction 1 as [|s s1 s2 H1 _ IH]; [done|]. rewrite IH.
  destruct H1 as [s0 key X v Hget Hin]. by eapply keys_discard.
Qed.

Lemma removals_subseteq s s' :
  rtc removal s s' → ∀ k X', get s' k = Some X' → ∃ X, get s k = Some X ∧ X' ⊆ X.
Proof.
  induction 1 as [|s s1 s2 H1 _ IH]; intros k X' Hk; [eauto|].
  destruct (IH _ _ Hk) as (Y & HY & Hsub).
  destruct H1 as [s0 key X v Hget Hin].
  destruct (get_discard_subseteq _ _ _ _ _ _ Hget HY) as (Y0 & HY0 & Hsub0).
  exists Y0. split; [done|set_solver].
Qed.

Lemma cascade_removals s b s' : cascade s b s' → rtc removal s s'.
Proof.
  induction 1 as [s|s key X v b s' Hget Hin Hne Hc IH|s key X v Hget Hin He].
  - done.
  - eapply rtc_l; [by constructor|done].
  - apply rtc_once. by constructor.
Qed.

Lemma scanned_refl s dirty : scanned s dirty s dirty.
Proof. split; [done|]. destruct dirty; auto. Qed.

Lemma scanned_trans s d s1 d1 s2 d2 :
  scanned s d s1 d1 → scanned s1 d1 s2 d2 → scanned s d s2 d2.
Proof.
  intros [Hr1 H1] [Hr2 H2]. split; [by etrans|].
  destruct d2.
  - destruct H2 as [->|H2].
    + destruct H1 as [->|H1]; [by left|right].
      pose proof (removals_weight _ _ Hr2). lia.
    + right. pose proof (removals_weight _ _ Hr1). lia.
  - destruct H2 as [-> ->]. done.
Qed.

Lemma scanned_discard s dirty key X value :
  get s key = Some X → value ∈ X → scanned s dirty (discard s key X value) true.
Proof.
  intros Hget Hin. split.
  - apply rtc_once. by constructor.
  - right. rewrite (weight_discard s key X value) by done. lia.
Qed.

Lemma remove_from_peers_scanned cellId v peers : ∀ s dirty s' dirty',
  remove_from_peers cellId v peers s dirty = Ok (s', dirty') → scanned s dirty s' dirty'.
Proof.
  induction peers as [|key rest IH]; intros s dirty s' dirty' H; simpl in H.
  { injection H as <- <-. apply scanned_refl. }
  destruct (decide (key = cellId)) as [_|Hne]; [eauto|].
  step_bind H. apply lookup_cell_Ok in Ha. rename a into X.
  destruct (decide (v ∈ X)) as [Hin|_]; [|eauto].
  eapply scanned_trans; [by apply scanned_discard|eauto].
Qed.

Lemma scan_cells_scanned constraint cells : ∀ s dirty s' dirty',
  scan_cells constraint cells s dirty = Ok (s', dirty') → scanned s dirty s' dirty'.
Proof.
  induction cells as [|cellId rest IH]; intros s dirty s' dirty' H; simpl in H.
  { injection H as <- <-. apply scanned_refl. }
  step_bind H. rename a into X.
  destruct (decide (size X = 1%nat)) as [H1|_]; [|eauto].
  step_bind H. step_bind H. destruct a0 as [s1 d1].
  apply remove_from_peers_scanned in Ha1.
  eapply scanned_trans; eauto.
Qed.

Lemma scan_constraints_scanned cs : ∀ s dirty s' dirty',
  scan_constraints cs s dirty = Ok (s', dirty') → scanned s dirty s' dirty'.
Proof.
  induction cs as [|constraint rest IH]; intros s dirty s' dirty' H; simpl in H.
  { injection H as <- <-. apply scanned_refl. }
  step_bind H. destruct a as [s1 d1].
  apply scan_cells_scanned in Ha.
  eapply scanned_trans; eauto.
Qed.

Lemma pass_scanned s s' dirty : pass s = Ok (s', dirty) → scanned s false s' dirty.
Proof. apply scan_constraints_scanned. Qed.

(** A turn that leaves [dirty] unset has removed nothing. *)
Lemma pass_clean s s' : pass s = Ok (s', false) → s' = s.
Proof. intros H. apply pass_scanned in H as [_ [-> _]]. done. Qed.

Lemma apply_loop_S fuel s :
  apply_loop (S fuel) s
  = '(s', dirty) ← pass s; if dirty : bool then apply_loop fuel s' else Ok s'.
Proof. reflexivity. Qed.

(** The board that [apply_constraints] returns is reached by removals, and
    a further turn of the loop removes nothing from it. *)
Lemma apply_loop_fixpoint fuel : ∀ s r,
  apply_loop fuel s = Ok r → rtc removal s r ∧ pass r = Ok (r, false).
Proof.
  induction fuel as [|fuel IH]; intros s r H; [done|].
  rewrite apply_loop_S in H. step_bind H. destruct a as [s1 dirty].
  pose proof (pass_scanned _ _ _ Ha) as [Hr Hd].
  destruct dirty.
  - destruct (IH _ _ H) as [Hr' Hfix]. split; [by etrans|done].
  - injection H as <-. destruct Hd as [-> _]. done.
Qed.

Lemma remove_from_peers_total cellId v peers : ∀ s dirty,
  (∀ c, c ∈ peers → c ∈ keys s) →
  ∃ r, remove_from_peers cellId v peers s dirty = Ok r.
Proof.
  induction peers as [|key rest IH]; intros s dirty Hpeers; simpl; [eauto|].
  assert (∀ c, c ∈ rest → c ∈ keys s) as Hrest
    by (intros c Hc; apply Hpeers; by apply list_elem_of_further).
  destruct (decide (key = cellId)) as [_|Hne]; [eauto|].
  destruct (keys_get_Some s key) as [X HX]; [apply Hpeers; apply list_elem_of_here|].
  unfold lookup_cell at 1. rewrite HX. simpl.
  destruct (decide (v ∈ X)) as [Hin|_]; [|eauto].
  apply IH. intros c Hc. rewrite (keys_discard s key X v HX). auto.
Qed.

Lemma scan_cells_total constraint cells : ∀ s dirty,
  (∀ c, c ∈ constraint → c ∈ keys s) → (∀ c, c ∈ cells → c ∈ keys s) →
  ∃ r, scan_cells constraint cells s dirty = Ok r.
Proof.
  induction cells as [|cellId rest IH]; intros s dirty Hg Hcells; simpl; [eauto|].
  assert (∀ c, c ∈ rest → c ∈ keys s) as Hrest
    by (intros c Hc; apply Hcells; by apply list_elem_of_further).
  destruct (keys_get_Some s cellId) as [X HX]; [apply Hcells; apply list_elem_of_here|].
  unfold lookup_cell at 1. rewrite HX. simpl.
  destruct (decide (size X = 1%nat)) as [H1|_]; [|eauto].
  destruct (next_iter_singleton _ H1) as (v & -> & _). simpl.
  destruct (remove_from_peers_total cellId v constraint s dirty Hg) as [[s1 d1] Hs1].
  rewrite Hs1. simpl.
  apply remove_from_peers_scanned in Hs1 as [Hr _].
  apply IH; intros c Hc; rewrite (removals_keys _ _ Hr); auto.
Qed.

Lemma scan_constraints_total cs : ∀ s dirty,
  (∀ constraint, constraint ∈ cs → constraint ∈ constraints) → covers s →
  ∃ r, scan_constraints cs s dirty = Ok r.
Proof.
  induction cs as [|constraint rest IH]; intros s dirty Hcs Hcov; simpl; [eauto|].
  assert (∀ g, g ∈ rest → g ∈ constraints) as Hrest
    by (intros g Hg; apply Hcs; by apply list_elem_of_further).
  assert (∀ c, c ∈ constraint → c ∈ keys s) as Hg
    by (intros c Hc; eapply Hcov; [|done]; apply Hcs, list_elem_of_here).
  destruct (scan_cells_total constraint constraint s dirty Hg Hg) as [[s1 d1] Hs1].
  rewrite Hs1. simpl.
  apply scan_cells_scanned in Hs1 as [Hr _].
  apply IH; [done|]. intros g c Hg' Hc. rewrite (removals_keys _ _ Hr). eauto.
Qed.

Lemma pass_total s : covers s → ∃ s' dirty, pass s = Ok (s', dirty).
Proof.
  intros Hcov. destruct (scan_constraints_total constraints s false) as [[s' d] H]; eauto.
Qed.

Lemma apply_loop_total fuel : ∀ s,
  covers s → (weight s < fuel)%nat → ∃ r, apply_loop fuel s = Ok r.
Proof.
  induction fuel as [|fuel IH]; intros s Hcov Hw; [lia|].
  rewrite apply_loop_S.
  destruct (pass_total s Hcov) as (s1 & dirty & Hpass). rewrite Hpass. simpl.
  destruct dirty; [|eauto].
  apply pass_scanned in Hpass as [Hr [Hd|Hd]]; [done|].
  apply IH; [|lia].
  intros g c Hg Hc. rewrite (removals_keys _ _ Hr). eauto.
Qed.

Lemma apply_constraints_total s : well_formed s → ∃ r, apply_constraints s = Ok r.
Proof.
  intros Hwf. unfold apply_constraints.
  apply apply_loop_total; [by apply well_formed_covers|lia].
Qed.

Lemma apply_constraints_removals s r : apply_constraints s = Ok r → rtc removal s r.
Proof. intros H. by apply apply_loop_fixpoint in H as [H _]. Qed.

Lemma apply_constraints_fixpoint s r :
  apply_constraints s = Ok r → pass r = Ok (r, false).
Proof. intros H. by apply apply_loop_fixpoint in H as [_ H]. Qed.

Lemma apply_constraints_at_fixpoint r : pass r = Ok (r, false) → apply_constraints r = Ok r.
Proof. intros H. unfold apply_constraints. rewrite apply_loop_S, H. done. Qed.

(** ** Choosing the cell to branch on *)

Lemma min_by_first {A} (key : A → nat) (l : list A) : ∀ best,
  ∃ pre post, best :: l = pre ++ min_by key best l :: post ∧
    (∀ x, x ∈ pre → (key (min_by key best l) < key x)%nat) ∧
    (∀ x, x ∈ post → (key (min_by key best l) ≤ key x)%nat).
Proof.
  induction l as [|x l IH]; intros best; simpl.
  { exists [], []. split_and!; [done|..]; intros x Hx; by apply elem_of_nil in Hx. }
  destruct (Nat.ltb_spec (key x) (key best)) as [Hlt|Hge].
  - destruct (IH x) as (pre & post & Heq & Hpre & Hpost).
    exists (best :: pre), post. split_and!; [by rewrite Heq| |done].
    intros y [->|Hy]%elem_of_cons; [|auto].
    assert (key (min_by key x l) ≤ key x)%nat; [|lia].
    destruct pre as [|p pre]; simpl in Heq.
    + injection Heq as Hx _. by rewrite <- Hx.
    + injection Heq as Hx _. apply Nat.lt_le_incl, Hpre. rewrite Hx. apply list_elem_of_here.
  - destruct (IH best) as (pre & post & Heq & Hpre & Hpost).
    destruct pre as [|p pre]; simpl in Heq.
    + injection Heq as Hbest Hl. exists [], (x :: post). split_and!.
      * simpl. by rewrite <- Hbest, Hl.
      * intros y Hy; by apply elem_of_nil in Hy.
      * intros y [->|Hy]%elem_of_cons; [|auto]. rewrite <- Hbest. done.
    + injection Heq as Hp Hl. exists (best :: x :: pre), post. split_and!.
      * simpl. by rewrite <- Hl.
      * assert (key (min_by key best l) < key best)%nat as Hb
          by (apply Hpre; rewrite Hp; apply list_elem_of_here).
        intros y [->|[->|Hy]%elem_of_cons]%elem_of_cons; [done|lia|].
        apply Hpre. by apply list_elem_of_further.
      * done.
Qed.

Lemma filter_split {A} (P : A → Prop) `{Hdec : !∀ x, Decision (P x)} (l : list A) :
  ∀ pre' m post', filter P l = pre' ++ m :: post' →
  ∃ pre post, l = pre ++ m :: post ∧ filter P pre = pre' ∧ filter P post = post' ∧ P m.
Proof.
  induction l as [|x l IH]; intros pre' m post' Heq.
  { rewrite filter_nil in Heq. by destruct pre'. }
  rewrite filter_cons in Heq. destruct (decide (P x)) as [HP|HP].
  - destruct pre' as [|p pre']; simpl in Heq.
    + injection Heq as -> Hl. exists [], l. by rewrite filter_nil.
    + injection Heq as -> Hl.
      destruct (IH _ _ _ Hl) as (pre & post & -> & Hpre & Hpost & Hm).
      exists (p :: pre), post. rewrite filter_cons_True by done. by rewrite Hpre.
  - destruct (IH _ _ _ Heq) as (pre & post & -> & Hpre & Hpost & Hm).
    exists (x :: pre), post. by rewrite filter_cons_False.
Qed.

(** [choose] returns the first cell, in the order of the keys, among those
    with the fewest candidates above one. *)
Lemma choose_Some s c :
  choose s = Some c →
  ∃ X pre post, s = pre ++ (c, X) :: post ∧ (1 < size X)%nat ∧
    (∀ e, e ∈ pre → (1 < size e.2)%nat → (size X < size e.2)%nat) ∧
    (∀ e, e ∈ post → (1 < size e.2)%nat → (size X ≤ size e.2)%nat).
Proof.
  unfold choose. destruct (unassigned_vars s) as [|e es] eqn:Hun; [done|].
  intros [= <-].
  destruct (min_by_first (fun e => size e.2) es e) as (pre' & post' & Heq & Hpre & Hpost).
  rewrite <- Hun in Heq. unfold unassigned_vars in Heq.
  apply filter_split in Heq as (pre & post & Hs & Hfpre & Hfpost & Hm).
  destruct (min_by _ e es) as [c X] eqn:Hmin. simpl in *.
  exists X, pre, post. split_and!; [done|done|..].
  - intros e' He' Hsize. apply Hpre. rewrite <- Hfpre. by apply list_elem_of_filter.
  - intros e' He' Hsize. apply Hpost. rewrite <- Hfpost. by apply list_elem_of_filter.
Qed.

Lemma choose_None s :
  choose s = None ↔ ∀ e, e ∈ s → (size e.2 ≤ 1)%nat.
Proof.
  unfold choose. destruct (unassigned_vars s) as [|e es] eqn:Hun; split; try done.
  - intros _ e He. destruct (decide (1 < size e.2)%nat) as [Hlt|]; [|lia].
    assert (e ∈ unassigned_vars s) as Hin by by apply list_elem_of_filter.
    rewrite Hun in Hin. by apply elem_of_nil in Hin.
  - intros H. assert (e ∈ unassigned_vars s) as Hin by (rewrite Hun; apply list_elem_of_here).
    apply list_elem_of_filter in Hin as [Hlt Hin]. apply H in Hin. simpl in Hlt. lia.
Qed.

Lemma NoDup_variables : NoDup variables.
Proof. apply (bool_decide_unpack _); vm_compute; exact I. Qed.

Lemma length_variables : length variables = 81%nat.
Proof. vm_compute; reflexivity. Qed.

Lemma get_lookup (s : store) : ∀ j k X,
  NoDup (keys s) → keys s !! j = Some k → get s k = Some X → s !! j = Some (k, X).
Proof.
  induction s as [|[k0 X0] s IH]; intros j k X Hnd Hj Hget; [done|].
  simpl in *. apply NoDup_cons in Hnd as [Hk0 Hnd].
  destruct j as [|j]; simpl in *.
  - injection Hj as ->. rewrite decide_True in Hget by done. congruence.
  - assert (k ∈ keys s) as Hk by by eapply list_elem_of_lookup_2.
    rewrite decide_False in Hget by (intros ->; done). auto.
Qed.

Lemma lookup_get (s : store) : ∀ j k X,
  NoDup (keys s) → s !! j = Some (k, X) → get s k = Some X.
Proof.
  induction s as [|[k0 X0] s IH]; intros j k X Hnd Hj; [done|].
  simpl in *. apply NoDup_cons in Hnd as [Hk0 Hnd].
  destruct j as [|j]; simpl in *.
  - injection Hj as -> ->. by rewrite decide_True.
  - assert (k ∈ keys s) as Hk.
    { apply list_elem_of_lookup_2 in Hj. apply (list_elem_of_fmap_2 fst) in Hj. done. }
    rewrite decide_False by (intros ->; done). eauto.
Qed.

Lemma elem_of_get (s : store) k X : NoDup (keys s) → (k, X) ∈ s → get s k = Some X.
Proof. intros Hnd [j Hj]%list_elem_of_lookup. by eapply lookup_get. Qed.

Lemma get_elem_of (s : store) k X : get s k = Some X → (k, X) ∈ s.
Proof.
  induction s as [|[k0 X0] s IH]; simpl; [done|].
  destruct (decide (k0 = k)) as [->|Hne].
  - intros [= ->]. apply list_elem_of_here.
  - intros H. apply list_elem_of_further. auto.
Qed.

Lemma well_formed_NoDup s : well_formed s → NoDup (keys s).
Proof. intros ->. apply NoDup_variables. Qed.

(** ** The search returns *)

Lemma unassigned_put (s : store) k X X' :
  get s k = Some X →
  (length (unassigned_vars (put s k X')) + indicator (bool_decide (1 < size X))
   = length (unassigned_vars s) + indicator (bool_decide (1 < size X')))%nat.
Proof.
  unfold unassigned_vars. induction s as [|[k0 X0] s IH]; [done|].
  cbn [get put]. destruct (decide (k0 = k)) as [->|Hne].
  - intros [= ->]. rewrite !filter_cons. cbn [snd].
    do 2 case_bool_decide; repeat case_decide; cbn [length indicator]; lia.
  - intros H. specialize (IH H).
    destruct (decide (1 < size X0)%nat) as [H0|H0].
    + rewrite !filter_cons_True by done. cbn [length]. lia.
    + rewrite !filter_cons_False by done. lia.
Qed.

Lemma removal_unassigned s s' :
  removal s s' → (length (unassigned_vars s') ≤ length (unassigned_vars s))%nat.
Proof.
  intros [s0 key X v Hget Hin]. unfold discard.
  pose proof (unassigned_put s0 key X (X ∖ {[v]}) Hget) as H.
  pose proof (size_discard X v Hin) as Hsize.
  do 2 case_bool_decide; simpl in H; lia.
Qed.

Lemma removals_unassigned s s' :
  rtc removal s s' → (length (unassigned_vars s') ≤ length (unassigned_vars s))%nat.
Proof.
  induction 1 as [|s s1 s2 H1 _ IH]; [done|]. apply removal_unassigned in H1. lia.
Qed.

(** Assigning a value to an unassigned cell leaves one unassigned cell less. *)
Lemma assign_unassigned s chosen X value :
  get s chosen = Some X → (1 < size X)%nat →
  S (length (unassigned_vars (put (copy_store s) chosen {[value]})))
  = length (unassigned_vars s).
Proof.
  intros Hget Hsize. rewrite copy_store_id.
  pose proof (unassigned_put s chosen X {[value]} Hget) as H.
  rewrite size_singleton in H.
  rewrite bool_decide_true, (bool_decide_false (1 < 1)%nat) in H by lia.
  simpl in H. lia.
Qed.

Lemma choose_get s chosen :
  NoDup (keys s) → choose s = Some chosen →
  ∃ X, get s chosen = Some X ∧ (1 < size X)%nat.
Proof.
  intros Hnd (X & pre & post & -> & Hsize & _)%choose_Some.
  exists X. split; [|done]. apply elem_of_get; [done|].
  apply elem_of_app. right. apply list_elem_of_here.
Qed.

Lemma well_formed_put s k X : well_formed s → k ∈ keys s → well_formed (put s k X).
Proof.
  unfold well_formed. intros Hwf [X0 HX0]%keys_get_Some.
  by rewrite (keys_put _ _ _ _ HX0).
Qed.

(** The board a recursive call of [look_forward] receives. *)
Lemma branch_unassigned s chosen X value s' :
  get s chosen = Some X → (1 < size X)%nat →
  propagate_constraints (put (copy_store s) chosen {[value]}) chosen value = Ok (true, s') →
  keys s' = keys s ∧ (length (unassigned_vars s') < length (unassigned_vars s))%nat.
Proof.
  intros Hget Hsize Hprop. apply propagate_fuel_cascade in Hprop.
  split.
  - rewrite (cascade_keys _ _ _ Hprop), copy_store_id. by eapply keys_put.
  - apply cascade_removals, removals_unassigned in Hprop.
    rewrite <- (assign_unassigned s chosen X value Hget Hsize). lia.
Qed.

Lemma look_forward_fuel_S fuel s :
  look_forward_fuel (S fuel) s
  = match choose s with
    | None => Ok (Some s)
    | Some chosen =>
        X ← lookup_cell s chosen;
        try_values (look_forward_fuel fuel) s chosen (iter_set X)
    end.
Proof. reflexivity. Qed.

Section SearchReturns.
Variable self : store → outcome (option store).
Variable s : store.
Variable chosen : cell.
Variable X : candidates.
Hypothesis s_well_formed : well_formed s.
Hypothesis chosen_unassigned : get s chosen = Some X ∧ (1 < size X)%nat.
Hypothesis self_total : ∀ s',
  well_formed s' →
  (length (unassigned_vars s') < length (unassigned_vars s))%nat →
  ∃ r, self s' = Ok r.

Lemma try_values_total values : ∃ r, try_values self s chosen values = Ok r.
Proof.
  destruct chosen_unassigned as [Hget Hsize].
  induction values as [|value rest IH]; simpl; [eauto|].
  assert (well_formed (put (copy_store s) chosen {[value]})) as Hwf.
  { rewrite copy_store_id. apply well_formed_put; [done|by eapply get_Some_keys]. }
  destruct (propagate_constraints_total _ chosen value Hwf) as (ok & s' & Hprop).
  rewrite Hprop. simpl. destruct ok; [|done].
  destruct (branch_unassigned _ _ _ _ _ Hget Hsize Hprop) as [Hkeys Hlt].
  destruct (self_total s') as [r Hr]; [|done|].
  { unfold well_formed. by rewrite Hkeys. }
  rewrite Hr. simpl. destruct (truthy r); eauto.
Qed.
End SearchReturns.

Lemma look_forward_fuel_total fuel : ∀ s,
  well_formed s → (length (unassigned_vars s) < fuel)%nat →
  ∃ r, look_forward_fuel fuel s = Ok r.
Proof.
  induction fuel as [|fuel IH]; intros s Hwf Hlt; [lia|].
  rewrite look_forward_fuel_S.
  destruct (choose s) as [chosen|] eqn:Hchoose; [|eauto].
  destruct (choose_get s chosen (well_formed_NoDup s Hwf) Hchoose) as (X & Hget & Hsize).
  unfold lookup_cell. rewrite Hget. simpl.
  apply (try_values_total _ s chosen X); [done|done|].
  intros s' Hwf' Hlt'. apply IH; [done|lia].
Qed.

Lemma unassigned_le_81 s : well_formed s → (length (unassigned_vars s) ≤ 81)%nat.
Proof.
  intros Hwf. rewrite <- length_variables, <- Hwf. unfold keys, unassigned_vars.
  rewrite length_map. apply length_filter.
Qed.

(** ** More fuel changes nothing *)

Section CascadeFuel.
Variables self self' : store → cell → Z → outcome (bool * store).
Hypothesis self_le : ∀ s var value r, self s var value = Ok r → self' s var value = Ok r.
Variable var : cell.
Variable value : Z.

Lemma propagate_peers_le peers : ∀ s r,
  propagate_peers self var value peers s = Ok r →
  propagate_peers self' var value peers s = Ok r.
Proof.
  induction peers as [|peer rest IH]; intros s r H; simpl in *; [done|].
  destruct (decide (peer = var)); [eauto|].
  destruct (lookup_cell s peer) as [X| |]; simpl in *; [|done..].
  destruct (decide (value ∈ X)); [|eauto].
  destruct (decide (size (X ∖ {[value]}) = 0%nat)); [done|].
  destruct (decide (size (X ∖ {[value]}) = 1%nat)); [|eauto].
  destruct (next_iter (X ∖ {[value]})) as [v| |]; simpl in *; [|done..].
  destruct (self (discard s peer X value) peer v) as [[ok s2]| |] eqn:Hself;
    simpl in *; [|done..].
  rewrite (self_le _ _ _ _ Hself). simpl. destruct ok; eauto.
Qed.

Lemma propagate_groups_le cs : ∀ s r,
  propagate_groups self var value cs s = Ok r →
  propagate_groups self' var value cs s = Ok r.
Proof.
  induction cs as [|constraint rest IH]; intros s r H; simpl in *; [done|].
  destruct (decide (var ∈ constraint)); [|eauto].
  destruct (propagate_peers self var value constraint s) as [[ok s1]| |] eqn:Hp;
    simpl in *; [|done..].
  rewrite (propagate_peers_le _ _ _ Hp). simpl. destruct ok; eauto.
Qed.
End CascadeFuel.

Lemma propagate_fuel_mono fuel : ∀ fuel' s var value r,
  (fuel ≤ fuel')%nat →
  propagate_fuel fuel s var value = Ok r → propagate_fuel fuel' s var value = Ok r.
Proof.
  induction fuel as [|fuel IH]; intros fuel' s var value r Hle H; [done|].
  destruct fuel' as [|fuel']; [lia|].
  rewrite propagate_fuel_S in *.
  eapply propagate_groups_le; [|done].
  intros s0 var0 value0 r0. apply IH. lia.
Qed.

Section SearchFuel.
Variables self self' : store → outcome (option store).
Hypothesis self_le : ∀ s r, self s = Ok r → self' s = Ok r.
Variable s : store.
Variable chosen : cell.

Lemma try_values_le values : ∀ r,
  try_values self s chosen values = Ok r → try_values self' s chosen values = Ok r.
Proof.
  induction values as [|value rest IH]; intros r H; simpl in *; [done|].
  destruct (propagate_constraints _ chosen value) as [[ok s1]| |]; simpl in *; [|done..].
  destruct ok; [|eauto].
  destruct (self s1) as [result| |] eqn:Hself; simpl in *; [|done..].
  rewrite (self_le _ _ Hself). simpl. destruct (truthy result); eauto.
Qed.
End SearchFuel.

Lemma look_forward_fuel_mono fuel : ∀ fuel' s r,
  (fuel ≤ fuel')%nat →
  look_forward_fuel fuel s = Ok r → look_forward_fuel fuel' s = Ok r.
Proof.
  induction fuel as [|fuel IH]; intros fuel' s r Hle H; [done|].
  destruct fuel' as [|fuel']; [lia|].
  rewrite look_forward_fuel_S in *.
  destruct (choose s) as [chosen|]; [|done].
  destruct (lookup_cell s chosen) as [X| |]; simpl in *; [|done..].
  eapply try_values_le; [|done].
  intros s0 r0. apply IH. lia.
Qed.

Lemma board_of_Ok {A} (default : A) (r : outcome A) :
  is_ok r = true → r = Ok (board_of default r).
Proof. by destruct r. Qed.

Lemma returned_true_Ok {A} (default : bool * A) (r : outcome (bool * A)) :
  returned_true r = true → r = Ok (true, (board_of default r).2).
Proof. by destruct r as [[[] a]| |]. Qed.

(** ** What the two propagators guarantee *)

(** C10. When the cell [var] holds exactly [value] and
    [propagate_constraints] returns [True], the cell still holds exactly
    [value]. *)
Theorem propagate_constraints_keeps_assigned s var value s' :
  get s var = Some {[value]} →
  propagate_constraints s var value = Ok (true, s') →
  get s' var = Some {[value]}.
Proof.
  intros Hget H. apply propagate_fuel_cascade in H.
  destruct (cascade_true_nonempty _ _ H var {[value]} Hget) as (X' & HX' & Hne);
    [set_solver|].
  destruct (cascade_subseteq _ _ _ H var X' HX') as (X & HX & Hsub).
  assert (X = {[value]}) as -> by congruence.
  rewrite HX'. f_equal. apply leibniz_equiv. apply set_equiv. intros x.
  split; [set_solver|]. intros ->%elem_of_singleton.
  destruct (set_choose_L X' Hne) as [y Hy].
  assert (y = value) as <- by set_solver. done.
Qed.

Lemma propagate_constraints_keeps_assigned_witness :
  get example_branch "B7" = Some {[8]} ∧
  propagate_constraints example_branch "B7" 8 = Ok (true, example_branch_after) ∧
  get example_branch_after "B7" = Some {[8]}.
Proof.
  assert (get example_branch "B7" = Some {[8]}) as H1 by (vm_compute; reflexivity).
  assert (propagate_constraints example_branch "B7" 8 = Ok (true, example_branch_after))
    as H2 by (apply (returned_true_Ok (false, [])); vm_compute; reflexivity).
  split; [exact H1|]. split; [exact H2|].
  exact (propagate_constraints_keeps_assigned example_branch "B7" 8 example_branch_after H1 H2).
Defined.

(** C4. Running [apply_constraints] on the board it has returned gives that
    board again, and the one turn of the loop it takes removes nothing. *)
Theorem apply_constraints_idempotent s :
  well_formed s →
  ∃ r, apply_constraints s = Ok r ∧ apply_constraints r = Ok r ∧
    pass r = Ok (r, false).
Proof.
  intros Hwf. destruct (apply_constraints_total s Hwf) as [r Hr].
  exists r. pose proof (apply_constraints_fixpoint _ _ Hr) as Hfix.
  split_and!; [done| |done]. by apply apply_constraints_at_fixpoint.
Qed.

Lemma apply_constraints_idempotent_witness :
  well_formed example_board ∧
  ∃ r, apply_constraints example_board = Ok r ∧ apply_constraints r = Ok r ∧
    pass r = Ok (r, false).
Proof.
  assert (well_formed example_board) as Hwf by (vm_compute; reflexivity).
  split; [exact Hwf|]. exact (apply_constraints_idempotent example_board Hwf).
Defined.

Lemma removals_shrinks s s' : rtc removal s s' → shrinks s s'.
Proof.
  intros H. split; [by apply removals_keys|].
  intros k X X' Hk Hk'. destruct (removals_subseteq _ _ H _ _ Hk') as (Y & HY & Hsub).
  assert (Y = X) as -> by congruence. done.
Qed.

(** C5. On every board, [apply_constraints] returns a board in which every
    cell has a subset of its former candidates, and so does
    [propagate_constraints], whether it returns [True] or [False]. *)
Theorem propagation_monotone s :
  well_formed s →
  (∃ s', apply_constraints s = Ok s' ∧ shrinks s s') ∧
  (∀ var value, ∃ b s', propagate_constraints s var value = Ok (b, s') ∧ shrinks s s').
Proof.
  intros Hwf. split.
  - destruct (apply_constraints_total s Hwf) as [r Hr]. exists r. split; [done|].
    by apply removals_shrinks, apply_constraints_removals.
  - intros var value.
    destruct (propagate_constraints_total s var value Hwf) as (b & s' & H).
    exists b, s'. split; [done|].
    by eapply removals_shrinks, cascade_removals, propagate_fuel_cascade.
Qed.

Lemma propagation_monotone_witness :
  well_formed example_board ∧
  (∃ s', apply_constraints example_board = Ok s' ∧ shrinks example_board s') ∧
  (∀ var value, ∃ b s',
     propagate_constraints example_board var value = Ok (b, s') ∧
     shrinks example_board s').
Proof.
  assert (well_formed example_board) as Hwf by (vm_compute; reflexivity).
  split; [exact Hwf|]. exact (propagation_monotone example_board Hwf).
Defined.

(** ** What the search guarantees *)

Lemma variables_row_major : variables = row_major_cells.
Proof. reflexivity. Qed.

(** C6. A call of [look_forward] on a board with an unassigned cell branches
    on [choose s].  That cell has more than one candidate, no cell with more
    than one candidate has fewer, and every such cell that comes earlier in
    the row-by-row order has strictly more. *)
Theorem look_forward_branches_on_mrv s chosen fuel :
  well_formed s → choose s = Some chosen →
  look_forward_fuel (S fuel) s
  = (X ← lookup_cell s chosen;
     try_values (look_forward_fuel fuel) s chosen (iter_set X)) ∧
  ∃ i X, row_major_cells !! i = Some chosen ∧ get s chosen = Some X ∧
    (1 < size X)%nat ∧
    ∀ j c' X', row_major_cells !! j = Some c' → get s c' = Some X' →
      (1 < size X')%nat →
      (size X ≤ size X')%nat ∧ ((j < i)%nat → (size X < size X')%nat).
Proof.
  intros Hwf Hchoose. split.
  { rewrite look_forward_fuel_S, Hchoose. done. }
  pose proof (well_formed_NoDup s Hwf) as Hnd.
  rewrite <- variables_row_major, <- Hwf.
  destruct (choose_Some s chosen Hchoose) as (X & pre & post & Hs & Hsize & Hpre & Hpost).
  exists (length pre), X.
  assert (s !! length pre = Some (chosen, X)) as Hi.
  { rewrite Hs. by rewrite list_lookup_middle. }
  split_and!.
  - unfold keys. by rewrite list_lookup_fmap, Hi.
  - by eapply lookup_get.
  - done.
  - intros j c' X' Hj Hget' Hsize'.
    pose proof (get_lookup s j c' X' Hnd Hj Hget') as Hsj.
    destruct (Nat.lt_trichotomy j (length pre)) as [Hlt|[->|Hgt]].
    + assert ((c', X') ∈ pre) as Hin.
      { rewrite Hs, lookup_app_l in Hsj by done. by eapply list_elem_of_lookup_2. }
      specialize (Hpre _ Hin Hsize'). simpl in Hpre. lia.
    + assert (X' = X) as -> by congruence. lia.
    + assert ((c', X') ∈ post) as Hin.
      { rewrite Hs in Hsj. rewrite lookup_app_r in Hsj by lia.
        destruct (j - length pre)%nat as [|n] eqn:Hn; [lia|]. simpl in Hsj.
        by eapply list_elem_of_lookup_2. }
      specialize (Hpost _ Hin Hsize'). simpl in Hpost. lia.
Qed.

Lemma look_forward_branches_on_mrv_witness :
  well_formed example_trimmed ∧ choose example_trimmed = Some "B7" ∧
  look_forward_fuel 1 example_trimmed
  = (X ← lookup_cell example_trimmed "B7";
     try_values (look_forward_fuel 0) example_trimmed "B7" (iter_set X)) ∧
  ∃ i X, row_major_cells !! i = Some "B7" ∧ get example_trimmed "B7" = Some X ∧
    (1 < size X)%nat ∧
    ∀ j c' X', row_major_cells !! j = Some c' → get example_trimmed c' = Some X' →
      (1 < size X')%nat →
      (size X ≤ size X')%nat ∧ ((j < i)%nat → (size X < size X')%nat).
Proof.
  assert (well_formed example_trimmed) as Hwf by (vm_compute; reflexivity).
  assert (choose example_trimmed = Some "B7") as Hc by (vm_compute; reflexivity).
  split; [exact Hwf|]. split; [exact Hc|].
  exact (look_forward_branches_on_mrv example_trimmed "B7" 0 Hwf Hc).
Defined.

(** C8. [look_forward] returns on every board.  A board has at most 81
    unassigned cells, a recursive call gets a board with fewer unassigned
    cells than its caller has, and so the calls never nest deeper than the
    number of unassigned cells of the first board: that many nested calls,
    or any larger number, give the result. *)
Theorem look_forward_terminates s :
  well_formed s →
  (length (unassigned_vars s) ≤ 81)%nat ∧
  (∃ r, look_forward s = Ok r ∧
     ∀ fuel, (length (unassigned_vars s) < fuel)%nat → look_forward_fuel fuel s = Ok r) ∧
  (∀ chosen X value s',
     choose s = Some chosen → get s chosen = Some X → value ∈ X →
     propagate_constraints (put (copy_store s) chosen {[value]}) chosen value
       = Ok (true, s') →
     well_formed s' ∧
     (length (unassigned_vars s') < length (unassigned_vars s))%nat).
Proof.
  intros Hwf. split_and!.
  - by apply unassigned_le_81.
  - destruct (look_forward_fuel_total (S (length (unassigned_vars s))) s Hwf) as [r Hr];
      [lia|].
    exists r. split; [done|]. intros fuel Hfuel.
    eapply look_forward_fuel_mono; [|exact Hr]. lia.
  - intros chosen X value s' Hchoose Hget Hin Hprop.
    destruct (choose_get s chosen (well_formed_NoDup s Hwf) Hchoose) as (X0 & HX0 & Hsize).
    destruct (branch_unassigned _ _ _ _ _ HX0 Hsize Hprop) as [Hkeys Hlt].
    split; [|done]. unfold well_formed. by rewrite Hkeys.
Qed.

Lemma look_forward_terminates_witness :
  well_formed example_trimmed ∧
  (length (unassigned_vars example_trimmed) ≤ 81)%nat ∧
  (∃ r, look_forward example_trimmed = Ok r ∧
     ∀ fuel, (length (unassigned_vars example_trimmed) < fuel)%nat →
       look_forward_fuel fuel example_trimmed = Ok r) ∧
  (∀ chosen X value s',
     choose example_trimmed = Some chosen → get example_trimmed chosen = Some X →
     value ∈ X →
     propagate_constraints (put (copy_store example_trimmed) chosen {[value]}) chosen value
       = Ok (true, s') →
     well_formed s' ∧
     (length (unassigned_vars s') < length (unassigned_vars example_trimmed))%nat).
Proof.
  assert (well_formed example_trimmed) as Hwf by (vm_compute; reflexivity).
  split; [exact Hwf|]. exact (look_forward_terminates example_trimmed Hwf).
Defined.

(** ** Branches do not share objects *)

Lemma preserved_refl h : preserved h h.
Proof. by split. Qed.

Lemma preserved_trans h1 h2 h3 : preserved h1 h2 → preserved h2 h3 → preserved h1 h3.
Proof.
  intros [Hlen1 H1] [Hlen2 H2]. split; [lia|].
  intros l Hl. rewrite H2 by lia. auto.
Qed.

Lemma preserved_alloc h o : preserved h (Heap.alloc h o).2.
Proof.
  split; simpl.
  - rewrite length_app. lia.
  - intros l Hl. by rewrite lookup_app_l.
Qed.

Lemma only_sets_of_refl d h : only_sets_of d h h.
Proof. by split_and!. Qed.

Lemma read_dict_agree h h' d : h' !! d = h !! d → Heap.read_dict h' d = Heap.read_dict h d.
Proof. unfold Heap.read_dict. by intros ->. Qed.

Lemma only_sets_of_trans d h1 h2 h3 :
  only_sets_of d h1 h2 → only_sets_of d h2 h3 → only_sets_of d h1 h3.
Proof.
  intros (Hlen1 & Hd1 & H1) (Hlen2 & Hd2 & H2). split_and!; [congruence..|].
  intros l Hl. rewrite H2, H1; [done|done|].
  intros entries k. rewrite (read_dict_agree _ _ _ Hd1). apply Hl.
Qed.

Lemma lookup_set_Ok h d k l X :
  Heap.lookup_set h d k = Ok (l, X) →
  ∃ entries, Heap.read_dict h d = Ok entries ∧ Heap.dict_get entries k = Some l ∧
    Heap.read_set h l = Ok X.
Proof.
  unfold Heap.lookup_set. intros H. step_bind H. rename a into entries.
  exists entries. split; [done|].
  destruct (Heap.dict_get entries k) as [l0|]; [|done].
  step_bind H. injection H as -> ->. done.
Qed.

(** Removing a value from a set of the dictionary. *)
Lemma only_sets_of_update h d k l X X' :
  Heap.lookup_set h d k = Ok (l, X) → only_sets_of d h (<[l := Heap.SetObj X']> h).
Proof.
  intros (entries & Hd & Hk & Hl)%lookup_set_Ok. split_and!.
  - apply length_insert.
  - apply list_lookup_insert_ne. intros ->.
    unfold Heap.read_dict, Heap.read_set in *. destruct (h !! d) as [[]|]; done.
  - intros l' Hl'. apply list_lookup_insert_ne. intros ->.
    by apply (Hl' entries k).
Qed.

Section HeapCascade.
Variable self : list Heap.object → nat → cell → Z → outcome (bool * list Heap.object).
Hypothesis self_frame : ∀ h d var value b h',
  self h d var value = Ok (b, h') → only_sets_of d h h'.
Variable d : nat.
Variable var : cell.
Variable value : Z.

Lemma heap_propagate_peers_frame peers : ∀ h b h',
  Heap.propagate_peers self d var value peers h = Ok (b, h') → only_sets_of d h h'.
Proof.
  induction peers as [|peer rest IH]; intros h b h' H; simpl in H.
  { injection H as <- <-. apply only_sets_of_refl. }
  destruct (decide (peer = var)) as [_|Hne]; [eauto|].
  step_bind H. destruct a as [l X].
  destruct (decide (value ∈ X)) as [Hin|_]; [|eauto].
  pose proof (only_sets_of_update h d peer l X (X ∖ {[value]}) Ha) as Hup.
  destruct (decide (size (X ∖ {[value]}) = 0%nat)) as [H0|H0].
  { by injection H as <- <-. }
  destruct (decide (size (X ∖ {[value]}) = 1%nat)) as [H1|H1].
  - step_bind H. step_bind H. destruct a0 as [ok h2].
    apply self_frame in Ha1.
    eapply only_sets_of_trans; [exact Hup|].
    eapply only_sets_of_trans; [exact Ha1|].
    destruct ok; [eauto|]. injection H as <- <-. apply only_sets_of_refl.
  - eapply only_sets_of_trans; eauto.
Qed.

Lemma heap_propagate_groups_frame cs : ∀ h b h',
  Heap.propagate_groups self d var value cs h = Ok (b, h') → only_sets_of d h h'.
Proof.
  induction cs as [|constraint rest IH]; intros h b h' H; simpl in H.
  { injection H as <- <-. apply only_sets_of_refl. }
  destruct (decide (var ∈ constraint)) as [_|_]; [|eauto].
  step_bind H. destruct a as [ok h1].
  apply heap_propagate_peers_frame in Ha.
  eapply only_sets_of_trans; [exact Ha|].
  destruct ok; [eauto|]. injection H as <- <-. apply only_sets_of_refl.
Qed.
End HeapCascade.

Lemma heap_propagate_fuel_S fuel h d var value :
  Heap.propagate_fuel (S fuel) h d var value
  = Heap.propagate_groups (Heap.propagate_fuel fuel) d var value constraints h.
Proof. reflexivity. Qed.

Lemma heap_propagate_fuel_frame fuel : ∀ h d var value b h',
  Heap.propagate_fuel fuel h d var value = Ok (b, h') → only_sets_of d h h'.
Proof.
  induction fuel as [|fuel IH]; intros h d var value b h' H; [done|].
  rewrite heap_propagate_fuel_S in H.
  eapply heap_propagate_groups_frame; eauto.
Qed.

Lemma heap_propagate_constraints_frame h d var value b h' :
  Heap.propagate_constraints h d var value = Ok (b, h') → only_sets_of d h h'.
Proof.
  unfold Heap.propagate_constraints. intros H. step_bind H.
  by eapply heap_propagate_fuel_frame.
Qed.

Lemma copy_entries_fresh entries : ∀ h entries' h',
  Heap.copy_entries h entries = Ok (entries', h') →
  preserved h h' ∧ ∀ k l, Heap.dict_get entries' k = Some l → (length h ≤ l)%nat.
Proof.
  induction entries as [|[k0 l0] rest IH]; intros h entries' h' H; simpl in H.
  { injection H as <- <-. split; [apply preserved_refl|done]. }
  step_bind H. step_bind H. destruct a0 as [rest' h2]. injection H as <- <-.
  destruct (IH _ _ _ Ha0) as [Hpres Hfresh].
  pose proof (preserved_alloc h (Heap.SetObj a)) as Halloc. simpl in Halloc.
  split; [by eapply preserved_trans|].
  intros k l. simpl. destruct (decide (k0 = k)) as [_|_].
  - intros [= <-]. done.
  - intros Hk. apply Hfresh in Hk. rewrite length_app in Hk. simpl in Hk. lia.
Qed.

Lemma dict_get_put entries k l k' l' :
  Heap.dict_get (Heap.dict_put entries k l) k' = Some l' →
  l' = l ∨ Heap.dict_get entries k' = Some l'.
Proof.
  induction entries as [|[k0 l0] rest IH]; simpl.
  - destruct (decide (k = k')); [|done]. intros [= <-]. by left.
  - destruct (decide (k0 = k)) as [->|Hne]; simpl.
    + destruct (decide (k = k')); [|by right]. intros [= <-]. by left.
    + destruct (decide (k0 = k')); [by right|done].
Qed.

(** The board of a branch is made of new objects only. *)
Lemma new_branch_fresh h d chosen value d' h' :
  Heap.new_branch h d chosen value = Ok (d', h') →
  preserved h h' ∧ fresh_dict (length h) h' d'.
Proof.
  unfold Heap.new_branch. intros H. step_bind H. rename a into entries.
  step_bind H. destruct a as [entries' h1]. simpl in H. injection H as <- <-.
  destruct (copy_entries_fresh _ _ _ _ Ha0) as [[Hlen Hpres] Hfresh].
  split; [split|split].
  - rewrite length_insert, !length_app. simpl. lia.
  - intros l Hl. rewrite list_lookup_insert_ne by lia.
    rewrite <- app_assoc, lookup_app_l by lia. auto.
  - done.
  - exists (Heap.dict_put entries' chosen (length (h1 ++ [Heap.DictObj entries']))).
    split.
    + unfold Heap.read_dict. rewrite list_lookup_insert_eq; [done|].
      rewrite !length_app. simpl. lia.
    + intros k l [->|Hk]%dict_get_put; [|eauto].
      rewrite length_app. simpl. lia.
Qed.

Lemma only_sets_of_fresh h h1 h2 d :
  preserved h h1 → fresh_dict (length h) h1 d → only_sets_of d h1 h2 → preserved h h2.
Proof.
  intros [Hlen Hpres] (Hd & entries & Hentries & Hfresh) (Hlen2 & _ & Hsame).
  split; [lia|]. intros l Hl. rewrite Hsame; [auto|].
  intros entries0 k Hentries0 Hk.
  assert (entries0 = entries) as -> by congruence.
  apply Hfresh in Hk. lia.
Qed.

Section HeapSearch.
Variable self : list Heap.object → nat → outcome (option nat * list Heap.object).
Hypothesis self_isolated : ∀ h d r h', self h d = Ok (r, h') → isolated h d r h'.
Variable d : nat.
Variable chosen : cell.

Lemma heap_try_values_isolated values : ∀ h r h',
  Heap.try_values self d chosen values h = Ok (r, h') →
  preserved h h' ∧ ∀ d', r = Some d' → (length h ≤ d')%nat.
Proof.
  induction values as [|value rest IH]; intros h r h' H; simpl in H.
  { injection H as <- <-. split; [apply preserved_refl|done]. }
  step_bind H. destruct a as [d1 h1].
  destruct (new_branch_fresh _ _ _ _ _ _ Ha) as [Hpres1 Hfresh].
  step_bind H. destruct a as [ok h2].
  apply heap_propagate_constraints_frame in Ha0.
  pose proof (only_sets_of_fresh _ _ _ _ Hpres1 Hfresh Ha0) as Hpres2.
  assert (∀ r0 h0, Heap.try_values self d chosen rest h2 = Ok (r0, h0) →
    preserved h h0 ∧ ∀ d', r0 = Some d' → (length h ≤ d')%nat) as Hrest2.
  { intros r0 h0 H0. destruct (IH _ _ _ H0) as [Hp Hr].
    split; [by eapply preserved_trans|]. intros d' Hd'. apply Hr in Hd'.
    destruct Hpres2. lia. }
  destruct ok; [|eauto].
  step_bind H. destruct a as [result h3].
  destruct (self_isolated _ _ _ _ Ha1) as [Hpres3 Hres].
  pose proof (preserved_trans _ _ _ Hpres2 Hpres3) as Hpres.
  step_bind H. destruct a; [|].
  - injection H as <- <-. split; [done|]. intros d' Hd'.
    destruct (Hres _ Hd') as [->|Hge]; [by destruct Hfresh|].
    destruct Hpres2. lia.
  - destruct (IH _ _ _ H) as [Hp Hr]. split; [by eapply preserved_trans|].
    intros d' Hd'. apply Hr in Hd'. destruct Hpres. lia.
Qed.
End HeapSearch.

Lemma heap_look_forward_fuel_S fuel h d :
  Heap.look_forward_fuel (S fuel) h d
  = (s ← Heap.view h d;
     match choose s with
     | None => Ok (Some d, h)
     | Some chosen =>
         '(_, X) ← Heap.lookup_set h d chosen;
         let (_, h1) := Heap.alloc h (Heap.SetObj X) in
         Heap.try_values (Heap.look_forward_fuel fuel) d chosen (iter_set X) h1
     end).
Proof. reflexivity. Qed.

Lemma heap_look_forward_fuel_isolated fuel : ∀ h d r h',
  Heap.look_forward_fuel fuel h d = Ok (r, h') → isolated h d r h'.
Proof.
  induction fuel as [|fuel IH]; intros h d r h' H; [done|].
  rewrite heap_look_forward_fuel_S in H. step_bind H. rename a into s.
  destruct (choose s) as [chosen|].
  - step_bind H. destruct a as [l X]. simpl in H.
    destruct (heap_try_values_isolated _ IH _ _ _ _ _ _ H) as [Hpres Hres].
    pose proof (preserved_alloc h (Heap.SetObj X)) as Halloc. simpl in Halloc.
    split; [by eapply preserved_trans|].
    intros d' Hd'. right. apply Hres in Hd'. rewrite length_app in Hd'. lia.
  - injection H as <- <-. split; [apply preserved_refl|]. intros d' [= <-]. by left.
Qed.

(** A board that was read from unchanged objects reads the same. *)
Lemma view_entries_preserved h h' entries s :
  preserved h h' → Heap.view_entries h entries = Ok s → Heap.view_entries h' entries = Ok s.
Proof.
  intros [_ Hpres]. revert s. induction entries as [|[k l] rest IH]; intros s H; simpl in *.
  { done. }
  step_bind H. step_bind H. injection H as <-.
  rewrite (IH _ Ha0). unfold Heap.read_set in *.
  destruct (h !! l) as [o|] eqn:Hl; [|done].
  rewrite Hpres, Hl by (by eapply lookup_lt_Some). destruct o; [|done].
  injection Ha as ->. done.
Qed.

Lemma view_preserved h h' d s :
  preserved h h' → Heap.view h d = Ok s → Heap.view h' d = Ok s.
Proof.
  intros Hpres H. unfold Heap.view in *. step_bind H.
  unfold Heap.read_dict in *. destruct (h !! d) as [o|] eqn:Hd; [|done].
  destruct Hpres as [Hlen Hp].
  rewrite Hp, Hd by (by eapply lookup_lt_Some). destruct o; [done|].
  injection Ha as <-. simpl. by eapply view_entries_preserved.
Qed.

(** C9. A call of [look_forward] leaves every object that existed before
    the call as it was, so the board it was given reads the same afterwards;
    the board it returns is the one it was given or a new object.  Every
    branch, at any point of the search, works on a dictionary and on sets
    that were created for it: neither its cascade nor the search below it
    changes an object that existed before the branch. *)
Theorem look_forward_isolation h d r h' :
  Heap.look_forward h d = Ok (r, h') →
  (∀ l, (l < length h)%nat → h' !! l = h !! l) ∧
  (∀ s, Heap.view h d = Ok s → Heap.view h' d = Ok s) ∧
  (∀ d', r = Some d' → d' = d ∨ (length h ≤ d')%nat) ∧
  (∀ h0 d0 chosen value d1 h1,
     Heap.new_branch h0 d0 chosen value = Ok (d1, h1) →
     fresh_dict (length h0) h1 d1 ∧
     ∀ b h2, Heap.propagate_constraints h1 d1 chosen value = Ok (b, h2) →
       preserved h0 h2 ∧
       ∀ fuel r3 h3, Heap.look_forward_fuel fuel h2 d1 = Ok (r3, h3) → preserved h0 h3).
Proof.
  intros H. unfold Heap.look_forward in H. step_bind H.
  destruct (heap_look_forward_fuel_isolated _ _ _ _ _ H) as [Hpres Hres].
  split_and!.
  - by destruct Hpres.
  - intros s. by apply view_preserved.
  - done.
  - intros h0 d0 chosen value d1 h1 Hnew.
    destruct (new_branch_fresh _ _ _ _ _ _ Hnew) as [Hpres1 Hfresh].
    split; [done|]. intros b h2 Hprop.
    apply heap_propagate_constraints_frame in Hprop.
    pose proof (only_sets_of_fresh _ _ _ _ Hpres1 Hfresh Hprop) as Hpres2.
    split; [done|]. intros fuel r3 h3 Hrec.
    destruct (heap_look_forward_fuel_isolated _ _ _ _ _ Hrec) as [Hpres3 _].
    by eapply preserved_trans.
Qed.

Lemma look_forward_isolation_witness :
  Heap.look_forward open_cell_heap open_cell_dict
    = Ok (open_cell_result.1, open_cell_result.2) ∧
  (∀ l, (l < length open_cell_heap)%nat →
     open_cell_result.2 !! l = open_cell_heap !! l) ∧
  (∀ s, Heap.view open_cell_heap open_cell_dict = Ok s →
     Heap.view open_cell_result.2 open_cell_dict = Ok s) ∧
  (∀ d', open_cell_result.1 = Some d' →
     d' = open_cell_dict ∨ (length open_cell_heap ≤ d')%nat) ∧
  (∀ h0 d0 chosen value d1 h1,
     Heap.new_branch h0 d0 chosen value = Ok (d1, h1) →
     fresh_dict (length h0) h1 d1 ∧
     ∀ b h2, Heap.propagate_constraints h1 d1 chosen value = Ok (b, h2) →
       preserved h0 h2 ∧
       ∀ fuel r3 h3, Heap.look_forward_fuel fuel h2 d1 = Ok (r3, h3) → preserved h0 h3).
Proof.
  assert (Heap.look_forward open_cell_heap open_cell_dict
          = Ok (open_cell_result.1, open_cell_result.2)) as H.
  { rewrite <- surjective_pairing. apply board_of_Ok. vm_compute; reflexivity. }
  split; [exact H|].
  exact (look_forward_isolation open_cell_heap open_cell_dict
           open_cell_result.1 open_cell_result.2 H).
Defined.

(** ** Reading the board *)

Lemma put_middle (pre post : store) k X0 X :
  k ∉ keys pre → put (pre ++ (k, X0) :: post) k X = pre ++ (k, X) :: post.
Proof.
  induction pre as [|[k' X'] pre IH]; simpl; intros Hk.
  - by rewrite decide_True.
  - apply not_elem_of_cons in Hk as [Hne Hk].
    rewrite decide_False by done. by rewrite IH.
Qed.

Lemma load_cells_reads ks : ∀ fd (done : store),
  NoDup (keys done ++ ks) →
  load_cells ks fd (done ++ map (fun k => (k, full_set)) ks)
  = (vs ← parse_all (read_lines (length ks) fd);
     Ok (done ++ zip_with (fun k v => (k, cell_of_value v)) ks vs)).
Proof.
  induction ks as [|k ks IH]; intros fd done Hnd; simpl.
  { by rewrite !app_nil_r. }
  destruct (readline fd) as [line fd'] eqn:Hread. simpl.
  fold (parse_line line). destruct (parse_line line) as [v| |]; simpl; [|done..].
  apply NoDup_app in Hnd as (Hnd1 & Hdisj & Hnd2).
  apply NoDup_cons in Hnd2 as [Hk Hnd2].
  assert (k ∉ keys done) as Hk' by (intros Hin; apply (Hdisj _ Hin), list_elem_of_here).
  assert ((if v <? 10 then put (done ++ (k, full_set) :: map (fun k => (k, full_set)) ks) k {[v]}
           else done ++ (k, full_set) :: map (fun k => (k, full_set)) ks)
          = (done ++ [(k, cell_of_value v)]) ++ map (fun k => (k, full_set)) ks) as ->.
  { unfold cell_of_value. rewrite <- app_assoc. simpl.
    destruct (v <? 10); [by apply put_middle|done]. }
  rewrite IH.
  - destruct (parse_all (read_lines (length ks) fd')) as [vs| |]; simpl; [|done..].
    by rewrite <- app_assoc.
  - unfold keys. rewrite map_app. simpl. rewrite <- app_assoc. simpl.
    apply NoDup_app. split_and!; [done| |by apply NoDup_cons].
    intros x Hx. apply not_elem_of_cons. split; [by intros ->|].
    intros Hin. apply (Hdisj _ Hx). by apply list_elem_of_further.
Qed.

Lemma load_cells_reads_all ks fd :
  NoDup ks →
  load_cells ks fd (map (fun k => (k, full_set)) ks)
  = (vs ← parse_all (read_lines (length ks) fd);
     Ok (zip_with (fun k v => (k, cell_of_value v)) ks vs)).
Proof. intros Hnd. exact (load_cells_reads ks fd [] Hnd). Qed.

Lemma initial_store_full : initial_store = map (fun k => (k, full_set)) variables.
Proof. reflexivity. Qed.

Lemma keys_initial_store : keys initial_store = variables.
Proof. reflexivity. Qed.

Lemma parse_line_error line e : parse_line line = Raise e → e = ValueError.
Proof.
  unfold parse_line, py_int.
  destruct (match py_strip _ with [] => _ | _ => _ end); [done|]. by intros [= <-].
Qed.

Lemma parse_all_error lines :
  (∃ line, line ∈ lines ∧ parse_line line = Raise ValueError) →
  parse_all lines = Raise ValueError.
Proof.
  intros (line & Hin & Hline).
  induction lines as [|line0 rest IH]; [by apply elem_of_nil in Hin|].
  simpl. apply elem_of_cons in Hin as [<-|Hin].
  - by rewrite Hline.
  - rewrite (IH Hin). destruct (parse_line line0) as [v|e|] eqn:H0; [done| |].
    + by rewrite (parse_line_error _ _ H0).
    + unfold parse_line, py_int in H0.
      destruct (match py_strip _ with [] => _ | _ => _ end); done.
Qed.

Lemma read_lines_short n : ∀ fd, (length fd < n)%nat → "" ∈ read_lines n fd.
Proof.
  induction n as [|n IH]; intros fd Hlen; [lia|].
  destruct fd as [|line fd]; simpl.
  - apply list_elem_of_here.
  - apply list_elem_of_further, IH. simpl in Hlen. lia.
Qed.

Lemma read_lines_app n : ∀ fd extra,
  (n ≤ length fd)%nat → read_lines n (fd ++ extra) = read_lines n fd.
Proof.
  induction n as [|n IH]; intros fd extra Hlen; [done|].
  destruct fd as [|line fd]; simpl in *; [lia|]. f_equal. apply IH. lia.
Qed.

(** C7, as the code has it.  [load_board] reads the first 81 lines, one for
    each cell in row-by-row order, and stops with [ValueError] at the first
    that [int] rejects.  A number below 10, also zero or a negative one,
    gives the cell that number alone; a number from 10 up gives it all of 1
    to 9.  A file with fewer than 81 lines raises [ValueError]; lines after
    the first 81 are not read. *)
Theorem load_board_reads fd :
  load_board fd = (vs ← parse_all (read_lines 81 fd); Ok (board_of_values vs)) ∧
  (∀ v, cell_of_value v = if v <? 10 then {[v]} else list_to_set [1; 2; 3; 4; 5; 6; 7; 8; 9]) ∧
  ((∃ line, line ∈ read_lines 81 fd ∧ parse_line line = Raise ValueError) →
     load_board fd = Raise ValueError) ∧
  ((length fd < 81)%nat → load_board fd = Raise ValueError) ∧
  (∀ extra, (81 ≤ length fd)%nat → load_board (fd ++ extra) = load_board fd).
Proof.
  assert (∀ fd0, load_board fd0
    = (vs ← parse_all (read_lines 81 fd0); Ok (board_of_values vs))) as Heq.
  { intros fd0. unfold load_board. rewrite keys_initial_store, initial_store_full.
    rewrite (load_cells_reads_all variables fd0 NoDup_variables).
    by rewrite length_variables. }
  assert ((∃ line, line ∈ read_lines 81 fd ∧ parse_line line = Raise ValueError) →
    load_board fd = Raise ValueError) as Herr.
  { intros H. by rewrite Heq, (parse_all_error _ H). }
  split_and!; [apply Heq|done|exact Herr| |].
  - intros Hlen. apply Herr. exists "". split; [by apply read_lines_short|].
    vm_compute; reflexivity.
  - intros extra Hlen. by rewrite !Heq, read_lines_app.
Qed.

Example py_int_examples :
  parse_line "5" = Ok 5 ∧ parse_line " 12 " = Ok 12 ∧ parse_line "+3" = Ok 3 ∧
  parse_line "-0" = Ok 0 ∧ parse_line "1_0" = Ok 10 ∧ parse_line "007" = Ok 7 ∧
  parse_line "" = Raise ValueError ∧ parse_line "x" = Raise ValueError ∧
  parse_line "4.5" = Raise ValueError ∧ parse_line "1__0" = Raise ValueError ∧
  parse_line "- 1" = Raise ValueError.
Proof. vm_compute. repeat split; reflexivity. Qed.

(** C7 fails: the malformed value [-1] is stored, no error is reported; and
    a file with 82 lines is read like its first 81. *)
Lemma load_board_coerces_negative :
  parse_line "-1" = Ok (-1) ∧ malformed_value (-1) ∧ "-1" ∈ negative_file ∧
  ¬ reports_error (load_board negative_file) ∧
  (∃ s, load_board negative_file = Ok s ∧ get s "A1" = Some {[-1]}) ∧
  length (example_file ++ ["7"]) = 82%nat ∧
  load_board (example_file ++ ["7"]) = load_board example_file ∧
  is_ok (load_board example_file) = true.
Proof.
  assert (match load_board negative_file with
          | Ok s => get s "A1"
          | _ => None
          end = Some {[-1]}) as Hneg by (vm_compute; reflexivity).
  split_and!.
  - vm_compute; reflexivity.
  - unfold malformed_value. lia.
  - apply list_elem_of_here.
  - intros [e He]. rewrite He in Hneg. clear He. discriminate Hneg.
  - destruct (load_board negative_file) as [s| |]; [|discriminate Hneg..].
    exists s. split; [reflexivity|exact Hneg].
  - vm_compute; reflexivity.
  - assert (read_lines 81 (example_file ++ ["7"]) = read_lines 81 example_file) as Hr
      by (vm_compute; reflexivity).
    pose proof (load_board_reads (example_file ++ ["7"])) as [-> _].
    pose proof (load_board_reads example_file) as [-> _].
    rewrite Hr. reflexivity.
  - vm_compute; reflexivity.
Qed.

(** ** An over-constrained grid *)

Lemma first_row_constraint : first_row ∈ constraints.
Proof. apply (bool_decide_unpack _); vm_compute; exact I. Qed.

(** C2 fails on the code: [A1] and [B1], both in the first row, are given
    5, and [solve] returns a board, not [None]. *)
Theorem solve_over_constrained_returns_board :
  is_ok (load_board over_constrained_file) = true ∧
  get over_constrained_board "A1" = Some {[5]} ∧
  get over_constrained_board "B1" = Some {[5]} ∧
  first_row ∈ constraints ∧ "A1" ∈ first_row ∧ "B1" ∈ first_row ∧
  (∃ r, solve over_constrained_board = Ok (Some r) ∧ render r = over_constrained_result) ∧
  solve over_constrained_board ≠ Ok None.
Proof.
  assert (match solve over_constrained_board with
          | Ok (Some r) => Some (render r)
          | _ => None
          end = Some over_constrained_result) as H by (vm_compute; reflexivity).
  split_and!.
  - vm_compute; reflexivity.
  - vm_compute; reflexivity.
  - vm_compute; reflexivity.
  - apply first_row_constraint.
  - apply list_elem_of_here.
  - apply list_elem_of_further, list_elem_of_here.
  - destruct (solve over_constrained_board) as [[r|]| |]; [|discriminate H..].
    exists r. split; [reflexivity|]. injection H as H. exact H.
  - intros Hnone. rewrite Hnone in H. clear Hnone. discriminate H.
Qed.

(** C1 fails on the code: the board that [solve] returns for that grid has
    no candidate in [B1], and no cell of its first row holds 3. *)
Theorem solve_returns_partial_board :
  ∃ r, solve over_constrained_board = Ok (Some r) ∧
    get r "B1" = Some ∅ ∧
    first_row ∈ constraints ∧
    ∀ c, c ∈ first_row → get r c ≠ Some {[3]}.
Proof.
  assert (match solve over_constrained_board with
          | Ok (Some r) =>
              bool_decide (get r "B1" = Some ∅) &&
              bool_decide (Forall (fun c => get r c ≠ Some {[3]}) first_row)
          | _ => false
          end = true) as H by (vm_compute; reflexivity).
  destruct (solve over_constrained_board) as [[r|]| |]; [|discriminate H..].
  apply andb_true_iff in H as [H1 H2].
  apply bool_decide_eq_true in H1, H2.
  exists r. split_and!; [reflexivity|exact H1|apply first_row_constraint|].
  by apply Forall_forall.
Qed.

(** ** What a returned board satisfies *)

Lemma shrinks_peers_lack s s' a v : shrinks s s' → peers_lack s a v → peers_lack s' a v.
Proof.
  intros [Hkeys Hsub] H constraint b Y' Hg Ha Hb Hne HY'.
  destruct (keys_get_Some s b) as [Y HY].
  { rewrite <- Hkeys. by eapply get_Some_keys. }
  specialize (H constraint b Y Hg Ha Hb Hne HY).
  specialize (Hsub b Y Y' HY HY'). intros Hv. apply H. by apply Hsub.
Qed.

Lemma shrinks_refl s : shrinks s s.
Proof. split; [done|]. intros k X X' H1 H2. assert (X = X') as -> by congruence. done. Qed.

Lemma cascade_shrinks s b s' : cascade s b s' → shrinks s s'.
Proof. intros H. eapply removals_shrinks, cascade_removals, H. Qed.

Lemma shrinks_trans s1 s2 s3 : shrinks s1 s2 → shrinks s2 s3 → shrinks s1 s3.
Proof.
  intros [Hk1 H1] [Hk2 H2]. split; [congruence|].
  intros k X X'' HX HX''.
  destruct (keys_get_Some s2 k) as [X' HX'].
  { rewrite Hk1. by eapply get_Some_keys. }
  specialize (H1 _ _ _ HX HX'). specialize (H2 _ _ _ HX' HX''). set_solver.
Qed.

Lemma discard_shrinks s key X value :
  get s key = Some X → shrinks s (discard s key X value).
Proof.
  intros Hget. split; [by eapply keys_discard|].
  intros k Y Y' HY HY'.
  destruct (get_discard_subseteq _ _ _ _ _ _ Hget HY') as (Y0 & HY0 & Hsub).
  assert (Y0 = Y) as -> by congruence. done.
Qed.

Lemma not_elem_of_subseteq (X Y : gset Z) v : Y ⊆ X → v ∉ X → v ∉ Y.
Proof. set_solver. Qed.

Lemma not_elem_of_subseteq_discard (X Y : gset Z) v : Y ⊆ X ∖ {[v]} → v ∉ Y.
Proof.
  intros Hsub Hv. apply Hsub, elem_of_difference in Hv as [_ Hv].
  by apply Hv, elem_of_singleton.
Qed.

(** A subset of a singleton that is a singleton is that singleton. *)
Lemma singleton_subseteq_singleton (v w : Z) : ({[v]} : gset Z) ⊆ {[w]} → v = w.
Proof. set_solver. Qed.

Lemma shrinks_singleton s s' k v w :
  shrinks s s' → get s k = Some {[w]} → get s' k = Some {[v]} → v = w.
Proof.
  intros [_ Hsub] Hk Hk'. apply singleton_subseteq_singleton. by eapply Hsub.
Qed.

Section CascadeSettles.
Variable self : store → cell → Z → outcome (bool * store).
Hypothesis self_cascade : ∀ s var value b s',
  self s var value = Ok (b, s') → cascade s b s'.
Hypothesis self_settles : ∀ s var value s',
  self s var value = Ok (true, s') → settles s var value s'.
Variable var : cell.
Variable value : Z.

Lemma propagate_peers_settles peers : ∀ s s',
  propagate_peers self var value peers s = Ok (true, s') →
  (∀ b Y, b ∈ peers → b ≠ var → get s' b = Some Y → value ∉ Y) ∧
  ∀ a v, get s' a = Some {[v]} →
    (get s a = Some {[v]} → peers_lack s a v) → peers_lack s' a v.
Proof.
  induction peers as [|peer rest IH]; intros s s' H.
  { simpl in H. injection H as <-. split; [|auto].
    intros b Y Hb. by apply elem_of_nil in Hb. }
  pose proof (propagate_peers_cascade self self_cascade var value _ _ _ _ H) as Hall.
  simpl in H.
  destruct (decide (peer = var)) as [Heq|Hne].
  { destruct (IH _ _ H) as [Hi Hii]. split; [|done].
    intros b Y [->|Hb]%elem_of_cons; [done|eauto]. }
  step_bind H. apply lookup_cell_Ok in Ha. rename a into X.
  destruct (decide (value ∈ X)) as [Hin|Hnin].
  2:{ destruct (IH _ _ H) as [Hi Hii]. split; [|done].
      intros b Y [->|Hb]%elem_of_cons Hb' HY; [|eauto].
      destruct (cascade_shrinks _ _ _ Hall) as [_ Hsub].
      specialize (Hsub _ _ _ Ha HY). by eapply not_elem_of_subseteq. }
  pose proof (discard_shrinks s peer X value Ha) as Hsh1.
  assert (∀ s2, shrinks (discard s peer X value) s2 →
    ∀ Y, get s2 peer = Some Y → value ∉ Y) as Hpeer.
  { intros s2 [_ Hsub] Y HY.
    specialize (Hsub peer _ _ (get_discard_eq s peer X value) HY).
    by eapply not_elem_of_subseteq_discard. }
  destruct (decide (size (X ∖ {[value]}) = 0%nat)) as [H0|H0]; [done|].
  destruct (decide (size (X ∖ {[value]}) = 1%nat)) as [H1|H1].
  - destruct (next_iter_singleton _ H1) as (nv & Hnv & HX').
    rewrite Hnv in H. simpl in H. step_bind H. destruct a as [ok s2].
    destruct ok; [|done].
    pose proof (self_cascade _ _ _ _ _ Ha0) as Hc2.
    destruct (self_settles _ _ _ _ Ha0) as [Hpeer2 Hii2].
    destruct (IH _ _ H) as [Hi Hii]. split.
    + intros b Y [->|Hb]%elem_of_cons Hb' HY; [|eauto].
      apply (Hpeer s'); [|done].
      eapply shrinks_trans; [by eapply cascade_shrinks|].
      eapply cascade_shrinks, propagate_peers_cascade; eauto.
    + intros a v Ha' Hs. apply Hii; [done|]. intros Ha2.
      destruct (decide (a = peer)) as [->|Hap].
      * assert (v = nv) as ->; [|done].
        eapply shrinks_singleton; [by eapply cascade_shrinks| |done].
        by rewrite get_discard_eq, HX'.
      * apply Hii2; [done|]. intros Ha1.
        rewrite get_discard_ne in Ha1 by done.
        eapply shrinks_peers_lack; eauto.
  - destruct (IH _ _ H) as [Hi Hii]. split.
    + intros b Y [->|Hb]%elem_of_cons Hb' HY; [|eauto].
      apply (Hpeer s'); [|done]. eapply cascade_shrinks, propagate_peers_cascade; eauto.
    + intros a v Ha' Hs. apply Hii; [done|]. intros Ha1.
      destruct (decide (a = peer)) as [->|Hap].
      * rewrite get_discard_eq in Ha1. injection Ha1 as Ha1.
        rewrite Ha1, size_singleton in H1. done.
      * rewrite get_discard_ne in Ha1 by done.
        eapply shrinks_peers_lack; eauto.
Qed.

Lemma propagate_groups_settles cs : ∀ s s',
  propagate_groups self var value cs s = Ok (true, s') →
  (∀ constraint b Y, constraint ∈ cs → var ∈ constraint → b ∈ constraint →
     b ≠ var → get s' b = Some Y → value ∉ Y) ∧
  ∀ a v, get s' a = Some {[v]} →
    (get s a = Some {[v]} → peers_lack s a v) → peers_lack s' a v.
Proof.
  induction cs as [|constraint rest IH]; intros s s' H.
  { simpl in H. injection H as <-. split; [|auto].
    intros g b Y Hg. by apply elem_of_nil in Hg. }
  simpl in H. destruct (decide (var ∈ constraint)) as [Hvar|Hvar].
  2:{ destruct (IH _ _ H) as [Hi Hii]. split; [|done].
      intros g b Y [->|Hg]%elem_of_cons; [done|eauto]. }
  step_bind H. destruct a as [ok s1]. destruct ok; [|done].
  destruct (propagate_peers_settles _ _ _ Ha) as [Hi1 Hii1].
  destruct (IH _ _ H) as [Hi Hii].
  pose proof (propagate_groups_cascade self self_cascade var value _ _ _ _ H) as Hc.
  split.
  - intros g b Y [->|Hg]%elem_of_cons Hv Hb Hne HY; [|eauto].
    destruct (cascade_shrinks _ _ _ Hc) as [Hkeys Hsub].
    destruct (keys_get_Some s1 b) as [Y1 HY1].
    { rewrite <- Hkeys. by eapply get_Some_keys. }
    specialize (Hi1 b Y1 Hb Hne HY1). specialize (Hsub _ _ _ HY1 HY).
    by eapply not_elem_of_subseteq.
  - intros a v Ha' Hs. apply Hii; [done|]. intros Ha1. by apply Hii1.
Qed.
End CascadeSettles.

Lemma propagate_fuel_settles fuel : ∀ s var value s',
  propagate_fuel fuel s var value = Ok (true, s') → settles s var value s'.
Proof.
  induction fuel as [|fuel IH]; intros s var value s' H; [done|].
  rewrite propagate_fuel_S in H.
  destruct (propagate_groups_settles _ (propagate_fuel_cascade fuel) IH _ _ _ _ _ H)
    as [Hi Hii].
  split; [|done]. intros constraint b Y Hg Hv Hb Hne HY. eauto.
Qed.

(** *** The board after the fixpoint propagator *)

Lemma remove_from_peers_clean cellId v peers : ∀ s dirty s',
  remove_from_peers cellId v peers s dirty = Ok (s', false) →
  s' = s ∧ dirty = false ∧
  ∀ key Y, key ∈ peers → key ≠ cellId → get s key = Some Y → v ∉ Y.
Proof.
  induction peers as [|key rest IH]; intros s dirty s' H.
  { simpl in H. injection H as <- <-. split_and!; [done..|].
    intros key Y Hkey. by apply elem_of_nil in Hkey. }
  pose proof (remove_from_peers_scanned _ _ _ _ _ _ _ H) as [_ [-> ->]].
  simpl in H. split_and!; [done..|].
  destruct (decide (key = cellId)) as [Heq|Hne].
  { destruct (IH _ _ _ H) as (_ & _ & Hrest).
    intros k Y [->|Hk]%elem_of_cons; [done|eauto]. }
  step_bind H. apply lookup_cell_Ok in Ha. rename a into X.
  destruct (decide (v ∈ X)) as [Hin|Hnin].
  { by destruct (IH _ _ _ H) as (_ & [=] & _). }
  destruct (IH _ _ _ H) as (_ & _ & Hrest).
  intros k Y [->|Hk]%elem_of_cons Hk' HY; [|eauto].
  assert (Y = X) as -> by congruence. done.
Qed.

Lemma scan_cells_clean constraint cells : ∀ s dirty s',
  scan_cells constraint cells s dirty = Ok (s', false) →
  s' = s ∧ dirty = false ∧
  ∀ a v key Y, a ∈ cells → get s a = Some {[v]} →
    key ∈ constraint → key ≠ a → get s key = Some Y → v ∉ Y.
Proof.
  induction cells as [|cellId rest IH]; intros s dirty s' H.
  { simpl in H. injection H as <- <-. split_and!; [done..|].
    intros a v key Y Ha. by apply elem_of_nil in Ha. }
  pose proof (scan_cells_scanned _ _ _ _ _ _ H) as [_ [-> ->]].
  simpl in H. split_and!; [done..|].
  step_bind H. apply lookup_cell_Ok in Ha. rename a into X.
  destruct (decide (size X = 1%nat)) as [H1|H1].
  - destruct (next_iter_singleton _ H1) as (w & Hw & ->).
    rewrite Hw in H. simpl in H. step_bind H. destruct a as [s1 d1].
    destruct (IH _ _ _ H) as (-> & -> & Hrest).
    destruct (remove_from_peers_clean _ _ _ _ _ _ Ha0) as (_ & _ & Hpeers).
    intros a v key Y [->|Hin]%elem_of_cons Hget Hkey Hne HY; [|eauto].
    assert (v = w) as ->.
    { apply singleton_subseteq_singleton. assert (({[v]} : gset Z) = {[w]}) as -> by congruence. done. }
    eauto.
  - destruct (IH _ _ _ H) as (_ & _ & Hrest).
    intros a v key Y [->|Hin]%elem_of_cons Hget Hkey Hne HY; [|eauto].
    assert (X = {[v]}) as -> by congruence. by rewrite size_singleton in H1.
Qed.

Lemma scan_constraints_clean cs : ∀ s dirty s',
  scan_constraints cs s dirty = Ok (s', false) →
  s' = s ∧ dirty = false ∧
  ∀ constraint a v key Y, constraint ∈ cs → a ∈ constraint → get s a = Some {[v]} →
    key ∈ constraint → key ≠ a → get s key = Some Y → v ∉ Y.
Proof.
  induction cs as [|constraint rest IH]; intros s dirty s' H.
  { simpl in H. injection H as <- <-. split_and!; [done..|].
    intros g a v key Y Hg. by apply elem_of_nil in Hg. }
  pose proof (scan_constraints_scanned _ _ _ _ _ H) as [_ [-> ->]].
  simpl in H. split_and!; [done..|].
  step_bind H. destruct a as [s1 d1].
  destruct (IH _ _ _ H) as (-> & -> & Hrest).
  destruct (scan_cells_clean _ _ _ _ _ Ha) as (_ & _ & Hcells).
  intros g a v key Y [->|Hg]%elem_of_cons; eauto.
Qed.

(** A board on which a turn of [apply_constraints] removes nothing is
    consistent. *)
Lemma fixpoint_consistent r : pass r = Ok (r, false) → consistent r.
Proof.
  intros H. destruct (scan_constraints_clean _ _ _ _ H) as (_ & _ & Hall).
  intros a v Hget constraint b Y Hg Ha Hb Hne HY. eauto.
Qed.

(** *** The board after the search *)

Lemma elem_of_iter_set (X : gset Z) v : v ∈ iter_set X ↔ v ∈ X.
Proof. unfold iter_set. rewrite merge_sort_Permutation. apply elem_of_elements. Qed.

Lemma assign_shrinks s chosen X value :
  get s chosen = Some X → value ∈ X → shrinks s (put s chosen {[value]}).
Proof.
  intros Hget Hin. split; [by eapply keys_put|].
  intros k Y Y' HY HY'. destruct (decide (chosen = k)) as [<-|Hne].
  - rewrite get_put_eq in HY'. assert (Y = X) as -> by congruence.
    assert (Y' = {[value]}) as -> by congruence. by apply singleton_subseteq_l.
  - rewrite get_put_ne in HY' by done. assert (Y = Y') as -> by congruence. done.
Qed.

Lemma assign_keeps_nonempty s chosen X value :
  get s chosen = Some X → keeps_nonempty s (put s chosen {[value]}).
Proof.
  intros Hget k Y HY Hne. destruct (decide (chosen = k)) as [<-|Hk].
  - exists {[value]}. rewrite get_put_eq. split; [done|].
    intros He. assert (value ∈ (∅ : gset Z)) as Hv by (rewrite <- He; by apply elem_of_singleton).
    by apply not_elem_of_empty in Hv.
  - exists Y. by rewrite get_put_ne.
Qed.

Section SearchSound.
Variable self : store → outcome (option store).
Hypothesis self_searched : ∀ s r, self s = Ok (Some r) → searched s r.
Variable s : store.
Variable chosen : cell.
Variable X : gset Z.
Hypothesis chosen_candidates : get s chosen = Some X.

Lemma try_values_searched values : ∀ r,
  (∀ value, value ∈ values → value ∈ X) →
  try_values self s chosen values = Ok (Some r) → searched s r.
Proof.
  induction values as [|value rest IH]; intros r Hvalues H; [done|].
  assert (∀ v, v ∈ rest → v ∈ X) as Hrest
    by (intros v Hv; apply Hvalues; by apply list_elem_of_further).
  assert (value ∈ X) as Hin by apply Hvalues, list_elem_of_here.
  simpl in H. rewrite copy_store_id in H.
  step_bind H. destruct a as [ok s2]. destruct ok; [|eauto].
  step_bind H. rename a into result.
  destruct (truthy result) eqn:Htruthy; [|eauto].
  injection H as ->. destruct (self_searched _ _ Ha0) as (Hsh & Hne & Hsizes & Hcons).
  pose proof (propagate_fuel_cascade _ _ _ _ _ _ Ha) as Hc.
  pose proof (propagate_fuel_settles _ _ _ _ _ Ha) as [Hpeers Hsettled].
  pose proof (assign_shrinks s chosen X value chosen_candidates Hin) as Hsh0.
  split_and!.
  - eapply shrinks_trans; [exact Hsh0|].
    eapply shrinks_trans; [by eapply cascade_shrinks|done].
  - intros k Y HY HYne.
    destruct (assign_keeps_nonempty s chosen X value chosen_candidates k Y HY HYne)
      as (Y1 & HY1 & HY1ne).
    destruct (cascade_true_nonempty _ _ Hc k Y1 HY1 HY1ne) as (Y2 & HY2 & HY2ne).
    eauto.
  - done.
  - intros Hs. apply Hcons. intros a v Ha'.
    destruct (decide (a = chosen)) as [->|Hne'].
    + assert (v = value) as ->; [|done].
      eapply shrinks_singleton; [by eapply cascade_shrinks| |done].
      apply get_put_eq.
    + apply Hsettled; [done|]. intros Ha1.
      rewrite get_put_ne in Ha1 by done.
      eapply shrinks_peers_lack; [exact Hsh0|]. by apply Hs.
Qed.
End SearchSound.

Lemma look_forward_fuel_searched fuel : ∀ s r,
  look_forward_fuel fuel s = Ok (Some r) → searched s r.
Proof.
  induction fuel as [|fuel IH]; intros s r H; [done|].
  rewrite look_forward_fuel_S in H.
  destruct (choose s) as [chosen|] eqn:Hchoose.
  - step_bind H. apply lookup_cell_Ok in Ha. rename a into X.
    eapply try_values_searched; [exact IH|exact Ha| |exact H].
    intros value. by rewrite elem_of_iter_set.
  - injection H as <-. split_and!; [apply shrinks_refl| |by apply choose_None|done].
    intros k X HX Hne. eauto.
Qed.

Lemma solve_searched s r :
  solve s = Ok (Some r) →
  shrinks s r ∧ (∀ e, e ∈ r → (size e.2 ≤ 1)%nat) ∧ consistent r ∧
  ∃ s1, apply_constraints s = Ok s1 ∧ keeps_nonempty s1 r.
Proof.
  unfold solve. intros H. step_bind H. rename a into s1.
  destruct (look_forward_fuel_searched _ _ _ H) as (Hsh & Hne & Hsizes & Hcons).
  split_and!.
  - eapply shrinks_trans; [|exact Hsh].
    by apply removals_shrinks, apply_constraints_removals.
  - done.
  - by eapply Hcons, fixpoint_consistent, apply_constraints_fixpoint.
  - eauto.
Qed.

(** What [solve] guarantees for the board it returns: every cell has at
    most one candidate, taken from its candidates at the start; no two cells
    of a group hold the same value; and a cell is empty only if the fixpoint
    propagator had emptied it. *)
Theorem solve_sound s r :
  solve s = Ok (Some r) →
  shrinks s r ∧ (∀ e, e ∈ r → (size e.2 ≤ 1)%nat) ∧ consistent r ∧
  ∃ s1, apply_constraints s = Ok s1 ∧ keeps_nonempty s1 r.
Proof. exact (solve_searched s r). Qed.

Lemma constraints_shape :
  Forall (fun constraint => NoDup constraint ∧ length constraint = 9%nat) constraints.
Proof. apply (bool_decide_unpack _); vm_compute; exact I. Qed.

Lemma size_le_1_nonempty (X : gset Z) : (size X ≤ 1)%nat → X ≠ ∅ → ∃ v, X = {[v]}.
Proof.
  intros Hle Hne. assert (size X ≠ 0%nat) as H0 by by rewrite size_0_empty.
  assert (size X = 1%nat) as H1 by lia.
  apply size_1_elem_of in H1 as [v Hv]. exists v. by apply leibniz_equiv.
Qed.

Lemma elem_of_one_to_nine (v : Z) : v ∈ [1; 2; 3; 4; 5; 6; 7; 8; 9] ↔ 1 ≤ v ≤ 9.
Proof. rewrite !elem_of_cons, elem_of_nil. lia. Qed.

Lemma value_of_singleton s c v : get s c = Some {[v]} → value_of s c = v.
Proof. unfold value_of. intros ->. by rewrite elements_singleton. Qed.

(** A board whose cells all hold exactly one value from 1 to 9, and that is
    consistent, has every value from 1 to 9 exactly once in every group. *)
Lemma consistent_complete r :
  consistent r →
  (∀ constraint c, constraint ∈ constraints → c ∈ constraint →
     ∃ v, get r c = Some {[v]} ∧ 1 ≤ v ≤ 9) →
  ∀ constraint v, constraint ∈ constraints → 1 ≤ v ≤ 9 →
    ∃ c, c ∈ constraint ∧ get r c = Some {[v]} ∧
      ∀ c', c' ∈ constraint → get r c' = Some {[v]} → c' = c.
Proof.
  intros Hcons Hcells constraint v Hg Hv.
  pose proof constraints_shape as Hshape. rewrite Forall_forall in Hshape.
  destruct (Hshape _ Hg) as [Hnd Hlen].
  assert (∀ a b, a ∈ constraint → b ∈ constraint →
    value_of r a = value_of r b → a = b) as Hinj.
  { intros a b Ha Hb Hab. destruct (decide (a = b)) as [|Hne]; [done|]. exfalso.
    destruct (Hcells _ _ Hg Ha) as (va & Hva & _).
    destruct (Hcells _ _ Hg Hb) as (vb & Hvb & _).
    rewrite (value_of_singleton _ _ _ Hva), (value_of_singleton _ _ _ Hvb) in Hab.
    subst vb. apply (Hcons a va Hva constraint b {[va]} Hg Ha Hb); [done|done|].
    by apply elem_of_singleton. }
  pose proof (NoDup_fmap_2_strong (value_of r) constraint Hinj Hnd) as Hnd'.
  assert (∀ x, x ∈ value_of r <$> constraint → x ∈ [1; 2; 3; 4; 5; 6; 7; 8; 9]) as Hsub.
  { intros x (c & -> & Hc)%list_elem_of_fmap.
    destruct (Hcells _ _ Hg Hc) as (vc & Hvc & Hrange).
    rewrite (value_of_singleton _ _ _ Hvc). by apply elem_of_one_to_nine. }
  pose proof (NoDup_submseteq _ _ Hnd' Hsub) as Hsubm.
  apply submseteq_length_Permutation in Hsubm;
    [|rewrite length_fmap, Hlen; simpl; lia].
  assert (v ∈ value_of r <$> constraint) as Hin.
  { rewrite Hsubm. by apply elem_of_one_to_nine. }
  apply list_elem_of_fmap in Hin as (c & Hvc & Hc).
  destruct (Hcells _ _ Hg Hc) as (vc & Hget & _).
  rewrite (value_of_singleton _ _ _ Hget) in Hvc. subst vc.
  exists c. split_and!; [done|done|].
  intros c' Hc' Hget'. apply Hinj; [done|done|].
  by rewrite (value_of_singleton _ _ _ Hget), (value_of_singleton _ _ _ Hget').
Qed.

(** When the givens are values from 1 to 9 and the board that [solve]
    returns has no empty cell, that board is a solution: every group has
    every value from 1 to 9 in exactly one cell. *)
Theorem solve_complete s r :
  well_formed s →
  (∀ k X, get s k = Some X → X ⊆ full_set) →
  solve s = Ok (Some r) →
  (∀ e, e ∈ r → e.2 ≠ ∅) →
  ∀ constraint v, constraint ∈ constraints → 1 ≤ v ≤ 9 →
    ∃ c, c ∈ constraint ∧ get r c = Some {[v]} ∧
      ∀ c', c' ∈ constraint → get r c' = Some {[v]} → c' = c.
Proof.
  intros Hwf Hfull Hsolve Hfilled.
  destruct (solve_searched _ _ Hsolve) as ([Hkeys Hsub] & Hsizes & Hcons & _).
  apply consistent_complete; [done|].
  intros constraint c Hg Hc.
  assert (c ∈ keys s) as Hk by by eapply well_formed_covers.
  destruct (keys_get_Some s c Hk) as [X0 HX0].
  destruct (keys_get_Some r c) as [X HX]; [by rewrite Hkeys|].
  pose proof (get_elem_of _ _ _ HX) as Hin.
  destruct (size_le_1_nonempty X (Hsizes _ Hin) (Hfilled _ Hin)) as [v ->].
  exists v. split; [done|].
  assert (v ∈ full_set) as Hv.
  { apply (Hfull _ _ HX0), (Hsub _ _ _ HX0 HX). by apply elem_of_singleton. }
  unfold full_set in Hv. rewrite elem_of_list_to_set in Hv.
  by apply elem_of_one_to_nine.
Qed.

(** ** The boards as values and the boards as objects agree *)

Lemma represents_view h d s : represents h d s → Heap.view h d = Ok s.
Proof. intros (entries & Hd & _ & Hv). unfold Heap.view. by rewrite Hd. Qed.

Lemma view_entries_cons h k l rest s :
  Heap.view_entries h ((k, l) :: rest) = Ok s →
  ∃ X s', s = (k, X) :: s' ∧ Heap.read_set h l = Ok X ∧ Heap.view_entries h rest = Ok s'.
Proof.
  simpl. intros H. step_bind H. step_bind H. injection H as <-. eauto.
Qed.

Lemma view_entries_get h entries : ∀ s k,
  Heap.view_entries h entries = Ok s →
  match Heap.dict_get entries k with
  | Some l => ∃ X, get s k = Some X ∧ Heap.read_set h l = Ok X
  | None => get s k = None
  end.
Proof.
  induction entries as [|[k0 l0] rest IH]; intros s k H.
  { simpl in H. by injection H as <-. }
  apply view_entries_cons in H as (X & s' & -> & Hl & Hrest). simpl.
  destruct (decide (k0 = k)) as [_|_]; [eauto|]. by apply IH.
Qed.

Lemma represents_lookup h d s k :
  represents h d s →
  match get s k with
  | Some X => ∃ l, Heap.lookup_set h d k = Ok (l, X)
  | None => Heap.lookup_set h d k = Raise (KeyError k)
  end.
Proof.
  intros (entries & Hd & _ & Hv). unfold Heap.lookup_set. rewrite Hd. simpl.
  pose proof (view_entries_get _ _ _ k Hv) as H.
  destruct (Heap.dict_get entries k) as [l|].
  - destruct H as (X & -> & ->). eauto.
  - by rewrite H.
Qed.

Lemma read_set_insert_ne h l l' o :
  l ≠ l' → Heap.read_set (<[l := o]> h) l' = Heap.read_set h l'.
Proof. intros Hne. unfold Heap.read_set. by rewrite list_lookup_insert_ne. Qed.

Lemma view_entries_insert_fresh h entries l o :
  l ∉ entries.*2 →
  Heap.view_entries (<[l := o]> h) entries = Heap.view_entries h entries.
Proof.
  induction entries as [|[k0 l0] rest IH]; intros Hl; [done|].
  simpl in *. apply not_elem_of_cons in Hl as [Hne Hl].
  rewrite read_set_insert_ne by done. by rewrite IH.
Qed.

Lemma view_entries_update h entries : ∀ s k l X X',
  NoDup entries.*2 → Heap.view_entries h entries = Ok s →
  Heap.dict_get entries k = Some l → Heap.read_set h l = Ok X →
  Heap.view_entries (<[l := Heap.SetObj X']> h) entries = Ok (put s k X').
Proof.
  induction entries as [|[k0 l0] rest IH]; intros s k l X X' Hnd Hv Hk Hl; [done|].
  apply view_entries_cons in Hv as (X0 & s' & -> & Hl0 & Hrest).
  simpl in Hnd. apply NoDup_cons in Hnd as [Hl0' Hnd].
  simpl in Hk. simpl. destruct (decide (k0 = k)) as [->|Hne].
  - injection Hk as ->. rewrite view_entries_insert_fresh, Hrest by done.
    unfold Heap.read_set at 1. rewrite list_lookup_insert_eq; [done|].
    unfold Heap.read_set in Hl. destruct (h !! l) eqn:Hhl; [|done].
    by eapply lookup_lt_Some.
  - assert (l ∈ rest.*2) as Hin.
    { clear -Hk. induction rest as [|[k1 l1] rest IH]; [done|]. simpl in *.
      destruct (decide (k1 = k)); [injection Hk as ->; apply list_elem_of_here|].
      apply list_elem_of_further. auto. }
    rewrite read_set_insert_ne, Hl0 by (intros ->; done). simpl.
    by rewrite (IH _ _ _ _ _ Hnd Hrest Hk Hl).
Qed.

Lemma represents_update h d s k l X X' :
  represents h d s → Heap.lookup_set h d k = Ok (l, X) →
  represents (<[l := Heap.SetObj X']> h) d (put s k X').
Proof.
  intros (entries & Hd & Hnd & Hv) Hlookup.
  pose proof (only_sets_of_update h d k l X X' Hlookup) as (_ & Hd' & _).
  apply lookup_set_Ok in Hlookup as (entries0 & Hd0 & Hk & Hl).
  assert (entries0 = entries) as -> by congruence.
  exists entries. split_and!; [|done|by eapply view_entries_update].
  by rewrite (read_dict_agree _ _ _ Hd').
Qed.

Lemma represents_preserved h h' d s : preserved h h' → represents h d s → represents h' d s.
Proof.
  intros Hpres (entries & Hd & Hnd & Hv). exists entries. split_and!; [|done|].
  - unfold Heap.read_dict in *. destruct (h !! d) as [o|] eqn:Ho; [|done].
    destruct Hpres as [_ Hp]. rewrite Hp, Ho by (by eapply lookup_lt_Some). done.
  - by eapply view_entries_preserved.
Qed.

Section CascadeAgrees.
Variable self : store → cell → Z → outcome (bool * store).
Variable self_h : list Heap.object → nat → cell → Z → outcome (bool * list Heap.object).
Hypothesis self_agree : ∀ h d s var value,
  represents h d s → agree_cascade d (self s var value) (self_h h d var value).
Variable d : nat.
Variable var : cell.
Variable value : Z.

Lemma propagate_peers_agree peers : ∀ h s,
  represents h d s →
  agree_cascade d (propagate_peers self var value peers s)
    (Heap.propagate_peers self_h d var value peers h).
Proof.
  induction peers as [|peer rest IH]; intros h s Hrep; simpl; [done|].
  destruct (decide (peer = var)) as [_|_]; [by apply IH|].
  pose proof (represents_lookup h d s peer Hrep) as Hlook.
  unfold lookup_cell. destruct (get s peer) as [X|].
  2:{ rewrite Hlook. done. }
  destruct Hlook as [l Hl]. rewrite Hl. simpl.
  destruct (decide (value ∈ X)) as [_|_]; [|by apply IH].
  pose proof (represents_update h d s peer l X (X ∖ {[value]}) Hrep Hl) as Hrep1.
  destruct (decide (size (X ∖ {[value]}) = 0%nat)) as [_|_]; [done|].
  destruct (decide (size (X ∖ {[value]}) = 1%nat)) as [_|_]; [|by apply IH].
  destruct (next_iter (X ∖ {[value]})) as [nv| |]; simpl; [|done..].
  pose proof (self_agree _ _ _ peer nv Hrep1) as Hself. unfold discard.
  destruct (self (put s peer (X ∖ {[value]})) peer nv) as [[b s2]| |],
    (self_h (<[l:=Heap.SetObj (X ∖ {[value]})]> h) d peer nv) as [[b' h2]| |];
    simpl in *; try done.
  destruct Hself as [<- Hrep2]. destruct b; [by apply IH|done].
Qed.

Lemma propagate_groups_agree cs : ∀ h s,
  represents h d s →
  agree_cascade d (propagate_groups self var value cs s)
    (Heap.propagate_groups self_h d var value cs h).
Proof.
  induction cs as [|constraint rest IH]; intros h s Hrep; simpl; [done|].
  destruct (decide (var ∈ constraint)) as [_|_]; [|by apply IH].
  pose proof (propagate_peers_agree constraint h s Hrep) as Hpeers.
  destruct (propagate_peers self var value constraint s) as [[b s1]| |],
    (Heap.propagate_peers self_h d var value constraint h) as [[b' h1]| |];
    simpl in *; try done.
  destruct Hpeers as [<- Hrep1]. destruct b; [by apply IH|done].
Qed.
End CascadeAgrees.

Lemma propagate_fuel_agree fuel : ∀ h d s var value,
  represents h d s →
  agree_cascade d (propagate_fuel fuel s var value) (Heap.propagate_fuel fuel h d var value).
Proof.
  induction fuel as [|fuel IH]; intros h d s var value Hrep; [done|].
  rewrite propagate_fuel_S, heap_propagate_fuel_S.
  by apply propagate_groups_agree.
Qed.

Lemma propagate_constraints_agree h d s var value :
  represents h d s →
  agree_cascade d (propagate_constraints s var value)
    (Heap.propagate_constraints h d var value).
Proof.
  intros Hrep. unfold propagate_constraints, Heap.propagate_constraints.
  rewrite (represents_view _ _ _ Hrep), bind_Ok_l. by apply propagate_fuel_agree.
Qed.

Lemma read_set_preserved h h' l X :
  preserved h h' → Heap.read_set h l = Ok X → Heap.read_set h' l = Ok X.
Proof.
  intros [_ Hp] H. unfold Heap.read_set in *.
  destruct (h !! l) as [o|] eqn:Ho; [|done].
  by rewrite Hp, Ho by (by eapply lookup_lt_Some).
Qed.

Lemma copy_entries_represents entries : ∀ h s,
  Heap.view_entries h entries = Ok s →
  ∃ entries' h', Heap.copy_entries h entries = Ok (entries', h') ∧
    preserved h h' ∧ Heap.view_entries h' entries' = Ok s ∧ NoDup entries'.*2 ∧
    ∀ l, l ∈ entries'.*2 → (length h ≤ l < length h')%nat.
Proof.
  induction entries as [|[k l] rest IH]; intros h s Hv.
  { simpl in Hv. injection Hv as <-. exists [], h.
    split_and!; [done|apply preserved_refl|done|apply NoDup_nil_2|].
    intros l Hl. by apply elem_of_nil in Hl. }
  apply view_entries_cons in Hv as (X & s' & -> & Hl & Hrest).
  pose proof (preserved_alloc h (Heap.SetObj X)) as Halloc. simpl in Halloc.
  destruct (IH (h ++ [Heap.SetObj X]) s') as (rest' & h' & Hcopy & Hpres & Hv' & Hnd & Hrange).
  { by eapply view_entries_preserved. }
  exists ((k, length h) :: rest'), h'. simpl. rewrite Hl. simpl. rewrite Hcopy. simpl.
  assert (length (h ++ [Heap.SetObj X]) = S (length h)) as Hlen
    by (rewrite length_app; simpl; lia).
  split_and!.
  - done.
  - by eapply preserved_trans.
  - rewrite Hv'. rewrite (read_set_preserved (h ++ [Heap.SetObj X]) h' (length h) X Hpres).
    + done.
    + unfold Heap.read_set. by rewrite lookup_app_r, Nat.sub_diag by lia.
  - apply NoDup_cons. split; [|done]. intros Hin. apply Hrange in Hin. lia.
  - intros l0 [->|Hin]%elem_of_cons.
    + destruct Hpres as [Hle _]. lia.
    + apply Hrange in Hin. lia.
Qed.

Lemma view_entries_put h entries : ∀ s k l X,
  Heap.view_entries h entries = Ok s → Heap.read_set h l = Ok X →
  Heap.view_entries h (Heap.dict_put entries k l) = Ok (put s k X).
Proof.
  induction entries as [|[k0 l0] rest IH]; intros s k l X Hv Hl.
  { simpl in Hv. injection Hv as <-. simpl. by rewrite Hl. }
  apply view_entries_cons in Hv as (X0 & s' & -> & Hl0 & Hrest). simpl.
  destruct (decide (k0 = k)) as [->|Hne]; simpl.
  - by rewrite Hl, Hrest.
  - by rewrite Hl0, (IH _ _ _ _ Hrest Hl).
Qed.

Lemma dict_put_locs entries k l l' :
  l' ∈ (Heap.dict_put entries k l).*2 → l' = l ∨ l' ∈ entries.*2.
Proof.
  induction entries as [|[k0 l0] rest IH]; simpl.
  - intros [->|Hin]%elem_of_cons; [by left|by apply elem_of_nil in Hin].
  - destruct (decide (k0 = k)) as [->|Hne]; simpl.
    + intros [->|Hin]%elem_of_cons; [by left|right; by apply list_elem_of_further].
    + intros [->|Hin]%elem_of_cons; [right; apply list_elem_of_here|].
      destruct (IH Hin) as [->|Hin']; [by left|right; by apply list_elem_of_further].
Qed.

Lemma dict_put_NoDup entries k l :
  NoDup entries.*2 → l ∉ entries.*2 → NoDup (Heap.dict_put entries k l).*2.
Proof.
  induction entries as [|[k0 l0] rest IH]; simpl; intros Hnd Hl.
  - apply NoDup_singleton.
  - apply NoDup_cons in Hnd as [Hl0 Hnd]. apply not_elem_of_cons in Hl as [Hne Hl].
    destruct (decide (k0 = k)) as [->|Hk]; simpl.
    + apply NoDup_cons. done.
    + apply NoDup_cons. split; [|by apply IH].
      intros [->|Hin]%dict_put_locs; done.
Qed.

(** The board of a branch stands for the board with the value assigned. *)
Lemma new_branch_represents h d s chosen value :
  represents h d s →
  ∃ d' h', Heap.new_branch h d chosen value = Ok (d', h') ∧
    represents h' d' (put (copy_store s) chosen {[value]}).
Proof.
  intros (entries & Hd & _ & Hv). rewrite copy_store_id.
  destruct (copy_entries_represents entries h s Hv)
    as (entries' & h1 & Hcopy & Hpres1 & Hv1 & Hnd1 & Hrange).
  unfold Heap.new_branch. rewrite Hd, bind_Ok_l, Hcopy, bind_Ok_l. simpl.
  eexists _, _. split; [reflexivity|].
  set (h3 := <[length h1 := Heap.DictObj
    (Heap.dict_put entries' chosen (length (h1 ++ [Heap.DictObj entries'])))]>
    ((h1 ++ [Heap.DictObj entries']) ++ [Heap.SetObj {[value]}])).
  assert (length (h1 ++ [Heap.DictObj entries']) = S (length h1)) as Hlen
    by (rewrite length_app; simpl; lia).
  assert (preserved h1 h3) as Hpres3.
  { split.
    - unfold h3. rewrite length_insert, !length_app. simpl. lia.
    - intros l Hl. unfold h3. rewrite list_lookup_insert_ne by lia.
      rewrite <- app_assoc. by rewrite lookup_app_l. }
  exists (Heap.dict_put entries' chosen (length (h1 ++ [Heap.DictObj entries']))).
  split_and!.
  - unfold Heap.read_dict, h3. rewrite list_lookup_insert_eq; [done|].
    rewrite !length_app. simpl. lia.
  - apply dict_put_NoDup; [done|]. intros Hin. apply Hrange in Hin. lia.
  - apply view_entries_put; [by eapply view_entries_preserved|].
    unfold Heap.read_set, h3. rewrite list_lookup_insert_ne by lia.
    by rewrite lookup_app_r, Hlen, Nat.sub_diag by lia.
Qed.

Lemma view_entries_length h entries : ∀ s,
  Heap.view_entries h entries = Ok s → length s = length entries.
Proof.
  induction entries as [|[k l] rest IH]; intros s Hv.
  { simpl in Hv. by injection Hv as <-. }
  apply view_entries_cons in Hv as (X & s' & -> & _ & Hrest). simpl. f_equal. auto.
Qed.

Lemma represents_truthy h d s :
  represents h d s → Heap.truthy h (Some d) = Ok (truthy (Some s)).
Proof.
  intros (entries & Hd & _ & Hv). unfold Heap.truthy. rewrite Hd, bind_Ok_l.
  apply view_entries_length in Hv. by destruct s, entries.
Qed.

Section SearchAgrees.
Variable self : store → outcome (option store).
Variable self_h : list Heap.object → nat → outcome (option nat * list Heap.object).
Hypothesis self_agree : ∀ h d s, represents h d s → agree_search (self s) (self_h h d).
Hypothesis self_isolated : ∀ h d r h', self_h h d = Ok (r, h') → isolated h d r h'.
Variable d : nat.
Variable s : store.
Variable chosen : cell.

Lemma try_values_agree values : ∀ h,
  represents h d s →
  agree_search (try_values self s chosen values)
    (Heap.try_values self_h d chosen values h).
Proof.
  induction values as [|value rest IH]; intros h Hrep; [done|].
  cbn [try_values Heap.try_values].
  destruct (new_branch_represents h d s chosen value Hrep) as (d1 & h1 & Hnew & Hrep1).
  rewrite Hnew, bind_Ok_l.
  destruct (new_branch_fresh _ _ _ _ _ _ Hnew) as [Hpres1 Hfresh].
  pose proof (propagate_constraints_agree h1 d1 _ chosen value Hrep1) as Hprop.
  destruct (propagate_constraints _ chosen value) as [[b s2]| |],
    (Heap.propagate_constraints h1 d1 chosen value) as [[b' h2]| |] eqn:Hheap;
    try done.
  destruct Hprop as [<- Hrep2]. rewrite !bind_Ok_l.
  apply heap_propagate_constraints_frame in Hheap.
  pose proof (only_sets_of_fresh _ _ _ _ Hpres1 Hfresh Hheap) as Hpres2.
  destruct b.
  2:{ apply IH. by eapply represents_preserved. }
  pose proof (self_agree h2 d1 s2 Hrep2) as Hself.
  destruct (self s2) as [[r|]| |], (self_h h2 d1) as [[[d'|] h3]| |] eqn:Hrec;
    try done.
  - rewrite !bind_Ok_l, (represents_truthy _ _ _ Hself), bind_Ok_l.
    destruct (truthy (Some r)); [done|].
    apply IH. apply self_isolated in Hrec as [Hpres3 _].
    eapply represents_preserved; [|exact Hrep]. by eapply preserved_trans.
  - rewrite !bind_Ok_l. cbn [truthy Heap.truthy]. rewrite bind_Ok_l.
    apply IH. apply self_isolated in Hrec as [Hpres3 _].
    eapply represents_preserved; [|exact Hrep]. by eapply preserved_trans.
Qed.
End SearchAgrees.

Lemma look_forward_fuel_agree fuel : ∀ h d s,
  represents h d s →
  agree_search (look_forward_fuel fuel s) (Heap.look_forward_fuel fuel h d).
Proof.
  induction fuel as [|fuel IH]; intros h d s Hrep; [done|].
  rewrite look_forward_fuel_S, heap_look_forward_fuel_S.
  rewrite (represents_view _ _ _ Hrep), bind_Ok_l.
  destruct (choose s) as [chosen|]; [|done].
  pose proof (represents_lookup h d s chosen Hrep) as Hlook.
  unfold lookup_cell. destruct (get s chosen) as [X|]; [|by rewrite Hlook].
  destruct Hlook as [l Hl]. rewrite Hl, !bind_Ok_l.
  cbn [Heap.alloc].
  apply try_values_agree; [exact IH|apply heap_look_forward_fuel_isolated|].
  eapply represents_preserved; [|exact Hrep].
  apply (preserved_alloc h (Heap.SetObj X)).
Qed.

(** The model with boards as values and the model with objects compute the
    same: on a dictionary that stands for the board [s], [look_forward] and
    [propagate_constraints] end alike in both, and the results stand for
    each other. *)
Theorem models_agree h d s :
  represents h d s →
  agree_search (look_forward s) (Heap.look_forward h d) ∧
  ∀ var value,
    agree_cascade d (propagate_constraints s var value)
      (Heap.propagate_constraints h d var value).
Proof.
  intros Hrep. split.
  - unfold look_forward, Heap.look_forward.
    rewrite (represents_view _ _ _ Hrep), bind_Ok_l. by apply look_forward_fuel_agree.
  - intros var value. by apply propagate_constraints_agree.
Qed.

(** Every board can be put on the heap. *)
Lemma alloc_entries_represents s : ∀ h entries h',
  Heap.alloc_entries h s = (entries, h') →
  preserved h h' ∧ Heap.view_entries h' entries = Ok s ∧ NoDup entries.*2 ∧
  ∀ l, l ∈ entries.*2 → (length h ≤ l < length h')%nat.
Proof.
  induction s as [|[k X] s IH]; intros h entries h' H; simpl in H.
  { injection H as <- <-. split_and!; [apply preserved_refl|done|apply NoDup_nil_2|].
    intros l Hl. by apply elem_of_nil in Hl. }
  destruct (Heap.alloc_entries (h ++ [Heap.SetObj X]) s) as [rest h2] eqn:Hrest.
  injection H as <- <-.
  destruct (IH _ _ _ Hrest) as (Hpres & Hv & Hnd & Hrange).
  pose proof (preserved_alloc h (Heap.SetObj X)) as Halloc. simpl in Halloc.
  assert (length (h ++ [Heap.SetObj X]) = S (length h)) as Hlen
    by (rewrite length_app; simpl; lia).
  split_and!.
  - by eapply preserved_trans.
  - simpl. rewrite Hv.
    rewrite (read_set_preserved (h ++ [Heap.SetObj X]) h2 (length h) X Hpres); [done|].
    unfold Heap.read_set. by rewrite lookup_app_r, Nat.sub_diag by lia.
  - simpl. apply NoDup_cons. split; [|done]. intros Hin. apply Hrange in Hin. lia.
  - intros l [->|Hin]%elem_of_cons.
    + destruct Hpres as [Hle _]. simpl. lia.
    + apply Hrange in Hin. lia.
Qed.

Lemma alloc_store_represents h s :
  represents (Heap.alloc_store h s).2 (Heap.alloc_store h s).1 s.
Proof.
  unfold Heap.alloc_store.
  destruct (Heap.alloc_entries h s) as [entries h1] eqn:Hentries. simpl.
  destruct (alloc_entries_represents _ _ _ _ Hentries) as (_ & Hv & Hnd & _).
  exists entries. split_and!; [|done|].
  - unfold Heap.read_dict. by rewrite lookup_app_r, Nat.sub_diag by lia.
  - eapply view_entries_preserved; [|exact Hv]. apply (preserved_alloc h1).
Qed.

(** The example is solved. *)
Example solve_example :
  ∃ r, solve example_board = Ok (Some r) ∧
    render r = [
      ("A1", [4]); ("B1", [1]); ("C1", [7]); ("D1", [3]); ("E1", [6]);
      ("F1", [9]); ("G1", [8]); ("H1", [2]); ("I1", [5]);
      ("A2", [6]); ("B2", [3]); ("C2", [2]); ("D2", [1]); ("E2", [5]);
      ("F2", [8]); ("G2", [9]); ("H2", [4]); ("I2", [7]);
      ("A3", [9]); ("B3", [5]); ("C3", [8]); ("D3", [7]); ("E3", [2]);
      ("F3", [4]); ("G3", [3]); ("H3", [1]); ("I3", [6]);
      ("A4", [8]); ("B4", [2]); ("C4", [5]); ("D4", [4]); ("E4", [3]);
      ("F4", [7]); ("G4", [1]); ("H4", [6]); ("I4", [9]);
      ("A5", [7]); ("B5", [9]); ("C5", [1]); ("D5", [5]); ("E5", [8]);
      ("F5", [6]); ("G5", [4]); ("H5", [3]); ("I5", [2]);
      ("A6", [3]); ("B6", [4]); ("C6", [6]); ("D6", [9]); ("E6", [1]);
      ("F6", [2]); ("G6", [7]); ("H6", [5]); ("I6", [8]);
      ("A7", [2]); ("B7", [8]); ("C7", [9]); ("D7", [6]); ("E7", [4]);
      ("F7", [3]); ("G7", [5]); ("H7", [7]); ("I7", [1]);
      ("A8", [5]); ("B8", [7]); ("C8", [3]); ("D8", [2]); ("E8", [9]);
      ("F8", [1]); ("G8", [6]); ("H8", [8]); ("I8", [4]);
      ("A9", [1]); ("B9", [6]); ("C9", [4]); ("D9", [8]); ("E9", [7]);
      ("F9", [5]); ("G9", [2]); ("H9", [9]); ("I9", [3])].
Proof.
  assert (match solve example_board with
          | Ok (Some r) => Some (render r)
          | _ => None
          end = Some [
      ("A1", [4]); ("B1", [1]); ("C1", [7]); ("D1", [3]); ("E1", [6]);
      ("F1", [9]); ("G1", [8]); ("H1", [2]); ("I1", [5]);
      ("A2", [6]); ("B2", [3]); ("C2", [2]); ("D2", [1]); ("E2", [5]);
      ("F2", [8]); ("G2", [9]); ("H2", [4]); ("I2", [7]);
      ("A3", [9]); ("B3", [5]); ("C3", [8]); ("D3", [7]); ("E3", [2]);
      ("F3", [4]); ("G3", [3]); ("H3", [1]); ("I3", [6]);
      ("A4", [8]); ("B4", [2]); ("C4", [5]); ("D4", [4]); ("E4", [3]);
      ("F4", [7]); ("G4", [1]); ("H4", [6]); ("I4", [9]);
      ("A5", [7]); ("B5", [9]); ("C5", [1]); ("D5", [5]); ("E5", [8]);
      ("F5", [6]); ("G5", [4]); ("H5", [3]); ("I5", [2]);
      ("A6", [3]); ("B6", [4]); ("C6", [6]); ("D6", [9]); ("E6", [1]);
      ("F6", [2]); ("G6", [7]); ("H6", [5]); ("I6", [8]);
      ("A7", [2]); ("B7", [8]); ("C7", [9]); ("D7", [6]); ("E7", [4]);
      ("F7", [3]); ("G7", [5]); ("H7", [7]); ("I7", [1]);
      ("A8", [5]); ("B8", [7]); ("C8", [3]); ("D8", [2]); ("E8", [9]);
      ("F8", [1]); ("G8", [6]); ("H8", [8]); ("I8", [4]);
      ("A9", [1]); ("B9", [6]); ("C9", [4]); ("D9", [8]); ("E9", [7]);
      ("F9", [5]); ("G9", [2]); ("H9", [9]); ("I9", [3])]) as H
    by (vm_compute; reflexivity).
  destruct (solve example_board) as [[r|]| |]; [|discriminate H..].
  exists r. split; [reflexivity|]. injection H as H. exact H.
Qed.

(** ** The cascade, removal by removal *)

Lemma after_removals_Ok l r b s l' :
  after_removals l r = Ok (b, s, l') ↔ ∃ l0, r = Ok (b, s, l0) ∧ l' = l ++ l0.
Proof.
  unfold after_removals. destruct r as [[[b0 s0] l0]| |]; simpl.
  - split.
    + intros [= <- <- <-]. by exists l0.
    + intros (l1 & [= <- <- <-] & ->). done.
  - split; [done|]. by intros (l1 & H & _).
  - split; [done|]. by intros (l1 & H & _).
Qed.

Lemma without_log_after l r : without_log (after_removals l r) = without_log r.
Proof. by destruct r as [[[b s] l0]| |]. Qed.

Lemma without_log_Ok r b s :
  without_log r = Ok (b, s) ↔ ∃ l, r = Ok (b, s, l).
Proof.
  destruct r as [[[b0 s0] l0]| |]; simpl.
  - split; [intros [= <- <-]; by eexists|by intros (l & [= <- <- <-])].
  - split; [done|]. by intros (l & H).
  - split; [done|]. by intros (l & H).
Qed.

Section CascadeLogErase.
Variable self : store → cell → Z → outcome (bool * store).
Variable self_log : store → cell → Z → outcome (bool * store * log).
Hypothesis self_erase : ∀ s var value, without_log (self_log s var value) = self s var value.
Variable var : cell.
Variable value : Z.

Lemma propagate_peers_erase peers : ∀ s,
  without_log (propagate_peers_log self_log var value peers s)
  = propagate_peers self var value peers s.
Proof.
  induction peers as [|peer rest IH]; intros s; [done|].
  cbn [propagate_peers_log propagate_peers].
  destruct (decide (peer = var)) as [_|_]; [done|].
  destruct (lookup_cell s peer) as [X| |]; [|done..]. rewrite !bind_Ok_l.
  destruct (decide (value ∈ X)) as [_|_]; [|done].
  rewrite without_log_after.
  destruct (decide (size (X ∖ {[value]}) = 0%nat)) as [_|_]; [done|].
  destruct (decide (size (X ∖ {[value]}) = 1%nat)) as [_|_]; [|done].
  destruct (next_iter (X ∖ {[value]})) as [next_value| |]; [|done..].
  rewrite !bind_Ok_l, <- self_erase.
  destruct (self_log (discard s peer X value) peer next_value) as [[[ok s2] l]| |];
    [|done..].
  simpl. rewrite without_log_after. destruct ok; [apply IH|done].
Qed.

Lemma propagate_groups_erase cs : ∀ s,
  without_log (propagate_groups_log self_log var value cs s)
  = propagate_groups self var value cs s.
Proof.
  induction cs as [|constraint rest IH]; intros s; [done|].
  cbn [propagate_groups_log propagate_groups].
  destruct (decide (var ∈ constraint)) as [_|_]; [|done].
  rewrite <- propagate_peers_erase.
  destruct (propagate_peers_log self_log var value constraint s) as [[[ok s1] l]| |];
    [|done..].
  simpl. rewrite without_log_after. destruct ok; [apply IH|done].
Qed.
End CascadeLogErase.

Lemma propagate_fuel_log_S fuel s var value :
  propagate_fuel_log (S fuel) s var value
  = propagate_groups_log (propagate_fuel_log fuel) var value constraints s.
Proof. reflexivity. Qed.

Lemma propagate_fuel_erase fuel : ∀ s var value,
  without_log (propagate_fuel_log fuel s var value) = propagate_fuel fuel s var value.
Proof.
  induction fuel as [|fuel IH]; intros s var value; [done|].
  rewrite propagate_fuel_log_S, propagate_fuel_S.
  by apply propagate_groups_erase.
Qed.

Lemma replay_cons s e l : replay s (e :: l) = replay (remove_value s e) l.
Proof. reflexivity. Qed.

Lemma replay_app s l1 l2 : replay s (l1 ++ l2) = replay (replay s l1) l2.
Proof. apply fold_left_app. Qed.

Lemma remove_value_discard s k X v :
  get s k = Some X → remove_value s (k, v) = discard s k X v.
Proof. intros H. unfold remove_value. simpl. by rewrite H. Qed.

Lemma reduced_to_here s k X v l w :
  get s k = Some X → X ∖ {[v]} = {[w]} → reduced_to s ((k, v) :: l) k w.
Proof.
  intros Hget Hw. exists [], v, l. split; [done|].
  simpl. rewrite (remove_value_discard _ _ _ _ Hget), get_discard_eq. by rewrite Hw.
Qed.

Lemma reduced_to_later s k X v l a w :
  get s k = Some X → reduced_to (discard s k X v) l a w → reduced_to s ((k, v) :: l) a w.
Proof.
  intros Hget (pre & u & post & -> & Ha). exists ((k, v) :: pre), u, post.
  split; [done|]. simpl. by rewrite (remove_value_discard _ _ _ _ Hget).
Qed.

Lemma reduced_to_cons s k X v l a w :
  get s k = Some X → reduced_to s ((k, v) :: l) a w →
  (a = k ∧ X ∖ {[v]} = {[w]}) ∨ reduced_to (discard s k X v) l a w.
Proof.
  intros Hget (pre & u & post & Heq & Ha). destruct pre as [|e pre].
  - simpl in Heq. injection Heq as <- <- <-. left. split; [done|].
    simpl in Ha. rewrite (remove_value_discard _ _ _ _ Hget), get_discard_eq in Ha.
    by injection Ha.
  - simpl in Heq. injection Heq as <- ->. right. exists pre, u, post. split; [done|].
    simpl in Ha. by rewrite (remove_value_discard _ _ _ _ Hget) in Ha.
Qed.

Lemma cascade_log_mono (causes causes' : cell → Z → Prop) s l b s' :
  (∀ a v, causes a v → causes' a v) →
  cascade_log causes s l b s' → cascade_log causes' s l b s'.
Proof.
  intros Hsub H. revert causes' Hsub.
  induction H as [C s|C s k X v a Hget Hin He Hp Hc
                 |C s k X v a l b s' Hget Hin Hne Hp Hc Hrest IH Hset]; intros C' Hsub.
  - constructor.
  - eapply cascade_log_fail; eauto.
  - eapply cascade_log_step; eauto. apply IH. intros a' v' [H|H]; [left; auto|by right].
Qed.

Lemma cascade_log_shrinks causes s l b s' : cascade_log causes s l b s' → shrinks s s'.
Proof.
  induction 1 as [C s|C s k X v a Hget Hin He Hp Hc
                 |C s k X v a l b s' Hget Hin Hne Hp Hc Hrest IH Hset].
  - apply shrinks_refl.
  - by apply discard_shrinks.
  - eapply shrinks_trans; [by apply discard_shrinks|done].
Qed.

Lemma cascade_log_app causes s l1 s1 l2 b s2 :
  cascade_log causes s l1 true s1 → cascade_log causes s1 l2 b s2 →
  cascade_log causes s (l1 ++ l2) b s2.
Proof.
  intros H. remember true as t eqn:Ht. revert Ht.
  induction H as [C s|C s k X v a Hget Hin He Hp Hc
                 |C s k X v a l b0 s' Hget Hin Hne Hp Hc Hrest IH Hset];
    intros Ht H2; [done|done|]. subst b0.
  simpl. eapply cascade_log_step; eauto.
  - apply IH; [done|]. eapply cascade_log_mono; [|exact H2]. by left.
  - intros _ w Hw. eapply shrinks_peers_lack; [by eapply cascade_log_shrinks|].
    by apply Hset.
Qed.

Lemma cascade_log_replay causes s l b s' : cascade_log causes s l b s' → replay s l = s'.
Proof.
  induction 1 as [C s|C s k X v a Hget Hin He Hp Hc
                 |C s k X v a l b s' Hget Hin Hne Hp Hc Hrest IH Hset].
  - done.
  - simpl. by apply remove_value_discard.
  - rewrite replay_cons. by rewrite (remove_value_discard _ _ _ _ Hget).
Qed.

Lemma cascade_log_removal causes s l b s' :
  cascade_log causes s l b s' →
  ∀ pre k v post, l = pre ++ (k, v) :: post →
    (∃ X, get (replay s pre) k = Some X ∧ v ∈ X) ∧
    (∃ a, peer_cells a k ∧ (causes a v ∨ reduced_to s pre a v)) ∧
    (get (replay s (pre ++ [(k, v)])) k = Some ∅ → post = [] ∧ b = false).
Proof.
  induction 1 as [C s|C s k0 X v0 a Hget Hin He Hp Hc
                 |C s k0 X v0 a l b s' Hget Hin Hne Hp Hc Hrest IH Hset];
    intros pre k v post Heq.
  - by destruct pre.
  - destruct pre as [|e [|e' pre]]; [|done..]. injection Heq as <- <- <-.
    split; [by exists X|]. split; [exists a; by auto|]. done.
  - destruct pre as [|e pre].
    + injection Heq as <- <- <-. split; [by exists X|]. split; [exists a; by auto|].
      simpl. rewrite (remove_value_discard _ _ _ _ Hget), get_discard_eq.
      intros [= H0]. done.
    + injection Heq as <- ->.
      destruct (IH pre k v post eq_refl) as (Hpresent & (a' & Hp' & Hcause) & Hlast).
      simpl. rewrite (remove_value_discard _ _ _ _ Hget). split; [done|]. split; [|done].
      exists a'. split; [done|]. destruct Hcause as [[Hcause|[-> Hw]]|Hcause].
      * by left.
      * right. by eapply reduced_to_here.
      * right. by eapply reduced_to_later.
Qed.

Lemma cascade_log_false causes s l s' :
  cascade_log causes s l false s' →
  ∃ pre k v, l = pre ++ [(k, v)] ∧ get s' k = Some ∅.
Proof.
  intros H. remember false as f eqn:Hf. revert Hf.
  induction H as [C s|C s k X v a Hget Hin He Hp Hc
                 |C s k X v a l b s' Hget Hin Hne Hp Hc Hrest IH Hset]; intros Hf.
  - done.
  - exists [], k, v. split; [done|]. by rewrite get_discard_eq, He.
  - destruct (IH Hf) as (pre & k' & v' & -> & Hk'). by exists ((k, v) :: pre), k', v'.
Qed.

Lemma cascade_log_settled causes s l s' :
  cascade_log causes s l true s' → ∀ a v, reduced_to s l a v → peers_lack s' a v.
Proof.
  intros H. remember true as t eqn:Ht. revert Ht.
  induction H as [C s|C s k X v0 a0 Hget Hin He Hp Hc
                 |C s k X v0 a0 l b s' Hget Hin Hne Hp Hc Hrest IH Hset];
    intros Ht a v Hred; [|done|].
  - destruct Hred as (pre & w & post & Heq & _). by destruct pre.
  - apply (reduced_to_cons _ _ _ _ _ _ _ Hget) in Hred as [[-> Hw]|Hred]; [auto|].
    by apply IH.
Qed.

Section CascadeLogRuns.
Variable self_log : store → cell → Z → outcome (bool * store * log).
Hypothesis self_cascade_log : ∀ s var value b s' l,
  self_log s var value = Ok (b, s', l) →
  cascade_log (fun a v => a = var ∧ v = value) s l b s'.
Hypothesis self_lacks : ∀ s var value s' l,
  self_log s var value = Ok (true, s', l) → peers_lack s' var value.
Variable var : cell.
Variable value : Z.

Lemma propagate_peers_cascade_log constraint peers :
  constraint ∈ constraints → var ∈ constraint →
  (∀ peer, peer ∈ peers → peer ∈ constraint) →
  ∀ s b s' l,
    propagate_peers_log self_log var value peers s = Ok (b, s', l) →
    cascade_log (fun a v => a = var ∧ v = value) s l b s'.
Proof.
  intros Hg Hvar. induction peers as [|peer rest IH]; intros Hsub s b s' l H.
  { injection H as <- <- <-. constructor. }
  assert (∀ p, p ∈ rest → p ∈ constraint) as Hrest
    by (intros p Hp; by apply Hsub, list_elem_of_further).
  specialize (IH Hrest). cbn [propagate_peers_log] in H.
  destruct (decide (peer = var)) as [_|Hne]; [eauto|].
  step_bind H. apply lookup_cell_Ok in Ha. rename a into X.
  destruct (decide (value ∈ X)) as [Hin|_]; [|eauto].
  apply after_removals_Ok in H as (l0 & H & ->).
  assert (peer_cells var peer) as Hpeer.
  { split; [done|]. exists constraint. split_and!; [done..|]. apply Hsub, list_elem_of_here. }
  destruct (decide (size (X ∖ {[value]}) = 0%nat)) as [H0|H0].
  { injection H as <- <- <-. apply size_0_empty in H0. by eapply cascade_log_fail. }
  rewrite size_0_empty in H0.
  destruct (decide (size (X ∖ {[value]}) = 1%nat)) as [H1|H1].
  - destruct (next_iter_singleton _ H1) as (w & Hw & HX').
    rewrite Hw, bind_Ok_l in H. step_bind H. destruct a as [[ok s2] l1].
    apply after_removals_Ok in H as (l2 & H & ->).
    pose proof (self_cascade_log _ _ _ _ _ _ Ha0) as Hnested.
    assert (cascade_log
              (fun a' v' => (a' = var ∧ v' = value) ∨ (a' = peer ∧ X ∖ {[value]} = {[v']}))
              (discard s peer X value) (l1 ++ l2) b s') as Hall.
    { destruct ok.
      - eapply cascade_log_app.
        + eapply cascade_log_mono; [|exact Hnested].
          intros a v [-> ->]. right. by split.
        + eapply cascade_log_mono; [|by apply IH]. intros a v Hc. by left.
      - injection H as <- <- <-. rewrite app_nil_r.
        eapply cascade_log_mono; [|exact Hnested].
        intros a v [-> ->]. right. by split. }
    eapply cascade_log_step; eauto.
    intros -> w' Hw'.
    assert (w' = w) as ->.
    { rewrite HX' in Hw'. apply (f_equal elements) in Hw'.
      rewrite !elements_singleton in Hw'. by injection Hw'. }
    destruct ok; [|by injection H].
    eapply shrinks_peers_lack; [eapply cascade_log_shrinks; by apply IH|].
    by eapply self_lacks.
  - eapply cascade_log_step; eauto.
    + eapply cascade_log_mono; [|by apply IH]. intros a v Hc. by left.
    + intros _ w Hw. rewrite Hw, size_singleton in H1. done.
Qed.

Lemma propagate_groups_cascade_log cs :
  (∀ constraint, constraint ∈ cs → constraint ∈ constraints) →
  ∀ s b s' l,
    propagate_groups_log self_log var value cs s = Ok (b, s', l) →
    cascade_log (fun a v => a = var ∧ v = value) s l b s'.
Proof.
  induction cs as [|constraint rest IH]; intros Hsub s b s' l H.
  { injection H as <- <- <-. constructor. }
  assert (∀ g, g ∈ rest → g ∈ constraints) as Hrest
    by (intros g Hg; by apply Hsub, list_elem_of_further).
  specialize (IH Hrest). cbn [propagate_groups_log] in H.
  destruct (decide (var ∈ constraint)) as [Hvar|_]; [|eauto].
  step_bind H. destruct a as [[ok s1] l1].
  apply after_removals_Ok in H as (l2 & H & ->).
  apply (propagate_peers_cascade_log constraint) in Ha;
    [|apply Hsub, list_elem_of_here|done|done].
  destruct ok.
  - eapply cascade_log_app; eauto.
  - injection H as <- <- <-. by rewrite app_nil_r.
Qed.
End CascadeLogRuns.

Lemma propagate_fuel_log_lacks fuel s var value s' l :
  propagate_fuel_log fuel s var value = Ok (true, s', l) → peers_lack s' var value.
Proof.
  intros H. assert (propagate_fuel fuel s var value = Ok (true, s')) as H'.
  { rewrite <- propagate_fuel_erase. apply without_log_Ok. by exists l. }
  by apply propagate_fuel_settles in H' as [H' _].
Qed.

Lemma propagate_fuel_cascade_log fuel : ∀ s var value b s' l,
  propagate_fuel_log fuel s var value = Ok (b, s', l) →
  cascade_log (fun a v => a = var ∧ v = value) s l b s'.
Proof.
  induction fuel as [|fuel IH]; intros s var value b s' l H; [done|].
  rewrite propagate_fuel_log_S in H.
  eapply propagate_groups_cascade_log; [exact IH| |done|exact H].
  intros s0 v0 w0 s0' l0. apply propagate_fuel_log_lacks.
Qed.

(** C3. On every board, [propagate_constraints] returns, and its removals,
    taken in the order in which the code makes them, are the cascade that
    assigning [value] to [var] sets off.  Every removal takes a value that
    is present, from a peer of [var] when the value is [value], or else from
    a peer of a cell that an earlier removal left with that value alone.
    The call returns [False] exactly when one of its removals empties a
    cell, and then that removal is the last one: it fails at once.  It
    returns [True] only when no cell was emptied, and then [value] has been
    removed from every peer of [var], and the value of every cell that a
    removal left with one candidate has been removed from every peer of
    that cell. *)
Theorem propagate_constraints_contradiction s var value :
  well_formed s →
  ∃ b s' l,
    propagate_constraints s var value = Ok (b, s') ∧
    propagate_constraints_log s var value = Ok (b, s', l) ∧
    replay s l = s' ∧
    cascade s b s' ∧
    (b = false ↔ ∃ k X, get s k = Some X ∧ X ≠ ∅ ∧ get s' k = Some ∅) ∧
    (∀ pre k v post, l = pre ++ (k, v) :: post →
       (∃ X, get (replay s pre) k = Some X ∧ v ∈ X) ∧
       triggered s var value pre k v ∧
       (get (replay s (pre ++ [(k, v)])) k = Some ∅ → post = [] ∧ b = false)) ∧
    (b = false ↔
       ∃ pre k v post, l = pre ++ (k, v) :: post ∧
         get (replay s (pre ++ [(k, v)])) k = Some ∅) ∧
    (b = true →
       peers_lack s' var value ∧ ∀ a v, reduced_to s l a v → peers_lack s' a v).
Proof.
  intros Hwf. destruct (propagate_constraints_total s var value Hwf) as (b & s' & H).
  assert (∃ l, propagate_constraints_log s var value = Ok (b, s', l)) as [l Hl].
  { apply without_log_Ok. unfold propagate_constraints_log.
    rewrite propagate_fuel_erase. exact H. }
  pose proof (propagate_fuel_cascade _ _ _ _ _ _ H) as Hc.
  pose proof (propagate_fuel_cascade_log _ _ _ _ _ _ _ Hl) as Hlog.
  pose proof (cascade_log_replay _ _ _ _ _ Hlog) as Hreplay.
  pose proof (cascade_log_removal _ _ _ _ _ Hlog) as Hremoval.
  exists b, s', l. split_and!; [done..| | | |].
  - destruct b.
    + split; [done|]. intros (k & X & Hk & HX & Hk').
      destruct (cascade_true_nonempty _ _ Hc k X Hk HX) as (X' & HX' & Hne). congruence.
    + split; [|done]. intros _.
      destruct (cascade_false_emptied _ _ Hc) as (k & X & Hk & HX & Hk' & _). eauto.
  - intros pre k v post Heq.
    destruct (Hremoval pre k v post Heq) as (Hpresent & Hcause & Hlast).
    split; [done|]. split; [exact Hcause|done].
  - split.
    + intros ->. destruct (cascade_log_false _ _ _ _ Hlog) as (pre & k & v & Heq & Hk).
      exists pre, k, v, []. split; [done|]. by rewrite <- Heq, Hreplay.
    + intros (pre & k & v & post & Heq & Hk).
      by destruct (Hremoval pre k v post Heq) as (_ & _ & [_ Hb]).
  - intros ->. split.
    + by eapply propagate_fuel_log_lacks.
    + by eapply cascade_log_settled.
Qed.

Lemma propagate_constraints_contradiction_witness :
  well_formed example_branch ∧
  ∃ b s' l,
    propagate_constraints example_branch "B7" 8 = Ok (b, s') ∧
    propagate_constraints_log example_branch "B7" 8 = Ok (b, s', l) ∧
    replay example_branch l = s' ∧
    cascade example_branch b s' ∧
    (b = false ↔ ∃ k X, get example_branch k = Some X ∧ X ≠ ∅ ∧ get s' k = Some ∅) ∧
    (∀ pre k v post, l = pre ++ (k, v) :: post →
       (∃ X, get (replay example_branch pre) k = Some X ∧ v ∈ X) ∧
       triggered example_branch "B7" 8 pre k v ∧
       (get (replay example_branch (pre ++ [(k, v)])) k = Some ∅ → post = [] ∧ b = false)) ∧
    (b = false ↔
       ∃ pre k v post, l = pre ++ (k, v) :: post ∧
         get (replay example_branch (pre ++ [(k, v)])) k = Some ∅) ∧
    (b = true →
       peers_lack s' "B7" 8 ∧ ∀ a v, reduced_to example_branch l a v → peers_lack s' a v).
Proof.
  assert (well_formed example_branch) as Hwf by (vm_compute; reflexivity).
  split; [exact Hwf|].
  exact (propagate_constraints_contradiction example_branch "B7" 8 Hwf).
Defined.

(** * Further properties of the code *)

(** ** Propagation keeps every solution *)

Lemma compatible_discard σ s key X value :
  get s key = Some X → compatible σ s → σ key ≠ value →
  compatible σ (discard s key X value).
Proof.
  intros Hget Hc Hne k Y HY. destruct (decide (key = k)) as [<-|Hk].
  - rewrite get_discard_eq in HY. assert (Y = X ∖ {[value]}) as -> by congruence.
    apply elem_of_difference. split; [by apply Hc|]. by rewrite elem_of_singleton.
  - rewrite get_discard_ne in HY by done. by apply Hc.
Qed.

Lemma compatible_singleton σ s k v : compatible σ s → get s k = Some {[v]} → σ k = v.
Proof. intros Hc Hget. apply (Hc k) in Hget. by apply elem_of_singleton in Hget. Qed.

Lemma remove_from_peers_compatible σ cellId v peers : ∀ s dirty s' dirty',
  compatible σ s → (∀ key, key ∈ peers → key ≠ cellId → σ key ≠ v) →
  remove_from_peers cellId v peers s dirty = Ok (s', dirty') → compatible σ s'.
Proof.
  induction peers as [|key rest IH]; intros s dirty s' dirty' Hc Hpeers H; simpl in H.
  { by injection H as <- <-. }
  assert (∀ k, k ∈ rest → k ≠ cellId → σ k ≠ v) as Hrest
    by (intros k Hk; apply Hpeers; by apply list_elem_of_further).
  destruct (decide (key = cellId)) as [_|Hne]; [eauto|].
  step_bind H. apply lookup_cell_Ok in Ha. rename a into X.
  destruct (decide (v ∈ X)) as [_|_]; [|eauto].
  eapply IH; [|done|exact H].
  apply compatible_discard; [done|done|]. by apply Hpeers; [apply list_elem_of_here|].
Qed.

Lemma scan_cells_compatible σ constraint cells : ∀ s dirty s' dirty',
  valid σ → constraint ∈ constraints → (∀ c, c ∈ cells → c ∈ constraint) →
  compatible σ s →
  scan_cells constraint cells s dirty = Ok (s', dirty') → compatible σ s'.
Proof.
  induction cells as [|cellId rest IH]; intros s dirty s' dirty' Hvalid Hg Hcells Hc H;
    simpl in H.
  { by injection H as <- <-. }
  assert (∀ c, c ∈ rest → c ∈ constraint) as Hrest
    by (intros c Hin; apply Hcells; by apply list_elem_of_further).
  step_bind H. apply lookup_cell_Ok in Ha. rename a into X.
  destruct (decide (size X = 1%nat)) as [H1|_]; [|eauto].
  destruct (next_iter_singleton _ H1) as (w & Hw & ->).
  rewrite Hw in H. simpl in H. step_bind H. destruct a as [s1 d1].
  eapply IH; [done..| |exact H].
  eapply remove_from_peers_compatible; [exact Hc| |exact Ha0].
  intros key Hkey Hne. rewrite <- (compatible_singleton σ s cellId w Hc Ha).
  apply (Hvalid constraint); [done|done|apply Hcells, list_elem_of_here|done].
Qed.

Lemma scan_constraints_compatible σ cs : ∀ s dirty s' dirty',
  valid σ → (∀ constraint, constraint ∈ cs → constraint ∈ constraints) →
  compatible σ s →
  scan_constraints cs s dirty = Ok (s', dirty') → compatible σ s'.
Proof.
  induction cs as [|constraint rest IH]; intros s dirty s' dirty' Hvalid Hcs Hc H;
    simpl in H.
  { by injection H as <- <-. }
  step_bind H. destruct a as [s1 d1].
  eapply IH; [done| | |exact H].
  - intros g Hg. apply Hcs. by apply list_elem_of_further.
  - eapply scan_cells_compatible; [done| |done|exact Hc|exact Ha].
    apply Hcs, list_elem_of_here.
Qed.

Lemma apply_loop_compatible σ fuel : ∀ s r,
  valid σ → compatible σ s → apply_loop fuel s = Ok r → compatible σ r.
Proof.
  induction fuel as [|fuel IH]; intros s r Hvalid Hc H; [done|].
  rewrite apply_loop_S in H. step_bind H. destruct a as [s1 dirty].
  assert (compatible σ s1) as Hc1
    by (eapply scan_constraints_compatible; [done| |exact Hc|exact Ha]; done).
  destruct dirty; [eauto|]. by injection H as <-.
Qed.

Section CascadeKeepsSolution.
Variable σ : assignment.
Hypothesis σ_valid : valid σ.
Variable self : store → cell → Z → outcome (bool * store).
Hypothesis self_keeps : ∀ s var value b s',
  compatible σ s → σ var = value → self s var value = Ok (b, s') →
  b = true ∧ compatible σ s'.
Variable var : cell.
Variable value : Z.
Hypothesis σ_var : σ var = value.

Lemma propagate_peers_keeps peers : ∀ s b s',
  compatible σ s → (∀ peer, peer ∈ peers → peer ≠ var → σ peer ≠ value) →
  propagate_peers self var value peers s = Ok (b, s') →
  b = true ∧ compatible σ s'.
Proof.
  induction peers as [|peer rest IH]; intros s b s' Hc Hpeers H; simpl in H.
  { by injection H as <- <-. }
  assert (∀ p, p ∈ rest → p ≠ var → σ p ≠ value) as Hrest
    by (intros p Hp; apply Hpeers; by apply list_elem_of_further).
  destruct (decide (peer = var)) as [_|Hne]; [eauto|].
  step_bind H. apply lookup_cell_Ok in Ha. rename a into X.
  destruct (decide (value ∈ X)) as [Hin|_]; [|eauto].
  assert (σ peer ≠ value) as Hpeer by (apply Hpeers; [apply list_elem_of_here|done]).
  pose proof (compatible_discard σ s peer X value Ha Hc Hpeer) as Hc1.
  assert (σ peer ∈ X ∖ {[value]}) as Hleft
    by (apply (Hc1 peer), get_discard_eq).
  destruct (decide (size (X ∖ {[value]}) = 0%nat)) as [H0|H0].
  { apply size_0_empty in H0. rewrite H0 in Hleft. by apply not_elem_of_empty in Hleft. }
  destruct (decide (size (X ∖ {[value]}) = 1%nat)) as [H1|H1]; [|eauto].
  destruct (next_iter_singleton _ H1) as (nv & Hnv & HX').
  rewrite Hnv in H. simpl in H. step_bind H. destruct a as [ok s2].
  assert (σ peer = nv) as Hσ
    by (rewrite HX' in Hleft; by apply elem_of_singleton in Hleft).
  destruct (self_keeps _ _ _ _ _ Hc1 Hσ Ha0) as [-> Hc2]. eauto.
Qed.

Lemma propagate_groups_keeps cs : ∀ s b s',
  compatible σ s → (∀ constraint, constraint ∈ cs → constraint ∈ constraints) →
  propagate_groups self var value cs s = Ok (b, s') →
  b = true ∧ compatible σ s'.
Proof.
  induction cs as [|constraint rest IH]; intros s b s' Hc Hcs H; simpl in H.
  { by injection H as <- <-. }
  assert (∀ g, g ∈ rest → g ∈ constraints) as Hrest
    by (intros g Hg; apply Hcs; by apply list_elem_of_further).
  destruct (decide (var ∈ constraint)) as [Hvar|_]; [|eauto].
  step_bind H. destruct a as [ok s1].
  destruct (propagate_peers_keeps constraint s ok s1 Hc) as [-> Hc1]; [|done|eauto].
  intros peer Hpeer Hne. rewrite <- σ_var.
  apply (σ_valid constraint); [apply Hcs, list_elem_of_here|done|done|done].
Qed.
End CascadeKeepsSolution.

Lemma propagate_fuel_keeps σ fuel : ∀ s var value b s',
  valid σ → compatible σ s → σ var = value →
  propagate_fuel fuel s var value = Ok (b, s') → b = true ∧ compatible σ s'.
Proof.
  induction fuel as [|fuel IH]; intros s var value b s' Hvalid Hc Hσ H; [done|].
  rewrite propagate_fuel_S in H.
  eapply (propagate_groups_keeps σ Hvalid (propagate_fuel fuel)); [|exact Hσ|exact Hc| |exact H].
  - intros s0 var0 value0 b0 s0' Hc0 Hσ0. by apply IH.
  - done.
Qed.

(** ** The search finds a solution when there is one *)

Lemma compatible_assign σ s chosen :
  compatible σ s → compatible σ (put s chosen {[σ chosen]}).
Proof.
  intros Hc k Y HY. destruct (decide (chosen = k)) as [<-|Hk].
  - rewrite get_put_eq in HY. assert (Y = {[σ chosen]}) as -> by congruence.
    by apply elem_of_singleton.
  - rewrite get_put_ne in HY by done. by apply Hc.
Qed.

Lemma truthy_well_formed s : well_formed s → truthy (Some s) = true.
Proof.
  intros Hwf. destruct s as [|e s]; [|done].
  pose proof length_variables as Hlen. rewrite <- Hwf in Hlen. done.
Qed.

Section SearchComplete.
Variable σ : assignment.
Hypothesis σ_valid : valid σ.
Variable self : store → outcome (option store).
Variable s : store.
Variable chosen : cell.
Variable X : gset Z.
Hypothesis s_well_formed : well_formed s.
Hypothesis s_compatible : compatible σ s.
Hypothesis chosen_unassigned : get s chosen = Some X ∧ (1 < size X)%nat.
Hypothesis self_total : ∀ s',
  well_formed s' →
  (length (unassigned_vars s') < length (unassigned_vars s))%nat →
  ∃ r, self s' = Ok r.
Hypothesis self_complete : ∀ s',
  well_formed s' →
  (length (unassigned_vars s') < length (unassigned_vars s))%nat →
  compatible σ s' →
  ∃ r, self s' = Ok (Some r) ∧ truthy (Some r) = true.

Lemma try_values_complete values :
  σ chosen ∈ values →
  ∃ r, try_values self s chosen values = Ok (Some r) ∧ truthy (Some r) = true.
Proof.
  destruct chosen_unassigned as [Hget Hsize].
  induction values as [|value rest IH]; intros Hin; [by apply elem_of_nil in Hin|].
  cbn [try_values].
  assert (well_formed (put (copy_store s) chosen {[value]})) as Hwf.
  { rewrite copy_store_id. apply well_formed_put; [done|by eapply get_Some_keys]. }
  destruct (propagate_constraints_total _ chosen value Hwf) as (ok & s' & Hprop).
  rewrite Hprop, bind_Ok_l.
  assert (value = σ chosen → ok = true ∧ compatible σ s') as Hright.
  { intros ->. rewrite copy_store_id in Hprop.
    eapply propagate_fuel_keeps; [done| |reflexivity|exact Hprop].
    by apply compatible_assign. }
  assert (value ≠ σ chosen → σ chosen ∈ rest) as Hrest.
  { intros Hne. apply elem_of_cons in Hin as [Heq|Hin]; [done|done]. }
  destruct ok.
  - destruct (branch_unassigned _ _ _ _ _ Hget Hsize Hprop) as [Hkeys Hlt].
    assert (well_formed s') as Hwf' by (unfold well_formed; by rewrite Hkeys).
    destruct (self_total s' Hwf' Hlt) as [result Hresult].
    rewrite Hresult, bind_Ok_l.
    destruct (truthy result) eqn:Htruthy.
    + destruct result as [r|]; [eauto|done].
    + apply IH, Hrest. intros ->.
      destruct (Hright eq_refl) as [_ Hc'].
      destruct (self_complete s' Hwf' Hlt Hc') as (r & Hr & Ht).
      rewrite Hr in Hresult. injection Hresult as <-. congruence.
  - apply IH, Hrest. intros ->. by destruct (Hright eq_refl).
Qed.
End SearchComplete.

Lemma look_forward_fuel_complete σ fuel : ∀ s,
  valid σ → well_formed s → compatible σ s →
  (length (unassigned_vars s) < fuel)%nat →
  ∃ r, look_forward_fuel fuel s = Ok (Some r) ∧ truthy (Some r) = true.
Proof.
  induction fuel as [|fuel IH]; intros s Hvalid Hwf Hc Hlt; [lia|].
  rewrite look_forward_fuel_S.
  destruct (choose s) as [chosen|] eqn:Hchoose.
  2:{ exists s. split; [done|]. by apply truthy_well_formed. }
  destruct (choose_get s chosen (well_formed_NoDup s Hwf) Hchoose) as (X & Hget & Hsize).
  unfold lookup_cell. rewrite Hget, bind_Ok_l.
  apply (try_values_complete σ Hvalid _ s chosen X); try done.
  - intros s' Hwf' Hlt'. apply look_forward_fuel_total; [done|lia].
  - intros s' Hwf' Hlt' Hc'. apply IH; [done..|lia].
  - apply elem_of_iter_set. by apply Hc.
Qed.

Lemma apply_constraints_well_formed s r :
  well_formed s → apply_constraints s = Ok r → well_formed r.
Proof.
  intros Hwf H. apply apply_constraints_removals, removals_keys in H.
  unfold well_formed. by rewrite H.
Qed.

(** A solvable puzzle is solved.  When some valid assignment takes every
    cell's value from its candidates, [solve] returns a board; every cell of
    that board holds one value; these values are a valid assignment taken
    from the candidates of the board given; and when the puzzle has only
    one such assignment, the board holds it. *)
Theorem solve_finds_solution σ s :
  well_formed s → valid σ → compatible σ s →
  ∃ r, solve s = Ok (Some r) ∧ well_formed r ∧
    (∀ c, c ∈ variables → get r c = Some {[value_of r c]}) ∧
    valid (value_of r) ∧ compatible (value_of r) s ∧
    ((∀ τ, valid τ → compatible τ s → ∀ c, c ∈ variables → τ c = σ c) →
     ∀ c, c ∈ variables → get r c = Some {[σ c]}).
Proof.
  intros Hwf Hvalid Hc.
  destruct (apply_constraints_total s Hwf) as [s1 Hs1].
  pose proof (apply_constraints_well_formed _ _ Hwf Hs1) as Hwf1.
  pose proof (apply_loop_compatible σ _ _ _ Hvalid Hc Hs1) as Hc1.
  destruct (look_forward_fuel_complete σ (S (length (unassigned_vars s1))) s1)
    as (r & Hr & _); [done..|lia|].
  assert (solve s = Ok (Some r)) as Hsolve.
  { unfold solve. rewrite Hs1, bind_Ok_l. exact Hr. }
  destruct (solve_searched _ _ Hsolve) as (Hsh & Hsizes & Hcons & s1' & Hs1' & Hne).
  assert (s1' = s1) as -> by congruence.
  destruct Hsh as [Hkeys Hsub].
  assert (well_formed r) as Hwfr by (unfold well_formed; by rewrite Hkeys).
  assert (∀ c, c ∈ variables → ∃ v, get r c = Some {[v]}) as Hsingle.
  { intros c Hin. rewrite <- Hwf1 in Hin.
    destruct (keys_get_Some s1 c Hin) as [X1 HX1].
    destruct (Hne c X1 HX1) as (Xr & HXr & HXrne).
    { intros ->. apply (Hc1 c) in HX1. by apply not_elem_of_empty in HX1. }
    destruct (size_le_1_nonempty Xr) as [v ->]; [|done|eauto].
    apply (Hsizes (c, Xr)). by apply get_elem_of. }
  assert (∀ c, c ∈ variables → get r c = Some {[value_of r c]}) as Hvalue.
  { intros c Hin. destruct (Hsingle c Hin) as [v Hv].
    by rewrite (value_of_singleton _ _ _ Hv). }
  assert (valid (value_of r)) as Hvalidr.
  { intros constraint a b Hg Ha Hb Hab Heq.
    pose proof (well_formed_covers r Hwfr) as Hcov.
    pose proof (Hvalue a) as Hva. pose proof (Hvalue b) as Hvb.
    rewrite <- Hwfr in Hva, Hvb.
    specialize (Hva (Hcov _ _ Hg Ha)). specialize (Hvb (Hcov _ _ Hg Hb)).
    apply (Hcons b (value_of r b) Hvb constraint a _ Hg Hb Ha Hab Hva).
    rewrite Heq. by apply elem_of_singleton. }
  assert (compatible (value_of r) s) as Hcr.
  { intros k X HX.
    assert (k ∈ variables) as Hin by (rewrite <- Hwf; by eapply get_Some_keys).
    apply (Hsub k X _ HX (Hvalue k Hin)). by apply elem_of_singleton. }
  exists r. split_and!; [done..|].
  intros Huniq c Hin. rewrite <- (Huniq (value_of r) Hvalidr Hcr c Hin). by apply Hvalue.
Qed.

(** [solve] returns on every board with the 81 cells, and it returns [None]
    only when no valid assignment takes every cell's value from its
    candidates. *)
Theorem solve_none_unsolvable s :
  well_formed s →
  ∃ result, solve s = Ok result ∧
    (result = None → ¬ ∃ σ, valid σ ∧ compatible σ s).
Proof.
  intros Hwf. destruct (apply_constraints_total s Hwf) as [s1 Hs1].
  pose proof (apply_constraints_well_formed _ _ Hwf Hs1) as Hwf1.
  destruct (look_forward_fuel_total (S (length (unassigned_vars s1))) s1 Hwf1)
    as [result Hresult]; [lia|].
  assert (solve s = Ok result) as Hsolve.
  { unfold solve. rewrite Hs1, bind_Ok_l. exact Hresult. }
  exists result. split; [done|]. intros -> (σ & Hvalid & Hc).
  pose proof (apply_loop_compatible σ _ _ _ Hvalid Hc Hs1) as Hc1.
  destruct (look_forward_fuel_complete σ (S (length (unassigned_vars s1))) s1)
    as (r & Hr & _); [done..|lia|].
  congruence.
Qed.

(** ** The fixpoint propagator: where it stops, and when it fails *)

Lemma remove_from_peers_noop cellId v peers : ∀ s dirty,
  (∀ key, key ∈ peers → key ≠ cellId → ∃ Y, get s key = Some Y ∧ v ∉ Y) →
  remove_from_peers cellId v peers s dirty = Ok (s, dirty).
Proof.
  induction peers as [|key rest IH]; intros s dirty Hpeers; [done|].
  cbn [remove_from_peers].
  assert (∀ k, k ∈ rest → k ≠ cellId → ∃ Y, get s k = Some Y ∧ v ∉ Y) as Hrest
    by (intros k Hk; apply Hpeers; by apply list_elem_of_further).
  destruct (decide (key = cellId)) as [_|Hne]; [auto|].
  destruct (Hpeers key) as (Y & HY & Hv); [apply list_elem_of_here|done|].
  unfold lookup_cell. rewrite HY, bind_Ok_l. rewrite decide_False by done. auto.
Qed.

Lemma scan_cells_noop constraint cells : ∀ s dirty,
  consistent s → covers s → constraint ∈ constraints →
  (∀ c, c ∈ cells → c ∈ constraint) →
  scan_cells constraint cells s dirty = Ok (s, dirty).
Proof.
  induction cells as [|cellId rest IH]; intros s dirty Hcons Hcov Hg Hcells; [done|].
  cbn [scan_cells].
  assert (cellId ∈ constraint) as Hcell by apply Hcells, list_elem_of_here.
  destruct (keys_get_Some s cellId) as [X HX]; [by eapply Hcov|].
  unfold lookup_cell. rewrite HX, bind_Ok_l.
  assert (scan_cells constraint rest s dirty = Ok (s, dirty)) as Hrest.
  { apply IH; [done..|]. intros c Hc. apply Hcells. by apply list_elem_of_further. }
  destruct (decide (size X = 1%nat)) as [H1|_]; [|done].
  destruct (next_iter_singleton _ H1) as (w & Hw & ->).
  rewrite Hw, bind_Ok_l, remove_from_peers_noop, bind_Ok_l; [done|].
  intros key Hkey Hne.
  destruct (keys_get_Some s key) as [Y HY]; [by eapply Hcov|].
  exists Y. split; [done|]. by apply (Hcons cellId w HX constraint key Y).
Qed.

Lemma scan_constraints_noop cs : ∀ s dirty,
  consistent s → covers s → (∀ constraint, constraint ∈ cs → constraint ∈ constraints) →
  scan_constraints cs s dirty = Ok (s, dirty).
Proof.
  induction cs as [|constraint rest IH]; intros s dirty Hcons Hcov Hcs; [done|].
  cbn [scan_constraints]. rewrite scan_cells_noop, bind_Ok_l; [|done..| |done].
  - apply IH; [done..|]. intros g Hg. apply Hcs. by apply list_elem_of_further.
  - apply Hcs, list_elem_of_here.
Qed.

(** The board that [apply_constraints] returns is consistent: the value of
    every solved cell has been removed from the other cells of its groups. *)
Theorem apply_constraints_consistent s r :
  apply_constraints s = Ok r → consistent r.
Proof. intros H. by eapply fixpoint_consistent, apply_constraints_fixpoint. Qed.

Lemma apply_constraints_consistent_witness :
  is_ok (apply_constraints example_board) = true ∧
  apply_constraints example_board = Ok example_trimmed ∧ consistent example_trimmed.
Proof.
  assert (is_ok (apply_constraints example_board) = true) as Hok
    by (vm_compute; reflexivity).
  pose proof (board_of_Ok [] _ Hok) as H.
  split; [exact Hok|]. split; [exact H|].
  exact (apply_constraints_consistent example_board example_trimmed H).
Defined.

Lemma apply_constraints_settled s :
  well_formed s → consistent s → apply_constraints s = Ok s.
Proof.
  intros Hwf Hcons. apply apply_constraints_at_fixpoint.
  apply scan_constraints_noop; [done|by apply well_formed_covers|done].
Qed.

(** [apply_constraints] returns the board it was given exactly when that
    board is consistent already. *)
Theorem apply_constraints_unchanged_iff s :
  well_formed s → (apply_constraints s = Ok s ↔ consistent s).
Proof.
  intros Hwf. split.
  - intros H. by eapply fixpoint_consistent, apply_constraints_fixpoint.
  - by apply apply_constraints_settled.
Qed.

Lemma apply_constraints_unchanged_iff_witness :
  well_formed example_trimmed ∧
  (apply_constraints example_trimmed = Ok example_trimmed ↔ consistent example_trimmed).
Proof.
  assert (well_formed example_trimmed) as Hwf by (vm_compute; reflexivity).
  split; [exact Hwf|]. exact (apply_constraints_unchanged_iff example_trimmed Hwf).
Defined.

(** [apply_constraints] removes no value of a solution: a valid assignment
    that takes every cell's value from its candidates still does so on the
    board returned. *)
Theorem apply_constraints_keeps_solutions σ s r :
  valid σ → compatible σ s → apply_constraints s = Ok r → compatible σ r.
Proof. intros Hvalid Hc H. by eapply apply_loop_compatible. Qed.

Lemma get_None_keys (s : store) k : get s k = None → k ∉ keys s.
Proof.
  intros Hget Hin. apply keys_get_Some in Hin as [X HX]. congruence.
Qed.

Lemma remove_from_peers_lacks cellId v peers : ∀ s0 s dirty,
  keys s = keys s0 →
  returns_or_lacks s0 (∀ key, key ∈ peers → key ≠ cellId → key ∈ keys s0)
    (remove_from_peers cellId v peers s dirty).
Proof.
  induction peers as [|key rest IH]; intros s0 s dirty Hkeys.
  { simpl. intros key Hkey. by apply elem_of_nil in Hkey. }
  cbn [remove_from_peers].
  assert (∀ s1 d1, keys s1 = keys s0 → key = cellId ∨ key ∈ keys s0 →
    returns_or_lacks s0 (∀ k, k ∈ key :: rest → k ≠ cellId → k ∈ keys s0)
      (remove_from_peers cellId v rest s1 d1)) as Hstep.
  { intros s1 d1 Hk1 Hkey. specialize (IH s0 s1 d1 Hk1).
    destruct (remove_from_peers cellId v rest s1 d1) as [r|[]|]; try done.
    simpl in *. intros k [->|Hk]%elem_of_cons Hne; [by destruct Hkey|auto]. }
  destruct (decide (key = cellId)) as [Heq|Hne]; [by apply Hstep; [|left]|].
  unfold lookup_cell. destruct (get s key) as [X|] eqn:HX.
  - rewrite bind_Ok_l.
    assert (key ∈ keys s0) as Hin by (rewrite <- Hkeys; by eapply get_Some_keys).
    destruct (decide (v ∈ X)) as [_|_]; apply Hstep; auto.
    by rewrite (keys_discard _ _ _ _ HX).
  - simpl. rewrite <- Hkeys. by apply get_None_keys.
Qed.

Lemma scan_cells_lacks constraint cells : ∀ s0 s dirty,
  keys s = keys s0 →
  returns_or_lacks s0 (∀ c, c ∈ cells → c ∈ keys s0)
    (scan_cells constraint cells s dirty).
Proof.
  induction cells as [|cellId rest IH]; intros s0 s dirty Hkeys.
  { simpl. intros c Hc. by apply elem_of_nil in Hc. }
  cbn [scan_cells]. unfold lookup_cell. destruct (get s cellId) as [X|] eqn:HX.
  2:{ simpl. rewrite <- Hkeys. by apply get_None_keys. }
  rewrite bind_Ok_l.
  assert (cellId ∈ keys s0) as Hin by (rewrite <- Hkeys; by eapply get_Some_keys).
  assert (∀ s1 d1, keys s1 = keys s0 →
    returns_or_lacks s0 (∀ c, c ∈ cellId :: rest → c ∈ keys s0)
      (scan_cells constraint rest s1 d1)) as Hstep.
  { intros s1 d1 Hk1. specialize (IH s0 s1 d1 Hk1).
    destruct (scan_cells constraint rest s1 d1) as [r|[]|]; try done.
    simpl in *. intros c [->|Hc]%elem_of_cons; auto. }
  destruct (decide (size X = 1%nat)) as [H1|_]; [|by apply Hstep].
  destruct (next_iter_singleton _ H1) as (w & Hw & _). rewrite Hw, bind_Ok_l.
  pose proof (remove_from_peers_lacks cellId w constraint s0 s dirty Hkeys) as Hpeers.
  destruct (remove_from_peers cellId w constraint s dirty) as [[s1 d1]|[]|] eqn:Hrun;
    try done.
  rewrite bind_Ok_l. apply Hstep.
  apply remove_from_peers_scanned in Hrun as [Hr _].
  by rewrite (removals_keys _ _ Hr).
Qed.

Lemma scan_constraints_lacks cs : ∀ s0 s dirty,
  keys s = keys s0 →
  returns_or_lacks s0 (∀ constraint c, constraint ∈ cs → c ∈ constraint → c ∈ keys s0)
    (scan_constraints cs s dirty).
Proof.
  induction cs as [|constraint rest IH]; intros s0 s dirty Hkeys.
  { simpl. intros g c Hg. by apply elem_of_nil in Hg. }
  cbn [scan_constraints].
  pose proof (scan_cells_lacks constraint constraint s0 s dirty Hkeys) as Hcells.
  destruct (scan_cells constraint constraint s dirty) as [[s1 d1]|[]|] eqn:Hrun; try done.
  rewrite bind_Ok_l.
  apply scan_cells_scanned in Hrun as [Hr _].
  assert (keys s1 = keys s0) as Hk1 by by rewrite (removals_keys _ _ Hr).
  specialize (IH s0 s1 d1 Hk1).
  destruct (scan_constraints rest s1 d1) as [r|[]|]; try done.
  simpl in *. intros g c [->|Hg]%elem_of_cons; eauto.
Qed.

(** On a board that lacks a cell of the grid, [apply_constraints] raises
    [KeyError] for a cell that is missing. *)
Theorem apply_constraints_missing_cell s :
  ¬ covers s → ∃ k, (k ∉ keys s) ∧ apply_constraints s = Raise (KeyError k).
Proof.
  intros Hcov. unfold apply_constraints. rewrite apply_loop_S. unfold pass.
  pose proof (scan_constraints_lacks constraints s s false eq_refl) as H.
  destruct (scan_constraints constraints s false) as [r|[k| | |]|]; try done.
  simpl in *. eauto.
Qed.

Lemma apply_constraints_missing_cell_witness :
  ¬ covers [] ∧ ∃ k, (k ∉ keys []) ∧ apply_constraints [] = Raise (KeyError k).
Proof.
  assert (¬ covers []) as H.
  { intros Hcov. apply (elem_of_nil "A1"), (Hcov first_row "A1").
    - apply (bool_decide_unpack _); vm_compute; exact I.
    - apply (bool_decide_unpack _); vm_compute; exact I. }
  split; [exact H|]. exact (apply_constraints_missing_cell [] H).
Defined.

(** ** The cascade propagator: what it settles, and when it does nothing *)

(** After [propagate_constraints] has returned [True], no peer of [var] has
    [value] among its candidates.  Every cell that holds a single value now,
    and did not hold that value alone before the call, has no peer with that
    value among its candidates.  And a value that no peer of a cell had
    before the call, no peer of that cell has after it.  Nothing is said of
    a cell that held a single value before the call while a peer had that
    value: the call leaves such a peer as it is, unless the cascade reaches
    it. *)
Theorem propagate_constraints_settles s var value s' :
  propagate_constraints s var value = Ok (true, s') →
  peers_lack s' var value ∧
  (∀ a v, get s' a = Some {[v]} → get s a ≠ Some {[v]} → peers_lack s' a v) ∧
  (∀ a v, peers_lack s a v → peers_lack s' a v).
Proof.
  intros H. destruct (propagate_fuel_settles _ _ _ _ _ H) as [Hvar Hsingle].
  split; [exact Hvar|]. split.
  - intros a v Ha' Ha. apply Hsingle; [exact Ha'|]. intros Ha0. by destruct Ha.
  - intros a v. apply shrinks_peers_lack.
    eapply cascade_shrinks, propagate_fuel_cascade, H.
Qed.

Lemma example_branch_run :
  propagate_constraints example_branch "B7" 8 = Ok (true, example_branch_after).
Proof. apply (returned_true_Ok (false, [])). vm_compute; reflexivity. Qed.

Lemma propagate_constraints_settles_witness :
  propagate_constraints example_branch "B7" 8 = Ok (true, example_branch_after) ∧
  peers_lack example_branch_after "B7" 8 ∧
  (∀ a v, get example_branch_after a = Some {[v]} → get example_branch a ≠ Some {[v]} →
     peers_lack example_branch_after a v) ∧
  (∀ a v, peers_lack example_branch a v → peers_lack example_branch_after a v).
Proof.
  pose proof example_branch_run as H.
  split; [exact H|].
  exact (propagate_constraints_settles example_branch "B7" 8 example_branch_after H).
Defined.


Section CascadeNoop.
Variable self : store → cell → Z → outcome (bool * store).
Variable var : cell.
Variable value : Z.

Lemma propagate_peers_noop peers : ∀ s,
  (∀ peer, peer ∈ peers → peer ≠ var → ∃ Y, get s peer = Some Y ∧ value ∉ Y) →
  propagate_peers self var value peers s = Ok (true, s).
Proof.
  induction peers as [|peer rest IH]; intros s Hpeers; [done|].
  cbn [propagate_peers].
  assert (propagate_peers self var value rest s = Ok (true, s)) as Hrest.
  { apply IH. intros p Hp. apply Hpeers. by apply list_elem_of_further. }
  destruct (decide (peer = var)) as [_|Hne]; [done|].
  destruct (Hpeers peer) as (Y & HY & Hv); [apply list_elem_of_here|done|].
  unfold lookup_cell. rewrite HY, bind_Ok_l. by rewrite decide_False.
Qed.

Lemma propagate_groups_noop cs : ∀ s,
  (∀ constraint peer, constraint ∈ cs → var ∈ constraint → peer ∈ constraint →
     peer ≠ var → ∃ Y, get s peer = Some Y ∧ value ∉ Y) →
  propagate_groups self var value cs s = Ok (true, s).
Proof.
  induction cs as [|constraint rest IH]; intros s Hcs; [done|].
  cbn [propagate_groups].
  assert (propagate_groups self var value rest s = Ok (true, s)) as Hrest.
  { apply IH. intros g p Hg. apply Hcs. by apply list_elem_of_further. }
  destruct (decide (var ∈ constraint)) as [Hvar|_]; [|done].
  rewrite propagate_peers_noop, bind_Ok_l; [done|].
  intros peer Hpeer Hne. apply (Hcs constraint); [apply list_elem_of_here|done..].
Qed.
End CascadeNoop.

Lemma propagate_fuel_noop fuel s var value :
  peers_present s var → peers_lack s var value →
  propagate_fuel (S fuel) s var value = Ok (true, s).
Proof.
  intros Hpresent Hlack. rewrite propagate_fuel_S.
  apply propagate_groups_noop. intros constraint peer Hg Hvar Hpeer Hne.
  destruct (keys_get_Some s peer) as [Y HY]; [by eapply Hpresent|].
  exists Y. split; [done|]. by eapply Hlack.
Qed.

Lemma propagate_constraints_lacks s var value s' :
  propagate_constraints s var value = Ok (true, s') → peers_lack s' var value.
Proof. intros H. by apply propagate_fuel_settles in H as [H _]. Qed.

(** When no peer of [var] has [value] among its candidates,
    [propagate_constraints] returns [True] and leaves the board as it is.
    The entry of [var] itself is never read: it need not be a key. *)
Theorem propagate_constraints_noop s var value :
  peers_present s var → peers_lack s var value →
  propagate_constraints s var value = Ok (true, s).
Proof.
  intros Hpresent Hlack. unfold propagate_constraints.
  exact (propagate_fuel_noop (weight s) s var value Hpresent Hlack).
Qed.

Lemma well_formed_peers_present s var : well_formed s → peers_present s var.
Proof.
  intros Hwf constraint peer Hg _ Hpeer _. by eapply well_formed_covers.
Qed.

Lemma propagate_constraints_noop_witness :
  peers_present example_branch_after "B7" ∧ peers_lack example_branch_after "B7" 8 ∧
  propagate_constraints example_branch_after "B7" 8 = Ok (true, example_branch_after).
Proof.
  assert (well_formed example_branch_after) as Hwf by (vm_compute; reflexivity).
  pose proof (well_formed_peers_present example_branch_after "B7" Hwf) as H1.
  pose proof (propagate_constraints_lacks _ _ _ _ example_branch_run) as H2.
  split; [exact H1|]. split; [exact H2|].
  exact (propagate_constraints_noop example_branch_after "B7" 8 H1 H2).
Defined.

(** A second [propagate_constraints] for the same cell and value, after one
    that returned [True], returns [True] again and changes nothing. *)
Theorem propagate_constraints_again s var value s' :
  well_formed s →
  propagate_constraints s var value = Ok (true, s') →
  propagate_constraints s' var value = Ok (true, s').
Proof.
  intros Hwf H. unfold propagate_constraints at 1.
  apply (propagate_fuel_noop (weight s') s' var value).
  - apply well_formed_peers_present.
    eapply cascade_well_formed; [by eapply propagate_fuel_cascade|done].
  - exact (propagate_constraints_lacks s var value s' H).
Qed.

Lemma propagate_constraints_again_witness :
  well_formed example_branch ∧
  propagate_constraints example_branch "B7" 8 = Ok (true, example_branch_after) ∧
  propagate_constraints example_branch_after "B7" 8 = Ok (true, example_branch_after).
Proof.
  assert (well_formed example_branch) as Hwf by (vm_compute; reflexivity).
  pose proof example_branch_run as H.
  split; [exact Hwf|]. split; [exact H|].
  exact (propagate_constraints_again example_branch "B7" 8 example_branch_after Hwf H).
Defined.

(** ** Boards that are solved already *)

(** A consistent board on which no cell has more than one candidate comes
    back from [solve] as it is. *)
Theorem solve_solved_board s :
  well_formed s → consistent s → (∀ e, e ∈ s → (size e.2 ≤ 1)%nat) →
  solve s = Ok (Some s).
Proof.
  intros Hwf Hcons Hsizes. unfold solve.
  rewrite (apply_constraints_settled s Hwf Hcons), bind_Ok_l.
  unfold look_forward. rewrite look_forward_fuel_S.
  by rewrite (proj2 (choose_None s) Hsizes).
Qed.

(** ** Checking an assignment and a board by computation *)

Lemma NoDup_fmap_eq {A B} (f : A → B) (l : list A) a b :
  NoDup (f <$> l) → a ∈ l → b ∈ l → f a = f b → a = b.
Proof.
  induction l as [|x l IH]; intros Hnd Ha Hb Hab; [by apply elem_of_nil in Ha|].
  simpl in Hnd. apply NoDup_cons in Hnd as [Hx Hnd].
  apply elem_of_cons in Ha as [->|Ha], Hb as [->|Hb]; [done| | |by apply IH].
  - exfalso. apply Hx. rewrite Hab. by apply list_elem_of_fmap_2.
  - exfalso. apply Hx. rewrite <- Hab. by apply list_elem_of_fmap_2.
Qed.

Lemma valid_check σ :
  Forall (fun constraint => NoDup (σ <$> constraint)) constraints → valid σ.
Proof.
  intros H constraint a b Hg Ha Hb Hne Heq. rewrite Forall_forall in H.
  apply Hne. by eapply NoDup_fmap_eq; [apply (H constraint)|..].
Qed.

Lemma compatible_check σ (s : store) :
  Forall (fun e => σ e.1 ∈ e.2) s → compatible σ s.
Proof.
  intros H k X HX. rewrite Forall_forall in H.
  by apply (H (k, X)), get_elem_of.
Qed.

Lemma consistent_check s :
  match pass s with Ok (_, dirty) => negb dirty | _ => false end = true →
  consistent s.
Proof.
  intros H. destruct (pass s) as [[s' dirty]| |] eqn:Hpass; [|done..].
  destruct dirty; [done|]. apply fixpoint_consistent.
  by rewrite <- (pass_clean _ _ Hpass) at 2.
Qed.

Lemma example_solved_valid : valid (value_of example_solved).
Proof. apply valid_check. apply (bool_decide_unpack _); vm_compute; exact I. Qed.

Lemma example_solved_compatible : compatible (value_of example_solved) example_board.
Proof. apply compatible_check. apply (bool_decide_unpack _); vm_compute; exact I. Qed.

Lemma example_board_well_formed : well_formed example_board.
Proof. vm_compute; reflexivity. Qed.

Lemma example_solve_run : solve example_board = Ok (Some example_result).
Proof.
  assert (match solve example_board with Ok (Some _) => true | _ => false end = true)
    as H by (vm_compute; reflexivity).
  unfold example_result, result_of.
  destruct (solve example_board) as [[r|]| |]; [|discriminate H..].
  reflexivity.
Qed.

(** ** Examples for the properties of [solve] *)

Lemma apply_constraints_keeps_solutions_witness :
  valid (value_of example_solved) ∧ compatible (value_of example_solved) example_board ∧
  apply_constraints example_board = Ok example_trimmed ∧
  compatible (value_of example_solved) example_trimmed.
Proof.
  assert (is_ok (apply_constraints example_board) = true) as Hok
    by (vm_compute; reflexivity).
  pose proof (board_of_Ok [] _ Hok) as H.
  split; [exact example_solved_valid|]. split; [exact example_solved_compatible|].
  split; [exact H|].
  exact (apply_constraints_keeps_solutions (value_of example_solved) example_board
           example_trimmed example_solved_valid example_solved_compatible H).
Defined.



Lemma solve_finds_solution_witness :
  well_formed example_board ∧ valid (value_of example_solved) ∧
  compatible (value_of example_solved) example_board ∧
  ∃ r, solve example_board = Ok (Some r) ∧ well_formed r ∧
    (∀ c, c ∈ variables → get r c = Some {[value_of r c]}) ∧
    valid (value_of r) ∧ compatible (value_of r) example_board ∧
    ((∀ τ, valid τ → compatible τ example_board →
        ∀ c, c ∈ variables → τ c = value_of example_solved c) →
     ∀ c, c ∈ variables → get r c = Some {[value_of example_solved c]}).
Proof.
  split; [exact example_board_well_formed|]. split; [exact example_solved_valid|].
  split; [exact example_solved_compatible|].
  exact (solve_finds_solution (value_of example_solved) example_board
           example_board_well_formed example_solved_valid example_solved_compatible).
Defined.

Lemma solve_none_unsolvable_witness :
  well_formed example_board ∧
  ∃ result, solve example_board = Ok result ∧
    (result = None → ¬ ∃ σ, valid σ ∧ compatible σ example_board).
Proof.
  split; [exact example_board_well_formed|].
  exact (solve_none_unsolvable example_board example_board_well_formed).
Defined.

Lemma solve_sound_witness :
  solve example_board = Ok (Some example_result) ∧
  shrinks example_board example_result ∧
  (∀ e, e ∈ example_result → (size e.2 ≤ 1)%nat) ∧ consistent example_result ∧
  ∃ s1, apply_constraints example_board = Ok s1 ∧ keeps_nonempty s1 example_result.
Proof.
  split; [exact example_solve_run|].
  exact (solve_sound example_board example_result example_solve_run).
Defined.

Lemma solve_complete_witness :
  well_formed example_board ∧
  (∀ k X, get example_board k = Some X → X ⊆ full_set) ∧
  solve example_board = Ok (Some example_result) ∧
  (∀ e, e ∈ example_result → e.2 ≠ ∅) ∧
  ∀ constraint v, constraint ∈ constraints → 1 ≤ v ≤ 9 →
    ∃ c, c ∈ constraint ∧ get example_result c = Some {[v]} ∧
      ∀ c', c' ∈ constraint → get example_result c' = Some {[v]} → c' = c.
Proof.
  assert (∀ k X, get example_board k = Some X → X ⊆ full_set) as Hfull.
  { assert (Forall (fun e : string * gset Z => e.2 ⊆ full_set) example_board) as H
      by (apply (bool_decide_unpack _); vm_compute; exact I).
    intros k X HX. rewrite Forall_forall in H. by apply (H (k, X)), get_elem_of. }
  assert (∀ e, e ∈ example_result → e.2 ≠ ∅) as Hfilled.
  { assert (Forall (fun e : string * gset Z => e.2 ≠ ∅) example_result) as H
      by (apply (bool_decide_unpack _); vm_compute; exact I).
    by rewrite Forall_forall in H. }
  split; [exact example_board_well_formed|]. split; [exact Hfull|].
  split; [exact example_solve_run|]. split; [exact Hfilled|].
  exact (solve_complete example_board example_result example_board_well_formed
           Hfull example_solve_run Hfilled).
Defined.

Lemma solve_solved_board_witness :
  well_formed example_solved ∧ consistent example_solved ∧
  (∀ e, e ∈ example_solved → (size e.2 ≤ 1)%nat) ∧
  solve example_solved = Ok (Some example_solved).
Proof.
  assert (well_formed example_solved) as Hwf by (vm_compute; reflexivity).
  assert (consistent example_solved) as Hcons
    by (apply consistent_check; vm_compute; reflexivity).
  assert (∀ e, e ∈ example_solved → (size e.2 ≤ 1)%nat) as Hsizes.
  { assert (Forall (fun e : string * gset Z => (size e.2 ≤ 1)%nat) example_solved) as H
      by (apply (bool_decide_unpack _); vm_compute; exact I).
    by rewrite Forall_forall in H. }
  split; [exact Hwf|]. split; [exact Hcons|]. split; [exact Hsizes|].
  exact (solve_solved_board example_solved Hwf Hcons Hsizes).
Defined.

Lemma models_agree_witness :
  represents (Heap.alloc_store [] example_board).2
    (Heap.alloc_store [] example_board).1 example_board ∧
  agree_search (look_forward example_board)
    (Heap.look_forward (Heap.alloc_store [] example_board).2
       (Heap.alloc_store [] example_board).1) ∧
  ∀ var value,
    agree_cascade (Heap.alloc_store [] example_board).1
      (propagate_constraints example_board var value)
      (Heap.propagate_constraints (Heap.alloc_store [] example_board).2
         (Heap.alloc_store [] example_board).1 var value).
Proof.
  pose proof (alloc_store_represents [] example_board) as H.
  split; [exact H|].
  exact (models_agree _ _ _ H).
Defined.

(** ** Showing the board *)

Lemma iter_set_single (X : gset Z) v : iter_set X = [v] → X = {[v]}.
Proof.
  intros H. apply set_eq. intros x.
  rewrite <- elem_of_iter_set, H, list_elem_of_singleton, elem_of_singleton. done.
Qed.

Lemma cell_text_one_char (X : gset Z) :
  (∀ v, X = {[v]} → 0 ≤ v ≤ 9) → ∃ a, cell_text X = String a EmptyString.
Proof.
  intros Hdigit. unfold cell_text.
  destruct (iter_set X) as [|v [|w l]] eqn:E; [by eexists| |by eexists].
  pose proof (Hdigit v (iter_set_single X v E)) as Hv.
  assert (v = 0 ∨ v = 1 ∨ v = 2 ∨ v = 3 ∨ v = 4 ∨ v = 5 ∨ v = 6 ∨ v = 7 ∨ v = 8 ∨ v = 9)
    as Hcases by lia.
  repeat (destruct Hcases as [->|Hcases]; [eexists; reflexivity|]).
  subst v. eexists; reflexivity.
Qed.

Lemma cell_in_variables col row :
  col ∈ cols → row ∈ rows → cell_name col row ∈ variables.
Proof.
  intros Hc Hr. unfold variables. apply list_elem_of_In, in_flat_map.
  exists row. split; [by apply list_elem_of_In|].
  apply (in_map (fun col => cell_name col row)), list_elem_of_In, Hc.
Qed.

Lemma row_texts_present s row columns :
  (∀ col, col ∈ columns → cell_name col row ∈ keys s) →
  row_texts s row columns
  = Ok (map (fun col => cell_text (default ∅ (get s (cell_name col row)))) columns).
Proof.
  induction columns as [|col rest IH]; intros Hin; [done|].
  cbn [row_texts map].
  destruct (get s (cell_name col row)) as [X|] eqn:HX.
  - unfold lookup_cell. rewrite HX. rewrite bind_Ok_l, IH.
    + by rewrite bind_Ok_l.
    + intros c Hc. apply Hin. by apply list_elem_of_further.
  - exfalso. apply get_None_keys in HX. apply HX, Hin, list_elem_of_here.
Qed.

Lemma row_layout (f : ascii → string) :
  (∀ col, col ∈ cols → ∃ a, f col = String a EmptyString) →
  let row_values := String.concat " " (map f cols) in
  (row_separator ++ " " ++ py_slice 0 5 row_values ++ " " ++
   row_separator ++ " " ++ py_slice 6 11 row_values ++ " " ++
   row_separator ++ " " ++ py_slice_from 12 row_values ++ " " ++
   row_separator)%string
  = (row_separator ++ " " ++ String.concat " " (map f (list_ascii_of_string "ABC")) ++ " " ++
     row_separator ++ " " ++ String.concat " " (map f (list_ascii_of_string "DEF")) ++ " " ++
     row_separator ++ " " ++ String.concat " " (map f (list_ascii_of_string "GHI")) ++ " " ++
     row_separator)%string.
Proof.
  intros H.
  assert (∀ col, In col (list_ascii_of_string "ABCDEFGHI") → ∃ a, f col = String a EmptyString)
    as H' by (intros col Hc; by apply H, list_elem_of_In).
  destruct (H' "A"%char) as [a1 E1]; [cbn; tauto|].
  destruct (H' "B"%char) as [a2 E2]; [cbn; tauto|].
  destruct (H' "C"%char) as [a3 E3]; [cbn; tauto|].
  destruct (H' "D"%char) as [a4 E4]; [cbn; tauto|].
  destruct (H' "E"%char) as [a5 E5]; [cbn; tauto|].
  destruct (H' "F"%char) as [a6 E6]; [cbn; tauto|].
  destruct (H' "G"%char) as [a7 E7]; [cbn; tauto|].
  destruct (H' "H"%char) as [a8 E8]; [cbn; tauto|].
  destruct (H' "I"%char) as [a9 E9]; [cbn; tauto|].
  unfold cols. cbn [map list_ascii_of_string].
  rewrite E1, E2, E3, E4, E5, E6, E7, E8, E9. reflexivity.
Qed.

Lemma row_line_shown s row :
  well_formed s → single_digits s → row ∈ rows → row_line s row = Ok (shown_row s row).
Proof.
  intros Hwf Hdigits Hrow. unfold row_line.
  rewrite row_texts_present.
  2: { intros col Hcol. rewrite Hwf. by apply cell_in_variables. }
  rewrite bind_Ok_l. unfold shown_row, shown_group. f_equal.
  apply (row_layout (fun col => cell_text (default ∅ (get s (cell_name col row))))).
  intros col Hcol. apply cell_text_one_char. intros v Hv.
  assert (cell_name col row ∈ keys s) as Hk by (rewrite Hwf; by apply cell_in_variables).
  apply keys_get_Some in Hk as [X HX]. rewrite HX in Hv. simpl in Hv. subst X.
  exact (Hdigits _ _ HX).
Qed.

(** [stylized_board] prints the top border, the nine rows with the middle
    border after the third and the sixth, and the bottom border; in a row
    the three slices of the joined text are the cells of the columns A to
    C, D to F and G to I.  This needs every value that is shown to be one
    character long: a cell with one candidate holds a digit from 0 to 9. *)
Theorem stylized_board_layout s :
  well_formed s → single_digits s → stylized_board s = Ok (shown_board s).
Proof.
  intros Hwf Hdigits. unfold stylized_board.
  assert (∀ row, In row (list_ascii_of_string "123456789") →
            row_line s row = Ok (shown_row s row)) as Hrows.
  { intros row Hrow. apply row_line_shown; [done..|]. by apply list_elem_of_In. }
  unfold rows. cbn [print_rows list_ascii_of_string].
  rewrite !Hrows by (cbn; tauto).
  reflexivity.
Qed.

Lemma single_digits_check s :
  Forall (fun e : string * gset Z => e.2 ⊆ full_set) s → single_digits s.
Proof.
  intros Hall k v Hget. rewrite Forall_forall in Hall.
  pose proof (Hall _ (get_elem_of _ _ _ Hget)) as Hsub. simpl in Hsub.
  assert (v ∈ full_set) as Hv by (apply Hsub; by apply elem_of_singleton).
  unfold full_set in Hv. rewrite elem_of_list_to_set in Hv.
  repeat (apply elem_of_cons in Hv as [->|Hv]; [lia|]). by apply elem_of_nil in Hv.
Qed.

Lemma stylized_board_layout_witness :
  well_formed example_solved ∧ single_digits example_solved ∧
  stylized_board example_solved = Ok (shown_board example_solved).
Proof.
  assert (well_formed example_solved) as Hwf by (vm_compute; reflexivity).
  assert (single_digits example_solved) as Hdigits.
  { apply single_digits_check. apply (bool_decide_unpack _); vm_compute; exact I. }
  split; [exact Hwf|]. split; [exact Hdigits|].
  exact (stylized_board_layout example_solved Hwf Hdigits).
Defined.

Lemma row_texts_outcome s row columns :
  returns_or_lacks s (∀ col, col ∈ columns → cell_name col row ∈ keys s)
    (row_texts s row columns).
Proof.
  induction columns as [|col rest IH].
  { simpl. intros col Hcol. by apply elem_of_nil in Hcol. }
  cbn [row_texts]. unfold lookup_cell.
  destruct (get s (cell_name col row)) as [X|] eqn:HX.
  - rewrite bind_Ok_l. destruct (row_texts s row rest) as [texts|[]|]; try done.
    simpl in *. intros c [->|Hc]%elem_of_cons; [by eapply get_Some_keys|auto].
  - simpl. by apply get_None_keys.
Qed.

Lemma row_line_outcome s row :
  returns_or_lacks s (∀ col, col ∈ cols → cell_name col row ∈ keys s) (row_line s row).
Proof.
  unfold row_line. pose proof (row_texts_outcome s row cols) as H.
  by destruct (row_texts s row cols) as [texts|[]|].
Qed.

Lemma print_rows_outcome s rest : ∀ i,
  returns_or_lacks s (∀ row col, row ∈ rest → col ∈ cols → cell_name col row ∈ keys s)
    (print_rows s i rest).
Proof.
  induction rest as [|row rest IH]; intros i.
  { simpl. intros row col Hrow. by apply elem_of_nil in Hrow. }
  cbn [print_rows]. pose proof (row_line_outcome s row) as Hrow.
  destruct (row_line s row) as [line|[]|]; try done.
  rewrite bind_Ok_l. specialize (IH (S i)).
  destruct (print_rows s (S i) rest) as [more|[]|]; try done.
  simpl in *. intros r c [->|Hr]%elem_of_cons; auto.
Qed.

Lemma in_variables_cell k :
  k ∈ variables → ∃ col row, col ∈ cols ∧ row ∈ rows ∧ k = cell_name col row.
Proof.
  unfold variables. rewrite list_elem_of_In, in_flat_map.
  intros (row & Hrow & Hk). apply in_map_iff in Hk as (col & <- & Hcol).
  exists col, row. by rewrite !list_elem_of_In.
Qed.

(** [stylized_board] on any board.  When the 81 cells of the grid are keys
    of the board it prints thirteen lines: the top border, three rows, the
    middle border, three rows, the middle border, three rows, the bottom
    border.  Otherwise it raises [KeyError] for a cell that is missing. *)
Theorem stylized_board_outcome s :
  ((∀ k, k ∈ variables → k ∈ keys s) →
     ∃ r1 r2 r3 r4 r5 r6 r7 r8 r9,
       stylized_board s
       = Ok [horizontal_border; r1; r2; r3; middle_border; r4; r5; r6;
             middle_border; r7; r8; r9; bottom_border]) ∧
  (¬ (∀ k, k ∈ variables → k ∈ keys s) →
     ∃ k, k ∈ variables ∧ (k ∉ keys s) ∧ stylized_board s = Raise (KeyError k)).
Proof.
  split.
  - intros Hall.
    assert (∀ row, In row (list_ascii_of_string "123456789") →
              ∃ line, row_line s row = Ok line) as Hrows.
    { intros row Hrow. unfold row_line. rewrite row_texts_present; [by eexists|].
      intros col Hcol. apply Hall, cell_in_variables; [done|by apply list_elem_of_In]. }
    destruct (Hrows "1"%char) as [r1 E1]; [cbn; tauto|].
    destruct (Hrows "2"%char) as [r2 E2]; [cbn; tauto|].
    destruct (Hrows "3"%char) as [r3 E3]; [cbn; tauto|].
    destruct (Hrows "4"%char) as [r4 E4]; [cbn; tauto|].
    destruct (Hrows "5"%char) as [r5 E5]; [cbn; tauto|].
    destruct (Hrows "6"%char) as [r6 E6]; [cbn; tauto|].
    destruct (Hrows "7"%char) as [r7 E7]; [cbn; tauto|].
    destruct (Hrows "8"%char) as [r8 E8]; [cbn; tauto|].
    destruct (Hrows "9"%char) as [r9 E9]; [cbn; tauto|].
    exists r1, r2, r3, r4, r5, r6, r7, r8, r9.
    unfold stylized_board, rows. cbn [print_rows list_ascii_of_string].
    rewrite E1, E2, E3, E4, E5, E6, E7, E8, E9. reflexivity.
  - intros Hmissing. unfold stylized_board.
    pose proof (print_rows_outcome s rows 0) as H.
    destruct (print_rows s 0 rows) as [body|[k| | |]|] eqn:Hrun; try done.
    + exfalso. apply Hmissing. intros k Hk.
      apply in_variables_cell in Hk as (col & row & Hcol & Hrow & ->).
      simpl in H. auto.
    + exists k. simpl in H. split; [|by split].
      destruct (decide (k ∈ variables)) as [Hin|Hout]; [done|].
      exfalso. clear Hmissing.
      assert (∀ rest i, (∀ row, row ∈ rest → row ∈ rows) →
        print_rows s i rest = Raise (KeyError k) → k ∈ variables) as Hgen.
      { clear. induction rest as [|row rest IH]; intros i Hsub Hrun; [done|].
        cbn [print_rows] in Hrun.
        destruct (row_line s row) as [line|e|] eqn:Hline.
        - rewrite bind_Ok_l in Hrun.
          destruct (print_rows s (S i) rest) as [more|e|] eqn:Hrest; [done| |done].
          simpl in Hrun. injection Hrun as ->. apply (IH (S i)); [|done].
          intros r Hr. by apply Hsub, list_elem_of_further.
        - simpl in Hrun. injection Hrun as ->.
          assert (row ∈ rows) as Hrow by apply Hsub, list_elem_of_here.
          unfold row_line in Hline.
          assert (∀ columns, (∀ col, col ∈ columns → col ∈ cols) →
            row_texts s row columns = Raise (KeyError k) → k ∈ variables) as Hcols.
          { clear Hline. induction columns as [|col columns IHc]; intros Hsubc Hr; [done|].
            cbn [row_texts] in Hr. unfold lookup_cell in Hr.
            destruct (get s (cell_name col row)) as [X|] eqn:HX.
            - rewrite bind_Ok_l in Hr.
              destruct (row_texts s row columns) as [texts|e|] eqn:Ht; [done| |done].
              simpl in Hr. injection Hr as ->. apply IHc; [|done].
              intros c Hc. by apply Hsubc, list_elem_of_further.
            - simpl in Hr. injection Hr as <-.
              apply cell_in_variables; [apply Hsubc, list_elem_of_here|done]. }
          destruct (row_texts s row cols) as [texts|e|] eqn:Ht; [done| |done].
          simpl in Hline. injection Hline as ->. by apply (Hcols cols).
        - done. }
      exact (Hout (Hgen rows 0%nat (fun _ Hrow => Hrow) Hrun)).
Qed.

(** ** The loaded board, cell by cell *)

Lemma parse_all_Ok lines : ∀ vs,
  parse_all lines = Ok vs →
  length vs = length lines ∧
  ∀ i line, lines !! i = Some line → ∃ v, vs !! i = Some v ∧ parse_line line = Ok v.
Proof.
  induction lines as [|line0 rest IH]; intros vs H.
  { injection H as <-. split; [done|]. intros i line Hi. by destruct i. }
  cbn [parse_all] in H.
  destruct (parse_line line0) as [v0| |] eqn:H0; [|done..]. rewrite bind_Ok_l in H.
  destruct (parse_all rest) as [vs0| |] eqn:Hrest; [|done..]. rewrite bind_Ok_l in H.
  injection H as <-. destruct (IH vs0 eq_refl) as [Hlen Hall].
  split; [simpl; by rewrite Hlen|].
  intros [|i] line Hi; simpl in Hi.
  - injection Hi as <-. by exists v0.
  - by apply Hall.
Qed.

Lemma read_lines_length n : ∀ fd, length (read_lines n fd) = n.
Proof.
  induction n as [|n IH]; intros fd; [done|].
  destruct fd as [|line fd]; simpl; by rewrite IH.
Qed.

Lemma keys_zip_with (g : Z → gset Z) ks : ∀ vs,
  length vs = length ks → keys (zip_with (fun k v => (k, g v)) ks vs) = ks.
Proof.
  induction ks as [|k ks IH]; intros [|v vs] Hlen; simpl in *; try done.
  f_equal. apply IH. lia.
Qed.

Lemma load_board_parse fd :
  load_board fd = (vs ← parse_all (read_lines 81 fd); Ok (board_of_values vs)).
Proof.
  unfold load_board. rewrite keys_initial_store, initial_store_full.
  rewrite (load_cells_reads_all variables fd NoDup_variables).
  by rewrite length_variables.
Qed.

Lemma cell_of_value_nonempty v : cell_of_value v ≠ ∅.
Proof.
  unfold cell_of_value. destruct (v <? 10).
  - apply (non_empty_inhabited_L v), elem_of_singleton. reflexivity.
  - apply (non_empty_inhabited_L 1). unfold full_set. rewrite elem_of_list_to_set.
    apply list_elem_of_here.
Qed.

(** A board that [load_board] returns has the 81 cells as keys, row by row,
    and the cell at place [i] of that order is made from line [i] of the
    file: the number on the line alone when it is below 10, all of 1 to 9
    otherwise.  No cell of a loaded board is empty. *)
Theorem load_board_cells fd s :
  load_board fd = Ok s →
  keys s = row_major_cells ∧
  (∀ i k, row_major_cells !! i = Some k →
     ∃ line v, read_lines 81 fd !! i = Some line ∧ parse_line line = Ok v ∧
       get s k = Some (if v <? 10 then {[v]} else full_set)) ∧
  (∀ k X, get s k = Some X → X ≠ ∅).
Proof.
  rewrite load_board_parse. intros H.
  destruct (parse_all (read_lines 81 fd)) as [vs| |] eqn:Hparse; [|done..].
  rewrite bind_Ok_l in H. injection H as <-.
  destruct (parse_all_Ok _ _ Hparse) as [Hlen Hall].
  rewrite read_lines_length in Hlen.
  assert (keys (board_of_values vs) = variables) as Hkeys.
  { unfold board_of_values. apply keys_zip_with. by rewrite length_variables. }
  assert (∀ i k, variables !! i = Some k →
     ∃ line v, read_lines 81 fd !! i = Some line ∧ parse_line line = Ok v ∧
       board_of_values vs !! i = Some (k, cell_of_value v)) as Hcells.
  { intros i k Hi.
    assert (i < 81)%nat as Hlt
      by (rewrite <- length_variables; by eapply lookup_lt_Some).
    destruct (lookup_lt_is_Some_2 (read_lines 81 fd) i) as [line Hline];
      [by rewrite read_lines_length|].
    destruct (Hall i line Hline) as (v & Hv & Hpv).
    exists line, v. split; [done|]. split; [done|].
    unfold board_of_values. rewrite lookup_zip_with, Hi, Hv. reflexivity. }
  split_and!.
  - by rewrite Hkeys, variables_row_major.
  - intros i k Hi. rewrite <- variables_row_major in Hi.
    destruct (Hcells i k Hi) as (line & v & Hline & Hpv & Hlook).
    exists line, v. split; [done|]. split; [done|].
    eapply lookup_get; [|exact Hlook]. rewrite Hkeys. apply NoDup_variables.
  - intros k X Hget.
    pose proof (get_Some_keys _ _ _ Hget) as Hk. rewrite Hkeys in Hk.
    apply list_elem_of_lookup in Hk as [i Hi].
    destruct (Hcells i k Hi) as (line & v & _ & _ & Hlook).
    assert (get (board_of_values vs) k = Some (cell_of_value v)) as Hget'.
    { eapply lookup_get; [|exact Hlook]. rewrite Hkeys. apply NoDup_variables. }
    rewrite Hget in Hget'. injection Hget' as ->. apply cell_of_value_nonempty.
Qed.

Lemma example_load_run : load_board example_file = Ok example_board.
Proof. apply (board_of_Ok []). vm_compute; reflexivity. Qed.

Lemma load_board_cells_witness :
  load_board example_file = Ok example_board ∧
  keys example_board = row_major_cells ∧
  (∀ i k, row_major_cells !! i = Some k →
     ∃ line v, read_lines 81 example_file !! i = Some line ∧ parse_line line = Ok v ∧
       get example_board k = Some (if v <? 10 then {[v]} else full_set)) ∧
  (∀ k X, get example_board k = Some X → X ≠ ∅).
Proof.
  split; [exact example_load_run|].
  exact (load_board_cells example_file example_board example_load_run).
Defined.

(** ** The whole program *)

Lemma parse_line_fuel line : parse_line line ≠ OutOfFuel.
Proof.
  unfold parse_line, py_int.
  by destruct (match py_strip _ with [] => _ | _ => _ end).
Qed.

Lemma parse_all_outcome lines :
  (∃ vs, parse_all lines = Ok vs) ∨
  (parse_all lines = Raise ValueError ∧
   ∃ line, line ∈ lines ∧ parse_line line = Raise ValueError).
Proof.
  induction lines as [|line0 rest IH]; [left; by eexists|].
  cbn [parse_all]. destruct (parse_line line0) as [v0|e|] eqn:H0.
  - rewrite bind_Ok_l. destruct IH as [[vs ->]|[-> (line & Hin & Hline)]].
    + left. by eexists.
    + right. split; [done|]. exists line. split; [by apply list_elem_of_further|done].
  - right. pose proof (parse_line_error _ _ H0) as ->. split; [reflexivity|].
    exists line0. split; [apply list_elem_of_here|done].
  - by apply parse_line_fuel in H0.
Qed.

Lemma solve_total s : well_formed s → ∃ r, solve s = Ok r.
Proof.
  intros Hwf. unfold solve.
  destruct (apply_constraints_total s Hwf) as [s' Hs']. rewrite Hs', bind_Ok_l.
  pose proof (apply_constraints_well_formed s s' Hwf Hs') as Hwf'.
  apply look_forward_fuel_total; [done|lia].
Qed.

(** The program from the board file on.  It stops with [ValueError] exactly
    when one of the first 81 lines of the file is no integer for [int],
    which includes a file with fewer than 81 lines; otherwise it returns a
    board or [None].  It raises nothing else: no lookup of a cell fails in
    [apply_constraints], [propagate_constraints] or [look_forward], and the
    search does not go on for ever. *)
Theorem run_outcome fd :
  (run fd = Raise ValueError ∨ ∃ r, run fd = Ok r) ∧
  (run fd = Raise ValueError ↔
     ∃ line, line ∈ read_lines 81 fd ∧ parse_line line = Raise ValueError) ∧
  ((length fd < 81)%nat → run fd = Raise ValueError).
Proof.
  assert ((∃ line, line ∈ read_lines 81 fd ∧ parse_line line = Raise ValueError) →
          run fd = Raise ValueError) as Herr.
  { intros Hbad. unfold run. rewrite load_board_parse.
    by rewrite (parse_all_error _ Hbad). }
  assert (run fd = Raise ValueError ∧
            (∃ line, line ∈ read_lines 81 fd ∧ parse_line line = Raise ValueError)
          ∨ ∃ r, run fd = Ok r) as Hcases.
  { destruct (parse_all_outcome (read_lines 81 fd)) as [[vs Hvs]|[_ Hbad]].
    - right. unfold run.
      destruct (load_board fd) as [s| |] eqn:Hload.
      + rewrite bind_Ok_l. apply solve_total.
        rewrite load_board_parse, Hvs, bind_Ok_l in Hload. injection Hload as <-.
        destruct (parse_all_Ok _ _ Hvs) as [Hlen _]. rewrite read_lines_length in Hlen.
        unfold well_formed, board_of_values. apply keys_zip_with.
        by rewrite length_variables.
      + rewrite load_board_parse, Hvs in Hload. discriminate Hload.
      + rewrite load_board_parse, Hvs in Hload. discriminate Hload.
    - left. split; [by apply Herr|done]. }
  split_and!.
  - destruct Hcases as [[H _]|H]; [by left|by right].
  - split; [|exact Herr]. intros Hrun.
    destruct Hcases as [[_ H]|[r Hr]]; [done|]. rewrite Hr in Hrun. discriminate Hrun.
  - intros Hlen. apply Herr. exists "". split; [by apply read_lines_short|].
    vm_compute; reflexivity.
Qed.

(** ** The grid *)

Lemma share_group_Exists a b :
  share_group a b ↔ Exists (fun constraint => a ∈ constraint ∧ b ∈ constraint) constraints.
Proof.
  rewrite Exists_exists. unfold share_group. naive_solver.
Qed.

Lemma lookup_at_index (l : list ascii) i x :
  l !! i = Some x → at_index l i = x ∧ (i < length l)%nat.
Proof.
  intros H. split; [by apply nth_lookup_Some|by eapply lookup_lt_Some].
Qed.

Lemma length_constraints : length constraints = 27%nat.
Proof. vm_compute; reflexivity. Qed.

Lemma in_group_iff i j g constraint :
  (i < 9)%nat → (j < 9)%nat → constraints !! g = Some constraint →
  cell_name (at_index cols i) (at_index rows j) ∈ constraint ↔ in_group i j g.
Proof.
  assert (Forall (fun i => Forall (fun j => Forall (fun g =>
            cell_name (at_index cols i) (at_index rows j) ∈ default [] (constraints !! g)
            ↔ in_group i j g) (seq 0 27)) (seq 0 9)) (seq 0 9)) as H
    by (apply (bool_decide_unpack _); vm_compute; exact I).
  intros Hi Hj Hg.
  assert (g < 27)%nat as Hlt by (rewrite <- length_constraints; by eapply lookup_lt_Some).
  rewrite Forall_forall in H. specialize (H i). rewrite elem_of_seq in H.
  specialize (H (conj (Nat.le_0_l i) Hi)).
  rewrite Forall_forall in H. specialize (H j). rewrite elem_of_seq in H.
  specialize (H (conj (Nat.le_0_l j) Hj)).
  rewrite Forall_forall in H. specialize (H g). rewrite elem_of_seq in H.
  specialize (H (conj (Nat.le_0_l g) Hlt)).
  by rewrite Hg in H.
Qed.

(** The groups are the nine rows, the nine columns and the nine blocks of
    the grid: 27 groups of nine different cells, every cell in three of
    them and with 20 other cells in its groups; and two cells share a group
    exactly when they are in the same column, in the same row, or in the
    same block of three columns by three rows. *)
Theorem constraints_are_rows_columns_blocks :
  length constraints = 27%nat ∧
  (∀ constraint, constraint ∈ constraints →
     length constraint = 9%nat ∧ NoDup constraint ∧ ∀ c, c ∈ constraint → c ∈ variables) ∧
  (∀ c, c ∈ variables →
     length (filter (fun constraint => c ∈ constraint) constraints) = 3%nat ∧
     length (peers_of c) = 20%nat) ∧
  (∀ i j i' j' col row col' row',
     cols !! i = Some col → rows !! j = Some row →
     cols !! i' = Some col' → rows !! j' = Some row' →
     (share_group (cell_name col row) (cell_name col' row') ↔
      i = i' ∨ j = j' ∨ ((i / 3 = i' / 3)%nat ∧ (j / 3 = j' / 3)%nat))).
Proof.
  split_and!.
  - vm_compute; reflexivity.
  - assert (Forall (fun constraint : list string =>
                      length constraint = 9%nat ∧ NoDup constraint ∧
                      Forall (fun c => c ∈ variables) constraint) constraints) as H
      by (apply (bool_decide_unpack _); vm_compute; exact I).
    intros constraint Hg. rewrite Forall_forall in H.
    destruct (H _ Hg) as (Hlen & Hnd & Hin). split; [done|]. split; [done|].
    by rewrite Forall_forall in Hin.
  - assert (Forall (fun c : string =>
                      length (filter (fun constraint => c ∈ constraint) constraints) = 3%nat ∧
                      length (peers_of c) = 20%nat) variables) as H
      by (apply (bool_decide_unpack _); vm_compute; exact I).
    by rewrite Forall_forall in H.
  - intros i j i' j' col row col' row' Hi Hj Hi' Hj'.
    apply lookup_at_index in Hi as [<- Hi], Hj as [<- Hj], Hi' as [<- Hi'], Hj' as [<- Hj'].
    change (length cols) with 9%nat in *. change (length rows) with 9%nat in *.
    pose proof (in_group_iff i j) as Hin. pose proof (in_group_iff i' j') as Hin'.
    unfold in_group in *.
    assert (i / 3 < 3)%nat as Hbi by (apply Nat.Div0.div_lt_upper_bound; lia).
    assert (j / 3 < 3)%nat as Hbj by (apply Nat.Div0.div_lt_upper_bound; lia).
    assert (i' / 3 < 3)%nat as Hbi' by (apply Nat.Div0.div_lt_upper_bound; lia).
    assert (j' / 3 < 3)%nat as Hbj' by (apply Nat.Div0.div_lt_upper_bound; lia).
    remember (i / 3)%nat as bi eqn:Ebi. remember (j / 3)%nat as bj eqn:Ebj.
    remember (i' / 3)%nat as bi' eqn:Ebi'. remember (j' / 3)%nat as bj' eqn:Ebj'.
    clear Ebi Ebj Ebi' Ebj'.
    split.
    + intros (constraint & [g Hg]%list_elem_of_lookup & Ha & Hb).
      apply (Hin g constraint Hi Hj Hg) in Ha.
      apply (Hin' g constraint Hi' Hj' Hg) in Hb. lia.
    + intros Hshare.
      assert (∃ g, (g < 27)%nat ∧
                (g = j ∨ g = (9 + i)%nat ∨ g = (18 + 3 * bj + bi)%nat) ∧
                (g = j' ∨ g = (9 + i')%nat ∨ g = (18 + 3 * bj' + bi')%nat))
        as (g & Hlt & Hg & Hg').
      { destruct Hshare as [->|[->|[-> ->]]].
        - exists (9 + i')%nat. lia.
        - exists j'. lia.
        - exists (18 + 3 * bj' + bi')%nat. lia. }
      destruct (lookup_lt_is_Some_2 constraints g) as [constraint Hc];
        [by rewrite length_constraints|].
      exists constraint. split; [by eapply list_elem_of_lookup_2|].
      split; [by apply (Hin g constraint Hi Hj Hc)|by apply (Hin' g constraint Hi' Hj' Hc)].
Qed.
